(** * The web-of-trust key ring of Peerster (package [awot])

    A shallow embedding of [awot/key_ring.go] and of the collaborators it
    relies on, followed by the properties of its public operations.

    Conventions of the embedding:
    - [float32] and [float64] are the IEEE-754 binary32 and binary64 formats
      of [SpecFloat], with round-to-nearest-even;
    - a Go map is a [gmap]; the order in which [range] visits its keys is
      not fixed by the language and is supplied by a scheduler [Sched], and
      so is the order in which gonum lists the shortest paths between two
      nodes, which follows the iteration of the maps of the library;
    - the pointer [*float32] held by every [Node] is an address into a store
      of probabilities that is part of the ring state;
    - [log.Fatal], a library panic and a nil dereference end the program:
      the operations that may reach one return [option], [None] standing
      for the aborted run;
    - mutexes are not modelled: every operation runs to completion. *)

From Stdlib Require Import ZArith List String Ascii DecimalString DecimalZ.
From Stdlib.Floats Require Import SpecFloat.
From stdpp Require Import gmap strings list fin_maps option.

Local Open Scope Z_scope.

(** ** IEEE-754 numbers *)

Module F32.
Definition prec : Z := 24.
Definition emax : Z := 128.

Definition t := spec_float.

Definition zero : t := S754_zero false.
Definition one : t := SFone prec emax.
Definition of_Z (z : Z) : t := binary_normalize prec emax z 0 false.
Definition half : t := SFdiv prec emax one (of_Z 2).

Definition mul (x y : t) : t := SFmul prec emax x y.
Definition sub (x y : t) : t := SFsub prec emax x y.
Definition div (x y : t) : t := SFdiv prec emax x y.

(** Go's [x < y] and [x >= y]; both are false when an operand is NaN. *)
Definition ltb (x y : t) : bool := SFltb x y.
Definition geb (x y : t) : bool := SFleb y x.

Definition is_nan (x : t) : bool :=
  match x with S754_nan => true | _ => false end.
End F32.

Module F64.
Definition prec : Z := 53.
Definition emax : Z := 1024.

Definition t := spec_float.

Definition one : t := SFone prec emax.
Definition inf : t := S754_infinity false.
Definition of_Z (z : Z) : t := binary_normalize prec emax z 0 false.

Definition div (x y : t) : t := SFdiv prec emax x y.
Definition eqb (x y : t) : bool := SFeqb x y.

(** [math.Min]: NaN if an operand is NaN, -Inf if one is -Inf, and
    [Min(-0, +0) = Min(+0, -0) = -0]. *)
Definition min (x y : t) : t :=
  match x, y with
  | S754_infinity true, _ | _, S754_infinity true => S754_infinity true
  | S754_nan, _ | _, S754_nan => S754_nan
  | S754_zero sx, S754_zero sy => S754_zero (sx || sy)
  | _, _ => if SFltb x y then x else y
  end.
End F64.

(** Conversions [float64(x)] (exact) and [float32(x)] (rounding). *)
Definition convert (prec emax : Z) (x : spec_float) : spec_float :=
  match x with
  | S754_finite s m e => binary_round prec emax s m e
  | _ => x
  end.

Definition to_f64 (x : F32.t) : F64.t := convert F64.prec F64.emax x.
Definition to_f32 (x : F64.t) : F32.t := convert F32.prec F32.emax x.

(** ** RSA public keys and the tag used to tally them *)

(** [rsa.PublicKey]: [N] points to a [big.Int] ([None] is the nil pointer of
    the zero value), [E] an [int]. *)
Record PublicKey := { N : option Z; E : Z }.

#[global] Instance PublicKey_eq_dec : EqDecision PublicKey.
Proof. solve_decision. Defined.

Definition zeroKey : PublicKey := {| N := None; E := 0 |}.

(** The [String] method of [big.Int]: the decimal text, or the text
    [<nil>] for the nil pointer. *)
Definition bigString (n : option Z) : string :=
  match n with
  | Some z => NilZero.string_of_int (Z.to_int z)
  | None => "<nil>"%string
  end.

Definition byte_of (z : Z) : ascii := ascii_of_N (Z.to_N (z mod 256)).

(** [string(i)] for an integer [i]: the UTF-8 encoding of the code point
    [i], and of U+FFFD when [i] is not a valid code point. *)
Definition runeString (i : Z) : string :=
  let r := if (0 <=? i) && (i <=? 1114111) && negb ((55296 <=? i) && (i <=? 57343))
           then i else 65533 in
  if r <? 128 then String (byte_of r) EmptyString
  else if r <? 2048 then
    String (byte_of (Z.lor 192 (Z.shiftr r 6)))
      (String (byte_of (Z.lor 128 (Z.land r 63))) EmptyString)
  else if r <? 65536 then
    String (byte_of (Z.lor 224 (Z.shiftr r 12)))
      (String (byte_of (Z.lor 128 (Z.land (Z.shiftr r 6) 63)))
        (String (byte_of (Z.lor 128 (Z.land r 63))) EmptyString))
  else
    String (byte_of (Z.lor 240 (Z.shiftr r 18)))
      (String (byte_of (Z.lor 128 (Z.land (Z.shiftr r 12) 63)))
        (String (byte_of (Z.lor 128 (Z.land (Z.shiftr r 6) 63)))
          (String (byte_of (Z.lor 128 (Z.land r 63))) EmptyString))).

(** [key.N.String()+"-"+string(key.E)] *)
Definition keyString (k : PublicKey) : string :=
  (bigString (N k) ++ "-" ++ runeString (E k))%string.

(** ** Records and the key table *)

(** [KeyRecord] and [TrustedKeyRecord] are declared next to the key table;
    their fields are those [NewKeyRing] fills in, the second embedding the
    first. *)
Record KeyRecord := { Owner : string; KeyPub : PublicKey }.

Record TrustedKeyRecord := { keyRecord : KeyRecord; Confidence : F32.t }.

Definition zeroRecord : TrustedKeyRecord :=
  {| keyRecord := {| Owner := EmptyString; KeyPub := zeroKey |}; Confidence := F32.zero |}.

Module KeyTable.
(** Modelled from the spec: the type [keyTable] and its methods
    [newKeyTable], [add], [get], [getPeerList] and [updateConfidence]
    live in a file that is not part of the sources at hand. The table
    "maps identity to TrustedRecord". *)
Abbreviation t := (gmap string TrustedKeyRecord).

(** Modelled from the spec: [newKeyTable]. [NewKeyRing] upserts the
    owner's record right after the call, so an empty table and a table
    already holding that record give the same ring. *)
Definition new (owner : string) (key : PublicKey) : t := ∅.

(** Modelled from the spec: "add(rec): insert or replace; on replace,
    confidence from rec is authoritative". *)
Definition add (rec : TrustedKeyRecord) (tb : t) : t :=
  <[Owner (keyRecord rec) := rec]> tb.

(** Modelled from the spec: "get(name): returns the record plus a
    present/absent indicator"; the record is the zero value when
    absent. *)
Definition get (name : string) (tb : t) : TrustedKeyRecord * bool :=
  match tb !! name with
  | Some rec => (rec, true)
  | None => (zeroRecord, false)
  end.

(** Modelled from the spec: "peers(): snapshot of known identities". *)
Definition getPeerList (tb : t) : list string := (map_to_list tb).*1.

(** Modelled from the spec: "updateConfidence(name, newConfidence,
    chosenKey): if name exists, replaces its stored public key with
    chosenKey and its confidence with newConfidence; if chosenKey is
    absent (e.g. unreachable target), the record's confidence is forced
    to 0 and the key is left or cleared. If name does not exist, the call
    is a no-op." The key is left: "no path from root to T: confidence = 0;
    stored key unchanged". *)
Definition updateConfidence (name : string) (confidence : F32.t)
    (key : option PublicKey) (tb : t) : t :=
  match tb !! name with
  | None => tb
  | Some rec =>
      match key with
      | Some k =>
          <[name := {| keyRecord := {| Owner := Owner (keyRecord rec); KeyPub := k |};
                       Confidence := confidence |}]> tb
      | None =>
          <[name := {| keyRecord := keyRecord rec; Confidence := F32.zero |}]> tb
      end
  end.
End KeyTable.

(** ** Nodes, edges and the directed graph *)

(** [probability] is the address of the node's [float32] in the store. *)
Record Node := { name : string; id : Z; probability : nat }.

Record Edge := { F : Node; T : Node; Key : PublicKey }.

#[global] Instance Node_eq_dec : EqDecision Node.
Proof. solve_decision. Defined.

(** [simple.DirectedGraph] of gonum: nodes by id, edges by the ordered pair
    of the ids of their ends. *)
Module simple.
Record DirectedGraph := {
  nodes : gmap Z Node;
  edges : gmap (Z * Z) Edge }.

Definition NewDirectedGraph : DirectedGraph := {| nodes := ∅; edges := ∅ |}.

Definition Has (g : DirectedGraph) (n : Node) : bool :=
  bool_decide (is_Some (nodes g !! id n)).

(** [g.Nodes()]: all nodes, in no particular order. *)
Definition Nodes (g : DirectedGraph) : list Node :=
  (map_to_list (nodes g)).*2.

(** [g.AddNode(n)] panics when the id is taken. *)
Definition AddNode (n : Node) (g : DirectedGraph) : option DirectedGraph :=
  if Has g n then None
  else Some {| nodes := <[id n := n]> (nodes g); edges := edges g |}.

Definition ensureNode (n : Node) (ns : gmap Z Node) : gmap Z Node :=
  match ns !! id n with Some _ => ns | None => <[id n := n]> ns end.

(** [g.SetEdge(e)] panics on a self edge, adds the ends that the graph
    does not have yet, and replaces the edge between the two ids. *)
Definition SetEdge (e : Edge) (g : DirectedGraph) : option DirectedGraph :=
  if decide (id (F e) = id (T e)) then None
  else Some {| nodes := ensureNode (T e) (ensureNode (F e) (nodes g));
               edges := <[(id (F e), id (T e)) := e]> (edges g) |}.

(** [g.Edge(u, v)]: nil when there is none. *)
Definition Edge (g : DirectedGraph) (u v : Node) : option Edge :=
  edges g !! (id u, id v).

(** [g.Node(id)]: nil when the graph has no such node. *)
Definition Node (g : DirectedGraph) (i : Z) : option Node := nodes g !! i.
End simple.

(** ** Shortest paths (gonum's [path] package on unit weights)

    [simple.DirectedGraph] carries no weights, so Dijkstra's algorithm runs
    with [UniformCost]: every edge weighs 1 and the distance is the number
    of hops. *)
Module path.
(** Ids entering [t] by an edge whose two ends are nodes of the graph. *)
Definition preds (g : simple.DirectedGraph) (t : Z) : list Z :=
  omap (λ kv : Z * Z * Edge,
          let '(u, v, _) := kv in
          if bool_decide (v = t ∧ is_Some (simple.nodes g !! u) ∧ is_Some (simple.nodes g !! v))
          then Some u else None)
       (map_to_list (simple.edges g)).

(** All walks of exactly [k] edges from [s] to [t], as lists of ids. *)
Fixpoint walks (g : simple.DirectedGraph) (s : Z) (k : nat) (t : Z) : list (list Z) :=
  match k with
  | O => if decide (s = t) then [[s]] else []
  | S k' => u ← preds g t; (λ p, p ++ [t]) <$> walks g s k' u
  end.

(** Number of hops of a shortest walk from [s] to [t], if there is one:
    a shortest walk repeats no node, so it has fewer edges than the graph
    has nodes. *)
Definition hops (g : simple.DirectedGraph) (s t : Z) : option nat :=
  list_find (λ k, walks g s k t ≠ []) (seq 0 (size (simple.nodes g))) ≫= λ ik, Some ik.2.

Definition resolve (g : simple.DirectedGraph) (p : list Z) : option (list Node) :=
  mapM (λ i, simple.nodes g !! i) p.

(** The shortest paths from [u] to [v], for two nodes of the graph, in the
    order of [walks]: the single path [[u]] when [u = v], none when [v]
    cannot be reached. *)
Definition shortest (g : simple.DirectedGraph) (u v : Node) : list (list Node) :=
  match hops g (id u) (id v) with
  | Some k => omap (resolve g) (walks g (id u) k (id v))
  | None => []
  end.

(** The order in which the library lists a set of paths. It follows the
    iteration of the maps the library keeps, and changes from run to run. *)
Definition Order : Type := list (list Node) → list (list Node).

(** The paths of [l] as [order] lists them. *)
Definition arrange (order : Order) (l : list (list Node)) : list (list Node) :=
  filter (λ p, p ∈ l) (order l).

(** [DijkstraAllPaths(g).AllBetween(u, v)] for two nodes of the graph:
    every shortest path from [u] to [v], in the order the library comes to
    list them; the single path [[u]] when [u = v]; nil when [v] cannot be
    reached. *)
Definition AllBetween (order : Order) (g : simple.DirectedGraph) (u v : Node)
    : list (list Node) :=
  arrange order (shortest g u v).

(** [DijkstraFrom(u, g).WeightTo(v)]: the number of hops as a [float64],
    [+Inf] when [v] cannot be reached. *)
Definition WeightTo (g : simple.DirectedGraph) (u v : Node) : F64.t :=
  match hops g (id u) (id v) with
  | Some k => F64.of_Z (Z.of_nat k)
  | None => F64.inf
  end.
End path.

(** ** The key ring *)

(** Modelled from the spec: the type [KeyExchangeMessage] is declared in a
    file that is not part of the sources at hand; "{signer, owner,
    ownerKeyBytes, signature}". [updateMessage] reads [Origin], the signer,
    [Owner] and [KeyBytes]. *)
Module KeyExchangeMessage.
Record t := {
  Origin : string;
  Owner : string;
  KeyBytes : list Byte.byte;
  Signature : list Byte.byte }.
End KeyExchangeMessage.

(** The cryptographic collaborators: [DeserializeKey(bytes)] returns a key
    or an error ([None]); [Verify(msg, key)] returns nil ([true]) or an
    error ([false]). *)
Record Crypto := {
  DeserializeKey : list Byte.byte → option PublicKey;
  Verify : KeyExchangeMessage.t → PublicKey → bool }.

(** [ReputationTable.Reputation(name)]; the interface value may be nil. *)
Definition ReputationTable : Type := option (string → F32.t * bool).

(** The order in which a [range] loop visits the keys of a map, and the
    order in which the library lists shortest paths. *)
Record Sched := {
  keyOrder :> list string → list string;
  pathOrder : path.Order }.

Definition rangeMap {V : Type} (sched : Sched) (m : gmap string V) : list (string * V) :=
  omap (λ k, (λ v, (k, v)) <$> m !! k) (sched (map_to_list m).*1).

#[global] Instance spec_float_inhabited : Inhabited spec_float := populate (S754_zero false).

Record KeyRing := {
  source : string;
  ids : gmap string Node;
  graph : simple.DirectedGraph;
  nextNode : Z;
  keyTable : KeyTable.t;
  pending : list KeyExchangeMessage.t;
  threshold : F32.t;
  stopped : bool;
  (** the cells the [probability] pointers refer to, and the next free one *)
  heap : gmap nat F32.t;
  nextPtr : nat }.

Definition with_graph (g : simple.DirectedGraph) (r : KeyRing) : KeyRing :=
  {| source := source r; ids := ids r; graph := g; nextNode := nextNode r;
     keyTable := keyTable r; pending := pending r; threshold := threshold r;
     stopped := stopped r; heap := heap r; nextPtr := nextPtr r |}.

Definition with_keyTable (tb : KeyTable.t) (r : KeyRing) : KeyRing :=
  {| source := source r; ids := ids r; graph := graph r; nextNode := nextNode r;
     keyTable := tb; pending := pending r; threshold := threshold r;
     stopped := stopped r; heap := heap r; nextPtr := nextPtr r |}.

Definition with_pending (q : list KeyExchangeMessage.t) (r : KeyRing) : KeyRing :=
  {| source := source r; ids := ids r; graph := graph r; nextNode := nextNode r;
     keyTable := keyTable r; pending := q; threshold := threshold r;
     stopped := stopped r; heap := heap r; nextPtr := nextPtr r |}.

Definition with_stopped (b : bool) (r : KeyRing) : KeyRing :=
  {| source := source r; ids := ids r; graph := graph r; nextNode := nextNode r;
     keyTable := keyTable r; pending := pending r; threshold := threshold r;
     stopped := b; heap := heap r; nextPtr := nextPtr r |}.

(** [*p = v] *)
Definition store (p : nat) (v : F32.t) (r : KeyRing) : KeyRing :=
  {| source := source r; ids := ids r; graph := graph r; nextNode := nextNode r;
     keyTable := keyTable r; pending := pending r; threshold := threshold r;
     stopped := stopped r; heap := <[p := v]> (heap r); nextPtr := nextPtr r |}.

(** [*n.probability] *)
Definition load (h : gmap nat F32.t) (n : Node) : F32.t := h !!! probability n.

(** A loop whose body may abort. *)
Fixpoint foldlM {A B : Type} (f : B → A → option B) (b : B) (l : list A) : option B :=
  match l with
  | [] => Some b
  | x :: l' => f b x ≫= λ b', foldlM f b' l'
  end.

(** *** Construction *)

Definition bootstrap (root : Node) (r : KeyRing) (rec : TrustedKeyRecord) : option KeyRing :=
  let node := {| name := Owner (keyRecord rec); id := nextNode r; probability := nextPtr r |} in
  g ← simple.AddNode node (graph r);
  g ← simple.SetEdge {| F := root; T := node; Key := KeyPub (keyRecord rec) |} g;
  Some {| source := source r;
          ids := <[Owner (keyRecord rec) := node]> (ids r);
          graph := g;
          nextNode := nextNode r + 1;
          keyTable := KeyTable.add
            {| keyRecord := {| Owner := Owner (keyRecord rec); KeyPub := KeyPub (keyRecord rec) |};
               Confidence := Confidence rec |} (keyTable r);
          pending := pending r; threshold := threshold r; stopped := stopped r;
          heap := <[nextPtr r := F32.one]> (heap r);
          nextPtr := S (nextPtr r) |}.

Definition NewKeyRing (owner : string) (key : PublicKey)
    (trustedRecords : list TrustedKeyRecord) (thr : F32.t) : option KeyRing :=
  let root := {| name := owner; id := 0; probability := O |} in
  g ← simple.AddNode root simple.NewDirectedGraph;
  foldlM (bootstrap root)
    {| source := owner;
       ids := {[owner := root]};
       graph := g;
       nextNode := 1;
       keyTable := KeyTable.add
         {| keyRecord := {| Owner := owner; KeyPub := key |}; Confidence := F32.one |}
         (KeyTable.new owner key);
       pending := [];
       threshold := thr;
       stopped := false;
       heap := {[O := F32.one]};
       nextPtr := 1%nat |}
    trustedRecords.

(** *** Lookups *)

Definition Stop (r : KeyRing) : KeyRing := with_stopped true r.

Definition GetKey (r : KeyRing) (n : string) : PublicKey * bool :=
  let '(rec, ok) := KeyTable.get n (keyTable r) in
  if negb ok then (KeyPub (keyRecord rec), ok)
  else if F32.ltb (Confidence rec) (threshold r) then (zeroKey, false)
  else (KeyPub (keyRecord rec), ok).

Definition GetRecord (r : KeyRing) (n : string) : TrustedKeyRecord * bool :=
  KeyTable.get n (keyTable r).

Definition GetPeerList (r : KeyRing) : list string :=
  KeyTable.getPeerList (keyTable r).

Definition AddUnverified (msg : KeyExchangeMessage.t) (r : KeyRing) : KeyRing :=
  with_pending (pending r ++ [msg]) r.

(** *** The graph of the ring *)

Definition contains (r : KeyRing) (n : string) : bool :=
  bool_decide (is_Some (ids r !! n)).

(** [for n := range nodes] visits the indices of the slice [g.Nodes()]. *)
Definition lastNode (r : KeyRing) : Z :=
  foldl (λ maxId n, if maxId <? n then n else maxId) 0
        (Z.of_nat <$> seq 0 (length (simple.Nodes (graph r)))).

(** The additions on [int64] are written over [Z]: the ids count the nodes
    of the graph, which cannot number 2^63. *)
Definition addNode (n : string) (p : F32.t) (r : KeyRing) : option KeyRing :=
  match ids r !! n with
  | Some vp => Some (store (probability vp) p r)
  | None =>
      let node := {| id := lastNode r + 1; name := n; probability := nextPtr r |} in
      g ← simple.AddNode node (graph r);
      Some {| source := source r;
              ids := <[n := node]> (ids r);
              graph := g;
              nextNode := nextNode r + 1;
              keyTable := keyTable r; pending := pending r;
              threshold := threshold r; stopped := stopped r;
              heap := <[nextPtr r := p]> (heap r);
              nextPtr := S (nextPtr r) |}
  end.

(** The second component is the returned [error], [None] for nil. *)
Definition addEdge (a b : string) (key : PublicKey) (r : KeyRing)
    : option (KeyRing * option string) :=
  match ids r !! a with
  | None => Some (r, Some "adding edge with source non present"%string)
  | Some vA =>
      match ids r !! b with
      | None => Some (r, Some "adding edge with destination non present"%string)
      | Some vB =>
          if decide (a = b) then Some (r, Some "adding edge between same vertices"%string)
          else
            g ← simple.SetEdge {| F := vA; T := vB; Key := key |} (graph r);
            Some (with_graph g r, None)
      end
  end.

Definition phi (n : string) (reputation : F32.t) (r : KeyRing) : option F32.t :=
  match ids r !! n with
  | None => Some F32.zero
  | Some v =>
      destNode ← simple.Node (graph r) (id v);
      src ← ids r !! source r;
      sourceNode ← simple.Node (graph r) (id src);
      let distance := path.WeightTo (graph r) sourceNode destNode in
      let distance := if F64.eqb distance (S754_zero false) then F64.one else distance in
      Some (to_f32 (F64.min (F64.div F64.one distance) (to_f64 reputation)))
  end.

(** *** Selection of the best paths *)

(** [p[len(p)-2]] and [p[len(p)-1]], when [len(p) >= 2]. *)
Definition ends (p : list Node) : option (Node * Node) :=
  match reverse p with
  | t :: s :: _ => Some (s, t)
  | _ => None
  end.

(** The key of the last edge of [p]: [None] when the edge is missing
    ([log.Fatal]), [Some None] when the path has fewer than two nodes. *)
Definition lastKey (g : simple.DirectedGraph) (p : list Node) : option (option PublicKey) :=
  match ends p with
  | None => Some None
  | Some (s, t) => edge ← simple.Edge g s t; Some (Some (Key edge))
  end.

(** The first loop: [occurrences[keyString] += 1]. The counters are [int]s
    bounded by the number of paths. *)
Definition tallyStep (g : simple.DirectedGraph) (occurrences : gmap string nat)
    (p : list Node) : option (gmap string nat) :=
  k ← lastKey g p;
  Some match k with
       | None => occurrences
       | Some key =>
           <[keyString key := (default O (occurrences !! keyString key) + 1)%nat]> occurrences
       end.

Definition tally (g : simple.DirectedGraph) (paths : list (list Node))
    : option (gmap string nat) :=
  foldlM (tallyStep g) ∅ paths.

(** The second loop: the first key, in the order of the iteration, whose
    count is the greatest. *)
Definition maxStep (acc : nat * string) (kv : string * nat) : nat * string :=
  if (acc.1 <? kv.2)%nat then (kv.2, kv.1) else acc.

Definition findMax (sched : Sched) (occurrences : gmap string nat) : nat * string :=
  foldl maxStep (O, EmptyString) (rangeMap sched occurrences).

(** The third loop. *)
Definition collectStep (g : simple.DirectedGraph) (bkey : string)
    (acc : list (list Node) * PublicKey) (p : list Node)
    : option (list (list Node) * PublicKey) :=
  k ← lastKey g p;
  Some match k with
       | None => acc
       | Some key => if decide (bkey = keyString key) then (acc.1 ++ [p], key) else acc
       end.

Definition collect (g : simple.DirectedGraph) (bkey : string) (paths : list (list Node))
    : option (list (list Node) * PublicKey) :=
  foldlM (collectStep g bkey) ([], zeroKey) paths.

Definition selectBestPaths (sched : Sched) (g : simple.DirectedGraph)
    (paths : list (list Node)) : option (list (list Node) * option PublicKey) :=
  match paths with
  | [] => Some (paths, None)
  | [p] =>
      match ends p with
      | None => Some (paths, None)
      | Some (s, t) => edge ← simple.Edge g s t; Some (paths, Some (Key edge))
      end
  | _ =>
      occurrences ← tally g paths;
      let bkey := (findMax sched occurrences).2 in
      best ← collect g bkey paths;
      Some (best.1, Some best.2)
  end.

(** *** Confidence *)

(** Modelled from the spec: [probabilityOfMinPaths] is not part of the
    sources at hand. "Each retained path p has probability = product of the
    trust probabilities of its internal nodes (excluding the terminal; the
    root contributes 1.0). Target confidence = 1 - prod_p (1 - probability(p))."
    The factors are the nodes strictly between the two ends, read through
    their pointers, and the arithmetic is that of [float32]. *)
Definition internal (p : list Node) : list Node := removelast (tail p).

Definition probabilityOfPath (h : gmap nat F32.t) (p : list Node) : F32.t :=
  foldl (λ acc n, F32.mul acc (load h n)) F32.one (internal p).

Definition probabilityOfMinPaths (h : gmap nat F32.t) (paths : list (list Node)) : F32.t :=
  F32.sub F32.one
    (foldl (λ acc p, F32.mul acc (F32.sub F32.one (probabilityOfPath h p))) F32.one paths).

(** The body of the loop of [updateConfidence]: the confidence and the key
    computed for one terminal. *)
Definition confidenceOf (sched : Sched) (r : KeyRing) (src : Node) (terminalVertex : Node)
    : option (F32.t * option PublicKey) :=
  terminal ← simple.Node (graph r) (id terminalVertex);
  let minpaths := path.AllBetween (pathOrder sched) (graph r) src terminal in
  best ← selectBestPaths sched (graph r) minpaths;
  Some (probabilityOfMinPaths (heap r) best.1, best.2).

Definition confidenceStep (sched : Sched) (src : Node) (r : KeyRing)
    (kv : string * Node) : option KeyRing :=
  c ← confidenceOf sched r src kv.2;
  Some (with_keyTable (KeyTable.updateConfidence kv.1 c.1 c.2 (keyTable r)) r).

Definition updateConfidence (sched : Sched) (r : KeyRing) : option KeyRing :=
  s ← ids r !! source r;
  src ← simple.Node (graph r) (id s);
  foldlM (confidenceStep sched src) r (rangeMap sched (ids r)).

(** *** Updates *)

Definition Add (sched : Sched) (rec : KeyRecord) (sigOrigin : string)
    (reputationOwner : F32.t) (r : KeyRing) : option KeyRing :=
  if negb (contains r sigOrigin) then Some r
  else if decide (Owner rec = sigOrigin) then Some r
  else
    r ← addNode (Owner rec) F32.zero r;
    re ← addEdge sigOrigin (Owner rec) (KeyPub rec) r;
    match re.2 with
    | Some _ => None
    | None =>
        probability ← phi (Owner rec) reputationOwner re.1;
        r ← addNode (Owner rec) probability re.1;
        updateConfidence sched r
    end.

(** [rep, present = reptable.Reputation(name)], 0.5 without a table or
    without an entry. *)
Definition reputation (reptable : ReputationTable) (n : string) : F32.t :=
  let '(rep, present) :=
    match reptable with
    | Some table => table n
    | None => (F32.half, false)
    end in
  if negb present then F32.half else rep.

Definition trustStep (reptable : ReputationTable) (r : KeyRing)
    (kv : string * Node) : option KeyRing :=
  let rep := reputation reptable kv.1 in
  probability ← phi kv.1 (F32.mul (F32.of_Z 2) rep) r;
  addNode kv.1 probability r.

Definition updateTrust (sched : Sched) (reptable : ReputationTable) (r : KeyRing)
    : option KeyRing :=
  foldlM (trustStep reptable) r (rangeMap sched (ids r)).

Definition updateMessage (c : Crypto) (sched : Sched) (msg : KeyExchangeMessage.t)
    (confidenceOwner : F32.t) (r : KeyRing) : option (KeyRing * bool) :=
  match DeserializeKey c (KeyExchangeMessage.KeyBytes msg) with
  | None => Some (r, true)
  | Some receivedKey =>
      let record := {| Owner := KeyExchangeMessage.Owner msg; KeyPub := receivedKey |} in
      let '(kpub, present) := GetKey r (KeyExchangeMessage.Origin msg) in
      if negb present then Some (r, false)
      else if Verify c msg kpub then
        r' ← Add sched record (KeyExchangeMessage.Origin msg) confidenceOwner r;
        Some (r', true)
      else Some (r, false)
  end.

(** *** The pending queue ([container/list]) *)

(** An element of a list is followed through its position; [Remove] clears
    the [next], [prev] and [list] fields of the element it unlinks, which is
    then [Detached]. *)
Module clist.
Inductive Element := At (i : nat) | Detached.

Definition Front {A : Type} (l : list A) : option Element :=
  match l with [] => None | _ => Some (At 0) end.

(** [e.Next()]: nil when [e.list == nil] or when [e] is the last one. *)
Definition Next {A : Type} (l : list A) (e : Element) : option Element :=
  match e with
  | At i => if (S i <? length l)%nat then Some (At (S i)) else None
  | Detached => None
  end.

(** [l.Remove(e)] unlinks [e] if it belongs to [l]. *)
Definition Remove {A : Type} (l : list A) (e : Element) : list A * Element :=
  match e with
  | At i => (delete i l, Detached)
  | Detached => (l, Detached)
  end.
End clist.

(** [for e := l.Front(); e != nil; e = e.Next() { l.Remove(e) }] *)
Fixpoint removeLoop {A : Type} (fuel : nat) (l : list A) (e : option clist.Element) : list A :=
  match fuel, e with
  | S fuel', Some e =>
      let '(l', e') := clist.Remove l e in
      removeLoop fuel' l' (clist.Next l' e')
  | _, _ => l
  end.

(** The first loop of [updatePending]: the ring after the replay of every
    pending message, and [toRemove], the positions of the messages for which
    [updateMessage] returned true. *)
Definition replayStep (c : Crypto) (sched : Sched) (reptable : ReputationTable)
    (st : KeyRing * list nat) (im : nat * KeyExchangeMessage.t)
    : option (KeyRing * list nat) :=
  let reputationOwner := reputation reptable (KeyExchangeMessage.Owner im.2) in
  res ← updateMessage c sched im.2 (F32.mul (F32.of_Z 2) reputationOwner) st.1;
  Some (res.1, if res.2 : bool then st.2 ++ [im.1] else st.2).

Definition replayPending (c : Crypto) (sched : Sched) (reptable : ReputationTable)
    (r : KeyRing) : option (KeyRing * list nat) :=
  foldlM (replayStep c sched reptable) (r, []) (imap pair (pending r)).

Definition updatePending (c : Crypto) (sched : Sched) (reptable : ReputationTable)
    (r : KeyRing) : option KeyRing :=
  st ← replayPending c sched reptable r;
  let q := pending st.1 in
  Some (with_pending (removeLoop (S (length q)) q (clist.Front q)) st.1).

(** One round of the loop of [worker]; a stopped ring leaves the loop. *)
Definition tick (c : Crypto) (sched : Sched) (reptable : ReputationTable)
    (r : KeyRing) : option KeyRing :=
  if stopped r then Some r
  else
    r ← updateTrust sched reptable r;
    r ← updatePending c sched reptable r;
    updateConfidence sched r.

(** ** Well-formed rings and fair schedulers *)

(** A scheduler is fair when it visits every key exactly once. *)
Definition fair (sched : Sched) : Prop := ∀ l, sched l ≡ₚ l.

(** It lists every path exactly once. *)
Definition fair_paths (sched : Sched) : Prop := ∀ l, pathOrder sched l ≡ₚ l.

(** The state that [NewKeyRing] sets up and every operation keeps: the
    nodes of [ids] carry their own name and are the nodes the graph holds
    under their id; the ids of the graph are its keys and lie below the
    number of nodes; the source is known; distinct names have distinct,
    allocated probability cells. *)
Definition wf (r : KeyRing) : Prop :=
  map_Forall (λ n v, name v = n ∧ simple.nodes (graph r) !! id v = Some v) (ids r) ∧
  map_Forall (λ i v, id v = i ∧ 0 ≤ i < Z.of_nat (size (simple.nodes (graph r))))
             (simple.nodes (graph r)) ∧
  is_Some (ids r !! source r) ∧
  map_Forall (λ a va, map_Forall (λ b vb, probability va = probability vb → a = b) (ids r))
             (ids r) ∧
  map_Forall (λ _ v, (probability v < nextPtr r)%nat) (ids r).

#[global] Instance wf_dec (r : KeyRing) : Decision (wf r).
Proof. unfold wf. apply _. Defined.

(** Neither the threshold nor a stored confidence is NaN. *)
Definition numeric (r : KeyRing) : Prop :=
  F32.is_nan (threshold r) = false ∧
  map_Forall (λ _ rec, F32.is_nan (Confidence rec) = false) (keyTable r).

#[global] Instance numeric_dec (r : KeyRing) : Decision (numeric r).
Proof. unfold numeric. apply _. Defined.

(** ** The quantities the properties speak of *)

(** A walk of [k] edges of the graph from [s] to [t], through nodes of the
    graph. *)
Inductive walk (g : simple.DirectedGraph) (s : Z) : nat → Z → Prop :=
  | walk_nil : walk g s O s
  | walk_snoc k u t e :
      walk g s k u →
      simple.edges g !! (u, t) = Some e →
      is_Some (simple.nodes g !! u) → is_Some (simple.nodes g !! t) →
      walk g s (S k) t.

(** An edge whose two ends are nodes of the graph. *)
Definition links (g : simple.DirectedGraph) (u v : Z) : Prop :=
  is_Some (simple.edges g !! (u, v)) ∧
  is_Some (simple.nodes g !! u) ∧ is_Some (simple.nodes g !! v).

(** The ids a walk from [s] goes through, in order, the last one being
    where it ends. *)
Inductive trail (g : simple.DirectedGraph) (s : Z) : list Z → Z → Prop :=
  | trail_nil : trail g s [s] s
  | trail_snoc w u t : trail g s w u → links g u t → trail g s (w ++ [t]) t.

(** The distance that [phi] divides by: the number of hops, 0 replaced by 1. *)
Definition dist (g : simple.DirectedGraph) (s t : Node) : F64.t :=
  let w := path.WeightTo g s t in
  if F64.eqb w (S754_zero false) then F64.one else w.

(** min(1/d, 2r), the division and the minimum in [float64], the product
    and the result in [float32]. *)
Definition trust (d : F64.t) (rep : F32.t) : F32.t :=
  to_f32 (F64.min (F64.div F64.one d) (to_f64 (F32.mul (F32.of_Z 2) rep))).

(** The tag of the key asserted by the last edge of a path. *)
Definition tag (g : simple.DirectedGraph) (p : list Node) : option string :=
  match lastKey g p with
  | Some (Some key) => Some (keyString key)
  | _ => None
  end.

(** The number of paths whose last edge asserts a key with tag [k]. *)
Definition endorsements (g : simple.DirectedGraph) (paths : list (list Node)) (k : string) : nat :=
  length (filter (λ p, tag g p = Some k) paths).

(** The key asserted by the last edge of a path, the zero key if none. *)
Definition keyOf (g : simple.DirectedGraph) (p : list Node) : PublicKey :=
  match lastKey g p with Some (Some key) => key | _ => zeroKey end.

(** The key of the last path of a list, the zero key for no path. *)
Definition keyOfLast (g : simple.DirectedGraph) (paths : list (list Node)) : PublicKey :=
  match list.last paths with
  | Some p => keyOf g p
  | None => zeroKey
  end.

(** The confidence stored for a name, if it has a record. *)
Definition confidence (r : KeyRing) (n : string) : option F32.t :=
  Confidence <$> keyTable r !! n.

(** The graph has an edge from the node of [s] to the node of [o] that
    carries the key [k]. *)
Definition edge_carries (r : KeyRing) (s o : string) (k : PublicKey) : Prop :=
  ∃ vs vo e, ids r !! s = Some vs ∧ ids r !! o = Some vo ∧
             simple.Edge (graph r) vs vo = Some e ∧ Key e = k.

(** What one may expect of [Add(rec, s, _)]: it returns, and either [s] was
    unknown and nothing changed, or the edge is there and the owner has a
    record. *)
Definition Add_expected (sched : Sched) (rec : KeyRecord) (s : string) (rep : F32.t)
    (r : KeyRing) : Prop :=
  ∃ r', Add sched rec s rep r = Some r' ∧
        ((contains r s = false ∧ r' = r) ∨
         (edge_carries r' s (Owner rec) (KeyPub rec) ∧ is_Some (keyTable r' !! Owner rec))).

(** The write of the loop of [updateConfidence] for one name. *)
Definition tableStep (sched : Sched) (r : KeyRing) (src : Node)
    (tb : gmap string TrustedKeyRecord) (kv : string * Node) : gmap string TrustedKeyRecord :=
  match confidenceOf sched r src kv.2 with
  | Some c => KeyTable.updateConfidence kv.1 c.1 c.2 tb
  | None => tb
  end.

(** ** Scenarios *)

Definition K_R : PublicKey := {| N := Some 3233; E := 65537 |}.
Definition K_B : PublicKey := {| N := Some 3127; E := 65537 |}.
Definition K_C : PublicKey := {| N := Some 2773; E := 65537 |}.
Definition K_C' : PublicKey := {| N := Some 4087; E := 65537 |}.
Definition K_D : PublicKey := {| N := Some 2491; E := 65537 |}.

Definition trusted (n : string) (k : PublicKey) (c : F32.t) : TrustedKeyRecord :=
  {| keyRecord := {| Owner := n; KeyPub := k |}; Confidence := c |}.

Definition f0_9 : F32.t := F32.div (F32.of_Z 9) (F32.of_Z 10).

Definition inOrder : Sched := {| keyOrder := λ l, l; pathOrder := λ l, l |}.
Definition backwards : Sched := {| keyOrder := reverse; pathOrder := reverse |}.

Definition emptyRing : KeyRing :=
  {| source := EmptyString; ids := ∅; graph := simple.NewDirectedGraph; nextNode := 0;
     keyTable := ∅; pending := []; threshold := F32.zero; stopped := false;
     heap := ∅; nextPtr := O |}.

(** S1: root R, one bootstrap record for B with confidence 0.9, threshold 0.5. *)
Definition ringS1 : KeyRing :=
  Eval vm_compute in
    default emptyRing (NewKeyRing "R" K_R [trusted "B" K_B f0_9] F32.half).

(** S2: S1 after [Add({C, K_C}, B, 0.5)]. *)
Definition ringS2 : KeyRing :=
  Eval vm_compute in
    default emptyRing (Add inOrder {| Owner := "C"; KeyPub := K_C |} "B" F32.half ringS1).

(** Pending messages and two stand-ins for the cryptography: one that
    accepts every key and signature, one that cannot read any key. *)
Definition acceptAll : Crypto :=
  {| DeserializeKey := λ _, Some K_C; Verify := λ _ _, true |}.
Definition unreadable : Crypto :=
  {| DeserializeKey := λ _, None; Verify := λ _ _, true |}.

Definition message (origin owner : string) : KeyExchangeMessage.t :=
  {| KeyExchangeMessage.Origin := origin; KeyExchangeMessage.Owner := owner;
     KeyExchangeMessage.KeyBytes := []; KeyExchangeMessage.Signature := [] |}.

(** S3: root R, bootstrap records for B and D, then C attested by B with
    [K_C] and by D with [K_C']: two shortest paths to C, two keys. *)
Definition ringS3 : KeyRing :=
  Eval vm_compute in
    default emptyRing
      (r ← NewKeyRing "R" K_R [trusted "B" K_B F32.one; trusted "D" K_D F32.one] F32.half;
       r ← Add inOrder {| Owner := "C"; KeyPub := K_C |} "B" F32.half r;
       Add inOrder {| Owner := "C"; KeyPub := K_C' |} "D" F32.half r).

Definition nodeOf (r : KeyRing) (n : string) : Node :=
  default {| name := EmptyString; id := -1; probability := O |} (ids r !! n).

Definition pathsS3 : list (list Node) :=
  Eval vm_compute in
    path.shortest (graph ringS3) (nodeOf ringS3 "R") (nodeOf ringS3 "C").

(** A ring whose bootstrap list names the root itself and C: the second
    node called R becomes the source, C keeps its bootstrap record, and the
    attestations of B and D, both signed by R, put C two hops from the
    source along two paths that assert two keys. *)
Definition ringTie : KeyRing :=
  Eval vm_compute in
    default emptyRing
      (r ← NewKeyRing "R" K_R [trusted "R" K_R F32.one; trusted "C" K_C f0_9] F32.half;
       r ← Add inOrder {| Owner := "B"; KeyPub := K_B |} "R" F32.half r;
       r ← Add inOrder {| Owner := "D"; KeyPub := K_D |} "R" F32.half r;
       r ← Add inOrder {| Owner := "C"; KeyPub := K_C |} "B" F32.half r;
       Add inOrder {| Owner := "C"; KeyPub := K_C' |} "D" F32.half r).

(** ** Statements that the code does not meet *)

(** S2 as one may expect it: after [Add({C, K_C}, B, 0.5)] on S1 the graph
    has the edges R->B and B->C, the confidence stored for C is 1.0 and
    [GetKey(C)] is [(K_C, true)]. *)
Definition S2_expected (r : KeyRing) : Prop :=
  edge_carries r "R" "B" K_B ∧ edge_carries r "B" "C" K_C ∧
  confidence r "C" = Some F32.one ∧ GetKey r "C" = (K_C, true).

(** The number of paths that assert the same tag as [p]. *)
Definition tallyOf (g : simple.DirectedGraph) (paths : list (list Node)) (p : list Node) : nat :=
  match tag g p with
  | Some k => endorsements g paths k
  | None => O
  end.

(** The key a tie-break pinned to the traversal would choose: that of the
    first path, in the order of [paths], whose tag no other tag beats. *)
Definition pinnedKey (g : simple.DirectedGraph) (paths : list (list Node)) : PublicKey :=
  match head (filter (λ p, is_Some (tag g p) ∧
                           Forall (λ q, (tallyOf g paths q ≤ tallyOf g paths p)%nat) paths)
                     paths) with
  | Some p => keyOf g p
  | None => zeroKey
  end.


(** Two runs of [updateConfidence] in a row store, for every name, what one
    run stores, whatever the order of the iterations of each run. *)
Definition idempotent_at (r : KeyRing) : Prop :=
  ∀ sched1 sched2 r1 r2, fair sched1 → fair sched2 →
    fair_paths sched1 → fair_paths sched2 →
    updateConfidence sched1 r = Some r1 → updateConfidence sched2 r1 = Some r2 →
    ∀ n, keyTable r2 !! n = keyTable r1 !! n.

(** ** Relations between the state before and after an operation *)

(** The fields no graph operation touches. *)
Definition same_shell (r r' : KeyRing) : Prop :=
  source r' = source r ∧ pending r' = pending r ∧
  threshold r' = threshold r ∧ stopped r' = stopped r.

(** [updateConfidence] writes the key table and nothing else. *)
Definition same_but_table (r r' : KeyRing) : Prop :=
  same_shell r r' ∧ ids r' = ids r ∧ graph r' = graph r ∧
  nextNode r' = nextNode r ∧ heap r' = heap r ∧ nextPtr r' = nextPtr r.

(** What the loop of [updateTrust] keeps. *)
Definition same_nodes (r r' : KeyRing) : Prop :=
  ids r' = ids r ∧ graph r' = graph r ∧ source r' = source r ∧ nextPtr r' = nextPtr r.

(** The entries of an iteration name each node once: equal names, equal
    entries. *)
Definition functional (L : list (string * Node)) : Prop :=
  ∀ kv kv', kv ∈ L → kv' ∈ L → kv.1 = kv'.1 → kv = kv'.

(** What the loop of [NewKeyRing] keeps: the ring is well formed, the next
    id is the number of nodes, and the root is the node of id 0. *)
Definition built (root : Node) (r : KeyRing) : Prop :=
  wf r ∧ nextNode r = Z.of_nat (size (simple.nodes (graph r))) ∧
  id root = 0 ∧ simple.nodes (graph r) !! 0 = Some root.

(** The rings that the operations of the package produce. *)
Inductive reachable (c : Crypto) : KeyRing → Prop :=
  | reach_new owner key trustedRecords thr r :
      NewKeyRing owner key trustedRecords thr = Some r → reachable c r
  | reach_Add sched rec s rep r r' :
      reachable c r → Add sched rec s rep r = Some r' → reachable c r'
  | reach_AddUnverified msg r :
      reachable c r → reachable c (AddUnverified msg r)
  | reach_Stop r :
      reachable c r → reachable c (Stop r)
  | reach_tick sched reptable r r' :
      reachable c r → tick c sched reptable r = Some r' → reachable c r'.

(** What [KeyTable.updateConfidence] makes of the record of one name, given
    the confidence and the key computed for it. *)
Definition recordStep (c : option (F32.t * option PublicKey))
    (o : option TrustedKeyRecord) : option TrustedKeyRecord :=
  match c, o with
  | Some c, Some rec =>
      Some match c.2 with
           | Some k => {| keyRecord := {| Owner := Owner (keyRecord rec); KeyPub := k |};
                          Confidence := c.1 |}
           | None => {| keyRecord := keyRecord rec; Confidence := F32.zero |}
           end
  | _, _ => o
  end.

(** The shortest paths to a node leave no choice: there are fewer than two,
    or one tag is asserted by more paths than any other. *)
Definition untied (g : simple.DirectedGraph) (paths : list (list Node)) : Prop :=
  (length paths < 2)%nat ∨
  ∃ k, ∀ k', k' ≠ k → (endorsements g paths k' < endorsements g paths k)%nat.

(** ** The ring that [NewKeyRing] builds *)

(** The node of the owner and the node of the bootstrap record of index
    [i]: ids and probability cells are handed out in the order of the
    list. *)
Definition rootNode (owner : string) : Node := {| name := owner; id := 0; probability := O |}.

Definition bootNode (i : nat) (rec : TrustedKeyRecord) : Node :=
  {| name := Owner (keyRecord rec); id := Z.of_nat (S i); probability := S i |}.

Definition bootEdge (owner : string) (i : nat) (rec : TrustedKeyRecord) : Edge :=
  {| F := rootNode owner; T := bootNode i rec; Key := KeyPub (keyRecord rec) |}.

(** The names of the bootstrap records, in order. *)
Definition names (recs : list TrustedKeyRecord) : list string :=
  (λ rec, Owner (keyRecord rec)) <$> recs.

(** The graph after the loop of [NewKeyRing] has run over [recs]: a star
    around node 0. *)
Definition star (owner : string) (recs : list TrustedKeyRecord) (r : KeyRing) : Prop :=
  nextNode r = Z.of_nat (S (length recs)) ∧ nextPtr r = S (length recs) ∧
  source r = owner ∧ pending r = [] ∧ stopped r = false ∧
  simple.nodes (graph r) !! 0 = Some (rootNode owner) ∧ heap r !! O = Some F32.one ∧
  size (simple.nodes (graph r)) = S (length recs) ∧
  (∀ i n, simple.nodes (graph r) !! i = Some n → 0 ≤ i ≤ Z.of_nat (length recs)) ∧
  (∀ i rec, recs !! i = Some rec →
     simple.nodes (graph r) !! Z.of_nat (S i) = Some (bootNode i rec) ∧
     simple.edges (graph r) !! (0, Z.of_nat (S i)) = Some (bootEdge owner i rec) ∧
     heap r !! S i = Some F32.one) ∧
  (∀ u v e, simple.edges (graph r) !! (u, v) = Some e →
     u = 0 ∧ 1 ≤ v ≤ Z.of_nat (length recs)).

(** [rec] is the record of index [i], and no later record bears its name. *)
Definition lastNamed (recs : list TrustedKeyRecord) (i : nat) (rec : TrustedKeyRecord) : Prop :=
  recs !! i = Some rec ∧
  ∀ j rec', recs !! j = Some rec' → Owner (keyRecord rec') = Owner (keyRecord rec) → (j ≤ i)%nat.

(** The names and the records after the loop of [NewKeyRing]: a name is
    bound to the node, and to the record, of the last bootstrap record that
    bears it. *)
Definition indexed (owner : string) (key : PublicKey) (recs : list TrustedKeyRecord)
    (r : KeyRing) : Prop :=
  (∀ n, is_Some (ids r !! n) ↔ n = owner ∨ n ∈ names recs) ∧
  (∀ n, is_Some (keyTable r !! n) ↔ n = owner ∨ n ∈ names recs) ∧
  (∀ i rec, lastNamed recs i rec →
     ids r !! Owner (keyRecord rec) = Some (bootNode i rec) ∧
     keyTable r !! Owner (keyRecord rec) = Some rec) ∧
  (owner ∉ names recs →
     ids r !! owner = Some (rootNode owner) ∧
     keyTable r !! owner = Some (trusted owner key F32.one)).

(** ** Probabilities, invariants of the graph and histories *)

Definition with_heap (h : gmap nat F32.t) (r : KeyRing) : KeyRing :=
  {| source := source r; ids := ids r; graph := graph r; nextNode := nextNode r;
     keyTable := keyTable r; pending := pending r; threshold := threshold r;
     stopped := stopped r; heap := h; nextPtr := nextPtr r |}.

(** The probabilities [updateTrust] leaves: the trust of every known name in
    its cell, the other cells as they were. *)
Definition trusts (reptable : ReputationTable) (r : KeyRing) (root : Node)
    (h : gmap nat F32.t) : Prop :=
  (∀ n v, ids r !! n = Some v →
     h !! probability v = Some (trust (dist (graph r) root v) (reputation reptable n))) ∧
  (∀ q, map_Forall (λ _ v, probability v ≠ q) (ids r) → h !! q = heap r !! q).

(** Every edge joins two distinct nodes of the graph, which it holds as its
    ends. *)
Definition edges_ok (g : simple.DirectedGraph) : Prop :=
  map_Forall (λ uv e, uv.1 ≠ uv.2 ∧ simple.nodes g !! uv.1 = Some (F e) ∧
                      simple.nodes g !! uv.2 = Some (T e)) (simple.edges g).

(** A well-formed ring whose counter [nextNode] is the number of its nodes
    and whose edges are in order. *)
Definition sound (r : KeyRing) : Prop :=
  wf r ∧ nextNode r = Z.of_nat (size (simple.nodes (graph r))) ∧ edges_ok (graph r).

(** The source is bound to the node [s], and every node of the graph can be
    reached from it. *)
Definition rooted (s : Node) (r : KeyRing) : Prop :=
  ids r !! source r = Some s ∧
  ∀ i n, simple.nodes (graph r) !! i = Some n → ∃ k, walk (graph r) (id s) k i.

(** The rings that the operations of the package make of the ring [r0]. *)
Inductive grows (c : Crypto) (r0 : KeyRing) : KeyRing → Prop :=
  | grows_refl : grows c r0 r0
  | grows_Add sched rec s rep r r' :
      grows c r0 r → Add sched rec s rep r = Some r' → grows c r0 r'
  | grows_AddUnverified msg r :
      grows c r0 r → grows c r0 (AddUnverified msg r)
  | grows_Stop r :
      grows c r0 r → grows c r0 (Stop r)
  | grows_tick sched reptable r r' :
      grows c r0 r → tick c sched reptable r = Some r' → grows c r0 r'.

(** The ring [r'] is well formed and knows every name of [r], bound to the
    same node. *)
Definition extends (r r' : KeyRing) : Prop :=
  wf r' ∧ ∀ n v, ids r !! n = Some v → ids r' !! n = Some v.

(** ** The tag of a key, byte by byte *)

(** An exponent that is a code point of Unicode: [string(E)] encodes it;
    every other exponent is encoded as U+FFFD. *)
Definition codePoint (e : Z) : bool :=
  (0 <=? e) && (e <=? 1114111) && negb ((55296 <=? e) && (e <=? 57343)).

(** The code point [string(e)] encodes. *)
Definition rune (e : Z) : Z := if codePoint e then e else 65533.

(** The bytes of an encoded rune: one byte, or two to four bytes none of
    which is the hyphen. *)
Definition encoded (l : list ascii) : Prop :=
  (∃ a, l = [a]) ∨
  (∃ a b, l = [a; b] ∧ a ≠ "-"%char ∧ b ≠ "-"%char) ∨
  (∃ a b c, l = [a; b; c] ∧ a ≠ "-"%char ∧ b ≠ "-"%char ∧ c ≠ "-"%char) ∨
  (∃ a b c d, l = [a; b; c; d] ∧ a ≠ "-"%char ∧ b ≠ "-"%char ∧ c ≠ "-"%char ∧ d ≠ "-"%char).

(** ** More scenarios *)

(** Two keys with one modulus and two exponents beyond the code points. *)
Definition K_E1 : PublicKey := {| N := Some 2773; E := 1114113 |}.
Definition K_E2 : PublicKey := {| N := Some 2773; E := 2147483647 |}.

(** S3 with the keys [K_E1] and [K_E2] in the attestations of C. *)
Definition ringOdd : KeyRing :=
  Eval vm_compute in
    default emptyRing
      (r ← NewKeyRing "R" K_R [trusted "B" K_B F32.one; trusted "D" K_D F32.one] F32.half;
       r ← Add inOrder {| Owner := "C"; KeyPub := K_E1 |} "B" F32.half r;
       Add inOrder {| Owner := "C"; KeyPub := K_E2 |} "D" F32.half r).

Definition pathsOdd : list (list Node) :=
  Eval vm_compute in
    path.shortest (graph ringOdd) (nodeOf ringOdd "R") (nodeOf ringOdd "C").

(** S3 with the same key [K_C] in both attestations of C. *)
Definition ringBoth : KeyRing :=
  Eval vm_compute in
    default emptyRing
      (r ← NewKeyRing "R" K_R [trusted "B" K_B F32.one; trusted "D" K_D F32.one] F32.half;
       r ← Add inOrder {| Owner := "C"; KeyPub := K_C |} "B" F32.half r;
       Add inOrder {| Owner := "C"; KeyPub := K_C |} "D" F32.half r).

Definition pathsBoth : list (list Node) :=
  Eval vm_compute in
    path.shortest (graph ringBoth) (nodeOf ringBoth "R") (nodeOf ringBoth "C").

(** A reputation table that knows nobody. *)
Definition noEntry : string → F32.t * bool := λ _, (F32.zero, false).

(** * Properties *)

(** ** Comparison of IEEE numbers *)

Lemma SFcompare_antisym (x y : spec_float) :
  SFcompare y x = CompOpp <$> SFcompare x y.
Proof.
  destruct x as [sx|sx| |sx mx ex], y as [sy|sy| |sy my ey]; simpl;
    try reflexivity; try (destruct sx; reflexivity); try (destruct sy; reflexivity);
    try (destruct sx, sy; reflexivity).
  destruct sx, sy; simpl; try reflexivity; f_equal.
  - rewrite (Z.compare_antisym ex ey).
    destruct (ex ?= ey) eqn:He; simpl; try reflexivity.
    f_equal. symmetry. exact (Pos.compare_cont_antisym mx my Eq).
  - rewrite (Z.compare_antisym ex ey).
    destruct (ex ?= ey) eqn:He; simpl; try reflexivity.
    symmetry. exact (Pos.compare_cont_antisym mx my Eq).
Qed.

Lemma SFcompare_nan (x y : spec_float) :
  F32.is_nan x = false → F32.is_nan y = false → is_Some (SFcompare x y).
Proof.
  destruct x, y; simpl; intros; try discriminate; eauto.
Qed.

(** Away from NaN, [x < y] fails exactly when [x >= y] holds. *)
Lemma ltb_false_geb (x y : F32.t) :
  F32.is_nan x = false → F32.is_nan y = false →
  F32.ltb x y = false ↔ F32.geb x y = true.
Proof.
  intros Hx Hy. unfold F32.ltb, F32.geb, SFltb, SFleb.
  rewrite (SFcompare_antisym x y).
  destruct (SFcompare_nan x y Hx Hy) as [c ->].
  destruct c; simpl; split; congruence.
Qed.

(** ** Lookups *)

(** C1: [GetKey(name)] reports present if and only if the key table holds a
    record for [name] whose confidence is at least the threshold of the
    ring, and a key reported present is the key that record stores. The
    confidences and the threshold are numbers (not NaN), as the data model
    has them. *)
Theorem GetKey_present (r : KeyRing) (n : string) :
  numeric r →
  ((GetKey r n).2 = true ↔
     ∃ rec, keyTable r !! n = Some rec ∧ F32.geb (Confidence rec) (threshold r) = true) ∧
  (∀ rec, keyTable r !! n = Some rec → (GetKey r n).2 = true →
     (GetKey r n).1 = KeyPub (keyRecord rec)).
Proof.
  intros [Ht Hc]. unfold GetKey, KeyTable.get.
  destruct (keyTable r !! n) as [rec|] eqn:Hn; simpl.
  - pose proof (Hc _ _ Hn) as Hrec. simpl in Hrec.
    pose proof (ltb_false_geb (Confidence rec) (threshold r) Hrec Ht) as Hcmp.
    destruct (F32.ltb (Confidence rec) (threshold r)) eqn:Hlt; simpl.
    + split.
      * split; [discriminate|]. intros (rec' & Heq & Hge).
        injection Heq as <-. apply Hcmp in Hge. discriminate.
      * intros rec' _ ?. discriminate.
    + split.
      * split; [|reflexivity]. intros _. exists rec. split; [reflexivity|].
        now apply Hcmp.
      * intros rec' Heq _. now injection Heq as <-.
  - split.
    + split; [discriminate|]. intros (rec & Heq & _). discriminate.
    + intros rec Heq. discriminate.
Qed.

Lemma GetKey_present_witness :
  numeric ringS1 ∧
  ((GetKey ringS1 "B").2 = true ↔
     ∃ rec, keyTable ringS1 !! "B" = Some rec ∧
            F32.geb (Confidence rec) (threshold ringS1) = true) ∧
  (∀ rec, keyTable ringS1 !! "B" = Some rec → (GetKey ringS1 "B").2 = true →
     (GetKey ringS1 "B").1 = KeyPub (keyRecord rec)).
Proof.
  assert (H : numeric ringS1) by (apply (bool_decide_unpack _); vm_compute; exact I).
  split; [exact H|]. exact (GetKey_present ringS1 "B" H).
Defined.

(** ** Loops that may abort *)

Lemma foldlM_app {A B : Type} (f : B → A → option B) (l k : list A) (b : B) :
  foldlM f b (l ++ k) = foldlM f b l ≫= λ b', foldlM f b' k.
Proof.
  revert b. induction l as [|x l IH]; intros b; simpl; [reflexivity|].
  destruct (f b x) as [b'|]; simpl; [apply IH|reflexivity].
Qed.

Lemma foldlM_invariant {A B : Type} (f : B → A → option B) (P : B → Prop) (l : list A) :
  (∀ b x b', x ∈ l → P b → f b x = Some b' → P b') →
  ∀ b b', P b → foldlM f b l = Some b' → P b'.
Proof.
  induction l as [|x l IH]; intros Hstep b b' Hb; simpl.
  - intros [= <-]. exact Hb.
  - destruct (f b x) as [b1|] eqn:Hf; simpl; [|discriminate].
    apply IH.
    + intros b2 y b3 Hy. apply Hstep. now right.
    + eapply Hstep; [left|exact Hb|exact Hf].
Qed.

Lemma foldlM_total {A B : Type} (f : B → A → option B) (P : B → Prop) (l : list A) :
  (∀ b x, x ∈ l → P b → ∃ b', f b x = Some b' ∧ P b') →
  ∀ b, P b → ∃ b', foldlM f b l = Some b' ∧ P b'.
Proof.
  induction l as [|x l IH]; intros Hstep b Hb; simpl.
  - eauto.
  - destruct (Hstep b x) as (b1 & -> & Hb1); [left|exact Hb|]. simpl.
    apply IH; [|exact Hb1]. intros b2 y Hy. apply Hstep. now right.
Qed.

Lemma foldlM_commute {A B : Type} (f : B → A → option B) (h : B → B) :
  (∀ b x, f (h b) x = h <$> f b x) →
  ∀ l b, foldlM f (h b) l = h <$> foldlM f b l.
Proof.
  intros Hf l. induction l as [|x l IH]; intros b; simpl; [reflexivity|].
  rewrite Hf. destruct (f b x) as [b'|]; simpl; [apply IH|reflexivity].
Qed.

(** ** What each operation leaves alone *)

Lemma same_shell_refl (r : KeyRing) : same_shell r r.
Proof. now repeat split. Qed.

Lemma same_shell_trans (r1 r2 r3 : KeyRing) :
  same_shell r1 r2 → same_shell r2 r3 → same_shell r1 r3.
Proof.
  unfold same_shell. intros (?&?&?&?) (?&?&?&?). repeat split; congruence.
Qed.

Lemma addNode_shell n p r r' :
  addNode n p r = Some r' → same_shell r r' ∧ keyTable r' = keyTable r.
Proof.
  unfold addNode. destruct (ids r !! n) as [vp|].
  - intros [= <-]. now repeat split.
  - destruct (simple.AddNode _ _); simpl; [|discriminate].
    intros [= <-]. now repeat split.
Qed.

Lemma addEdge_shell a b key r re :
  addEdge a b key r = Some re →
  same_shell r re.1 ∧ keyTable re.1 = keyTable r ∧ ids re.1 = ids r ∧
  heap re.1 = heap r ∧ nextPtr re.1 = nextPtr r.
Proof.
  unfold addEdge. destruct (ids r !! a) as [vA|]; [|intros [= <-]; now repeat split].
  destruct (ids r !! b) as [vB|]; [|intros [= <-]; now repeat split].
  destruct (decide (a = b)); [intros [= <-]; now repeat split|].
  destruct (simple.SetEdge _ _); simpl; [|discriminate].
  intros [= <-]. now repeat split.
Qed.

Lemma updateConfidence_frame sched r r' :
  updateConfidence sched r = Some r' → same_but_table r r'.
Proof.
  unfold updateConfidence.
  destruct (ids r !! source r) as [s|]; simpl; [|discriminate].
  destruct (simple.Node (graph r) (id s)) as [src|]; simpl; [|discriminate].
  apply (foldlM_invariant _ (same_but_table r)).
  - intros b x b' _ Hb. unfold confidenceStep.
    destruct (confidenceOf sched b src x.2) as [c|]; simpl; [|discriminate].
    intros [= <-]. exact Hb.
  - repeat split.
Qed.

Lemma Add_shell sched rec s rep r r' :
  Add sched rec s rep r = Some r' → same_shell r r'.
Proof.
  unfold Add. destruct (negb (contains r s)); [intros [= <-]; apply same_shell_refl|].
  destruct (decide (Owner rec = s)); [intros [= <-]; apply same_shell_refl|].
  destruct (addNode (Owner rec) F32.zero r) as [r1|] eqn:H1; simpl; [|discriminate].
  destruct (addEdge s (Owner rec) (KeyPub rec) r1) as [re|] eqn:H2; simpl; [|discriminate].
  destruct (re.2); [discriminate|].
  destruct (phi (Owner rec) rep re.1) as [p|]; simpl; [|discriminate].
  destruct (addNode (Owner rec) p re.1) as [r3|] eqn:H3; simpl; [|discriminate].
  intros H4.
  apply addNode_shell in H1 as [H1 _]. apply addEdge_shell in H2 as [H2 _].
  apply addNode_shell in H3 as [H3 _]. apply updateConfidence_frame in H4 as [H4 _].
  eauto using same_shell_trans.
Qed.

Lemma updateMessage_shell c sched msg conf r res :
  updateMessage c sched msg conf r = Some res → same_shell r res.1.
Proof.
  unfold updateMessage.
  destruct (DeserializeKey c _); [|intros [= <-]; apply same_shell_refl].
  destruct (GetKey r _) as [kpub present].
  destruct (negb present); [intros [= <-]; apply same_shell_refl|].
  destruct (Verify c msg kpub); [|intros [= <-]; apply same_shell_refl].
  destruct (Add _ _ _ _ _) as [r'|] eqn:HA; simpl; [|discriminate].
  intros [= <-]. simpl. eauto using Add_shell.
Qed.

Lemma replayPending_shell c sched reptable r st :
  replayPending c sched reptable r = Some st → same_shell r st.1.
Proof.
  unfold replayPending.
  apply (foldlM_invariant _ (λ st, same_shell r st.1)); [|apply same_shell_refl].
  intros b x b' _ Hb. unfold replayStep.
  destruct (updateMessage _ _ _ _ _) as [res|] eqn:Hu; simpl; [|discriminate].
  intros [= <-]. simpl. apply updateMessage_shell in Hu.
  eauto using same_shell_trans.
Qed.

(** ** The pending queue *)

(** The removal loop stops after its first round: the element it has just
    removed has no successor. Any positive fuel is enough. *)
Lemma removeLoop_tail {A : Type} (fuel : nat) (l : list A) :
  removeLoop (S fuel) l (clist.Front l) = tail l.
Proof.
  destruct l as [|x l]; simpl; [reflexivity|]. now destruct fuel.
Qed.

(** Whatever the replay decided, [updatePending] unlinks the first element
    of the queue and no other. *)
Lemma updatePending_pending c sched reptable r r' :
  updatePending c sched reptable r = Some r' → pending r' = tail (pending r).
Proof.
  unfold updatePending.
  destruct (replayPending c sched reptable r) as [st|] eqn:Hst; simpl; [|discriminate].
  intros [= <-].
  change (removeLoop (S (length (pending st.1))) (pending st.1)
            (clist.Front (pending st.1)) = tail (pending r)).
  rewrite removeLoop_tail.
  apply replayPending_shell in Hst as (_ & -> & _). reflexivity.
Qed.

(** C4: a call of [updatePending] does not keep exactly the messages that
    were not marked. On S1 with one pending message signed by the unknown X,
    the replay marks nothing, yet the queue is empty afterwards; with two
    pending messages whose keys cannot be read, the replay marks both, yet
    the second one is still pending. *)
Theorem updatePending_ignores_marks :
  let r1 := AddUnverified (message "X" "Y") ringS1 in
  let r2 := AddUnverified (message "B" "D") (AddUnverified (message "B" "C") ringS1) in
  replayPending acceptAll inOrder None r1 = Some (r1, []) ∧
  pending <$> updatePending acceptAll inOrder None r1 = Some [] ∧
  replayPending unreadable inOrder None r2 = Some (r2, [0; 1]%nat) ∧
  pending <$> updatePending unreadable inOrder None r2 = Some [message "B" "D"].
Proof. vm_compute. repeat split. Qed.

(** C9: a pending message whose key bytes cannot be deserialised makes
    [updateMessage] return true at once: the ring is returned as it was,
    whatever [Verify] would have answered and whoever signed, and the replay
    of [updatePending] marks the message for removal. *)
Theorem updateMessage_bad_key c sched msg conf r :
  DeserializeKey c (KeyExchangeMessage.KeyBytes msg) = None →
  updateMessage c sched msg conf r = Some (r, true) ∧
  ∀ reptable marks i,
    replayStep c sched reptable (r, marks) (i, msg) = Some (r, marks ++ [i]).
Proof.
  intros H. unfold replayStep, updateMessage. simpl. rewrite H. now split.
Qed.

Lemma updateMessage_bad_key_witness :
  DeserializeKey unreadable (KeyExchangeMessage.KeyBytes (message "B" "C")) = None ∧
  updateMessage unreadable inOrder (message "B" "C") F32.one ringS1 = Some (ringS1, true) ∧
  ∀ reptable marks i,
    replayStep unreadable inOrder reptable (ringS1, marks) (i, message "B" "C")
    = Some (ringS1, marks ++ [i]).
Proof.
  split; [reflexivity|].
  apply (updateMessage_bad_key unreadable inOrder (message "B" "C") F32.one ringS1).
  reflexivity.
Defined.

(** ** Stopping *)

Lemma addNode_stopped b n p r :
  addNode n p (with_stopped b r) = with_stopped b <$> addNode n p r.
Proof.
  unfold addNode. simpl. destruct (ids r !! n); [reflexivity|].
  change (graph (with_stopped b r)) with (graph r).
  now destruct (simple.AddNode _ (graph r)).
Qed.

Lemma addEdge_stopped b x y key r :
  addEdge x y key (with_stopped b r)
  = (λ re, (with_stopped b re.1, re.2)) <$> addEdge x y key r.
Proof.
  unfold addEdge. simpl. destruct (ids r !! x); [|reflexivity].
  destruct (ids r !! y); [|reflexivity].
  destruct (decide (x = y)); [reflexivity|].
  now destruct (simple.SetEdge _ (graph r)).
Qed.

Lemma updateConfidence_stopped b sched r :
  updateConfidence sched (with_stopped b r) = with_stopped b <$> updateConfidence sched r.
Proof.
  unfold updateConfidence. simpl.
  destruct (ids r !! source r) as [s|]; simpl; [|reflexivity].
  destruct (simple.Node (graph r) (id s)) as [src|]; simpl; [|reflexivity].
  apply foldlM_commute. intros r' kv. unfold confidenceStep.
  change (confidenceOf sched (with_stopped b r') src kv.2)
    with (confidenceOf sched r' src kv.2).
  now destruct (confidenceOf sched r' src kv.2).
Qed.

Lemma Add_stopped b sched rec s rep r :
  Add sched rec s rep (with_stopped b r) = with_stopped b <$> Add sched rec s rep r.
Proof.
  unfold Add. change (contains (with_stopped b r) s) with (contains r s).
  destruct (negb (contains r s)); [reflexivity|].
  destruct (decide (Owner rec = s)); [reflexivity|].
  rewrite addNode_stopped.
  destruct (addNode (Owner rec) F32.zero r) as [r1|]; simpl; [|reflexivity].
  rewrite addEdge_stopped.
  destruct (addEdge s (Owner rec) (KeyPub rec) r1) as [[r2 err]|]; simpl; [|reflexivity].
  destruct err; [reflexivity|].
  change (phi (Owner rec) rep (with_stopped b r2)) with (phi (Owner rec) rep r2).
  destruct (phi (Owner rec) rep r2) as [p|]; simpl; [|reflexivity].
  rewrite addNode_stopped.
  destruct (addNode (Owner rec) p r2) as [r3|]; simpl; [|reflexivity].
  apply updateConfidence_stopped.
Qed.

(** ** The graph of a well-formed ring *)

Lemma max_index (k : nat) (a : Z) :
  foldl (λ maxId n, if maxId <? n then n else maxId) a (Z.of_nat <$> seq 0 k)
  = if decide (k = O) then a else Z.max a (Z.of_nat k - 1).
Proof.
  induction k as [|k IH]; [reflexivity|].
  rewrite seq_S, fmap_app, foldl_app, IH. cbn [fmap list_fmap foldl plus].
  destruct (decide (S k = O)) as [|_]; [discriminate|].
  destruct (decide (k = O)) as [->|Hk].
  - destruct (Z.ltb_spec a (Z.of_nat 0)); lia.
  - destruct (Z.ltb_spec (Z.max a (Z.of_nat k - 1)) (Z.of_nat k)); lia.
Qed.

Lemma lastNode_size (r : KeyRing) :
  size (simple.nodes (graph r)) ≠ O →
  lastNode r + 1 = Z.of_nat (size (simple.nodes (graph r))).
Proof.
  intros Hsz. unfold lastNode, simple.Nodes.
  rewrite max_index, length_fmap, length_map_to_list.
  destruct (decide _); lia.
Qed.

Lemma wf_nonempty (r : KeyRing) : wf r → size (simple.nodes (graph r)) ≠ O.
Proof.
  intros (W1 & _ & [s Hs] & _) Hsz.
  apply map_size_empty_iff in Hsz.
  destruct (W1 _ _ Hs) as [_ Hn]. rewrite Hsz in Hn. now rewrite lookup_empty in Hn.
Qed.

Lemma wf_known_node r n v :
  wf r → ids r !! n = Some v → simple.Node (graph r) (id v) = Some v.
Proof. intros (W1 & _) Hv. exact (proj2 (W1 _ _ Hv)). Qed.

Lemma wf_ids_inj r a b va vb :
  wf r → ids r !! a = Some va → ids r !! b = Some vb → id va = id vb → a = b.
Proof.
  intros (W1 & _) Ha Hb Hid.
  destruct (W1 _ _ Ha) as [<- Hna], (W1 _ _ Hb) as [<- Hnb].
  rewrite Hid in Hna. congruence.
Qed.

(** Well-formedness does not look at the key table, the queue, the
    threshold, the flag, the edges or the contents of the cells. *)
Lemma wf_ext (r r' : KeyRing) :
  ids r' = ids r → simple.nodes (graph r') = simple.nodes (graph r) →
  source r' = source r → nextPtr r' = nextPtr r → wf r → wf r'.
Proof. unfold wf. intros -> -> -> ->. tauto. Qed.

Lemma addNode_wf n p r :
  wf r → ∃ r', addNode n p r = Some r' ∧ wf r' ∧ is_Some (ids r' !! n) ∧
               (∀ m v, ids r !! m = Some v → ids r' !! m = Some v) ∧
               simple.edges (graph r') = simple.edges (graph r).
Proof.
  intros Hwf. unfold addNode. destruct (ids r !! n) as [vp|] eqn:Hn.
  - eexists. split; [reflexivity|].
    split; [now apply (wf_ext r)|]. split; [simpl; eauto|]. split; [auto|reflexivity].
  - pose proof (lastNode_size r (wf_nonempty r Hwf)) as Hlast.
    destruct Hwf as (W1 & W2 & W4 & W6 & W7).
    assert (Hfresh : simple.nodes (graph r) !! (lastNode r + 1) = None).
    { destruct (simple.nodes (graph r) !! (lastNode r + 1)) as [v|] eqn:Hv; [|reflexivity].
      apply W2 in Hv. simpl in Hv. lia. }
    unfold simple.AddNode, simple.Has. simpl. rewrite Hfresh.
    rewrite bool_decide_eq_false_2 by (intros [? ?]; discriminate). simpl.
    eexists. split; [reflexivity|]. split; [|split; [|split]]; simpl.
    + unfold wf; simpl. split; [|split; [|split; [|split]]].
      * apply map_Forall_insert_2; [split; [reflexivity|apply lookup_insert_eq]|].
        intros m v Hm. destruct (W1 _ _ Hm) as [Hname Hnode]. split; [exact Hname|].
        rewrite lookup_insert_ne; [exact Hnode|].
        intros Heq. apply W2 in Hnode. simpl in Hnode. lia.
      * rewrite map_size_insert_None by exact Hfresh.
        apply map_Forall_insert_2; [simpl; lia|].
        intros i v Hi. apply W2 in Hi. simpl in *. lia.
      * destruct W4 as [s Hs]. exists s. rewrite lookup_insert_ne; [exact Hs|congruence].
      * apply map_Forall_insert_2.
        -- apply map_Forall_insert_2; [done|].
           intros b vb Hb Hp. apply W7 in Hb. simpl in *. lia.
        -- intros a va Ha. apply map_Forall_insert_2.
           ++ intros Hp. apply W7 in Ha. simpl in *. lia.
           ++ exact (W6 _ _ Ha).
      * apply map_Forall_insert_2; [simpl; lia|].
        intros m v Hm. apply W7 in Hm. simpl in *. lia.
    + rewrite lookup_insert_eq. eauto.
    + intros m v Hm. rewrite lookup_insert_ne; [exact Hm|congruence].
    + reflexivity.
Qed.

Lemma addEdge_wf a b key r va vb :
  wf r → ids r !! a = Some va → ids r !! b = Some vb → a ≠ b →
  ∃ g, addEdge a b key r = Some (with_graph g r, None) ∧
       simple.nodes g = simple.nodes (graph r) ∧
       simple.edges g
       = <[(id va, id vb) := {| F := va; T := vb; Key := key |}]> (simple.edges (graph r)).
Proof.
  intros Hwf Ha Hb Hab. unfold addEdge. rewrite Ha, Hb.
  destruct (decide (a = b)); [contradiction|].
  unfold simple.SetEdge. simpl.
  destruct (decide (id va = id vb)) as [Hid|_].
  { exfalso. apply Hab. eauto using wf_ids_inj. }
  simpl. eexists. split; [reflexivity|]. split; [|reflexivity]. simpl.
  unfold simple.ensureNode.
  pose proof (wf_known_node r a va Hwf Ha) as Hna.
  pose proof (wf_known_node r b vb Hwf Hb) as Hnb.
  unfold simple.Node in Hna, Hnb. now rewrite Hna, Hnb.
Qed.

Lemma phi_known n rep r v :
  wf r → ids r !! n = Some v →
  ∃ s, ids r !! source r = Some s ∧
       phi n rep r
       = Some (to_f32 (F64.min (F64.div F64.one (dist (graph r) s v)) (to_f64 rep))).
Proof.
  intros Hwf Hv. pose proof Hwf as (_ & _ & [s Hs] & _).
  exists s. split; [exact Hs|]. unfold phi. rewrite Hv, Hs.
  rewrite (wf_known_node r n v Hwf Hv). simpl.
  rewrite (wf_known_node r _ s Hwf Hs). reflexivity.
Qed.

Lemma phi_unknown n rep r : ids r !! n = None → phi n rep r = Some F32.zero.
Proof. intros Hn. unfold phi. now rewrite Hn. Qed.

(** ** Shortest paths *)

Lemma preds_spec g u t :
  u ∈ path.preds g t ↔
  is_Some (simple.edges g !! (u, t)) ∧
  is_Some (simple.nodes g !! u) ∧ is_Some (simple.nodes g !! t).
Proof.
  unfold path.preds. rewrite list_elem_of_omap. split.
  - intros ([[u' v'] e] & Hin & Hf).
    apply elem_of_map_to_list in Hin.
    case_bool_decide as Hc; [|discriminate]. injection Hf as <-.
    destruct Hc as (-> & Hu & Hv). eauto.
  - intros ([e He] & Hu & Hv). exists (u, t, e). split.
    + now apply elem_of_map_to_list.
    + now rewrite bool_decide_eq_true_2.
Qed.

Lemma walks_last g s k t w : w ∈ path.walks g s k t → ∃ w', w = w' ++ [t].
Proof.
  destruct k as [|k]; simpl.
  - destruct (decide (s = t)) as [->|]; [|intros H; inversion H].
    intros ->%list_elem_of_singleton. now exists [].
  - intros (u & Hw & _)%list_elem_of_bind.
    apply list_elem_of_fmap in Hw as (w' & -> & _). eauto.
Qed.

(** [walks] lists walks, and every walk shows in it. *)
Lemma walks_sound g s k t w : w ∈ path.walks g s k t → walk g s k t.
Proof.
  revert t w. induction k as [|k IH]; intros t w; simpl.
  - destruct (decide (s = t)) as [->|]; [constructor|intros H; inversion H].
  - intros (u & Hw & Hu)%list_elem_of_bind.
    apply list_elem_of_fmap in Hw as (w' & _ & Hw').
    apply preds_spec in Hu as ([e He] & Hnu & Hnt).
    econstructor; eauto.
Qed.

Lemma walks_complete g s k t : walk g s k t → path.walks g s k t ≠ [].
Proof.
  induction 1 as [|k u t e Hw IH He Hu Ht]; simpl.
  - destruct (decide (s = s)); [discriminate|contradiction].
  - destruct (path.walks g s k u) as [|w ws] eqn:Hws; [contradiction|].
    assert (Hin : w ++ [t] ∈ path.preds g t ≫= (λ u, (λ p, p ++ [t]) <$> path.walks g s k u)).
    { apply list_elem_of_bind. exists u. split.
      - rewrite Hws. apply list_elem_of_fmap. exists w. split; [reflexivity|left].
      - apply preds_spec. eauto. }
    intros Hnil. rewrite Hnil in Hin. inversion Hin.
Qed.

(** [hops] is the length of a shortest walk. *)
Lemma hops_shortest g s t k :
  path.hops g s t = Some k →
  walk g s k t ∧ ∀ j, (j < k)%nat → ¬ walk g s j t.
Proof.
  unfold path.hops. destruct (list_find _ _) as [[i k']|] eqn:Hf; simpl; [|discriminate].
  intros [= ->]. apply list_find_Some in Hf as (Hi & Hk & Hmin).
  apply lookup_seq in Hi as [-> Hlt]. simpl in *. split.
  - destruct (path.walks g s i t) as [|w ws] eqn:Hw; [contradiction|].
    apply (walks_sound g s i t w). rewrite Hw. left.
  - intros j Hj Hwalk. apply (Hmin j j); [|lia|now apply walks_complete].
    apply lookup_seq. split; [reflexivity|lia].
Qed.

Lemma hops_none g s t k :
  path.hops g s t = None → (k < size (simple.nodes g))%nat → ¬ walk g s k t.
Proof.
  unfold path.hops. destruct (list_find _ _) as [[i k']|] eqn:Hf; simpl; [discriminate|].
  intros _ Hk Hwalk. apply list_find_None in Hf.
  rewrite list.Forall_forall in Hf. apply (Hf k).
  - apply elem_of_seq. lia.
  - now apply walks_complete.
Qed.

Lemma ends_snoc2 (p : list Node) (s t : Node) : ends (p ++ [s; t]) = Some (s, t).
Proof.
  unfold ends. now rewrite reverse_app.
Qed.

(** The last two nodes of a shortest path are joined by an edge. *)
Lemma shortest_lastKey g u v p :
  map_Forall (λ i n, id n = i ∧ 0 ≤ i < Z.of_nat (size (simple.nodes g))) (simple.nodes g) →
  p ∈ path.shortest g u v → is_Some (lastKey g p).
Proof.
  intros W2. unfold path.shortest.
  destruct (path.hops g (id u) (id v)) as [k|]; [|intros H; inversion H].
  intros (w & Hw & Hres)%list_elem_of_omap.
  unfold path.resolve in Hres. apply mapM_Some in Hres.
  destruct k as [|k]; simpl in Hw.
  - destruct (decide (id u = id v)); [|inversion Hw].
    apply list_elem_of_singleton in Hw as ->.
    apply Forall2_cons_inv_l in Hres as (n & p' & _ & Hnil & ->).
    apply Forall2_nil_inv_l in Hnil as ->. unfold lastKey. simpl. eauto.
  - apply list_elem_of_bind in Hw as (a & Hw & Ha).
    apply list_elem_of_fmap in Hw as (w' & -> & Hw').
    apply walks_last in Hw' as [w'' ->].
    rewrite <- app_assoc in Hres. simpl in Hres.
    apply Forall2_app_inv_l in Hres as (p'' & q & _ & Hq & ->).
    apply Forall2_cons_inv_l in Hq as (na & q' & Hna & Hq & ->).
    apply Forall2_cons_inv_l in Hq as (nv & q'' & Hnv & Hq & ->).
    apply Forall2_nil_inv_l in Hq as ->.
    unfold lastKey. rewrite ends_snoc2. unfold simple.Edge.
    apply W2 in Hna as [-> _]. apply W2 in Hnv as [-> _].
    apply preds_spec in Ha as ([e ->] & _). simpl. eauto.
Qed.

(** However they are listed, the paths are those of the list. *)
Lemma elem_of_arrange order l p : p ∈ path.arrange order l → p ∈ l.
Proof. unfold path.arrange. now intros [H _]%list_elem_of_filter. Qed.

Lemma arrange_nil order : path.arrange order [] = [].
Proof.
  unfold path.arrange. induction (order []) as [|p l IH]; [reflexivity|].
  rewrite filter_cons_False by apply not_elem_of_nil. exact IH.
Qed.

Lemma arrange_fair order l : order l ≡ₚ l → path.arrange order l ≡ₚ l.
Proof.
  intros H. unfold path.arrange. rewrite <- H at 2.
  assert (Hall : Forall (λ p, p ∈ l) (order l)).
  { apply list.Forall_forall. intros p Hp. now rewrite <- H. }
  clear H. induction Hall as [|p k Hp _ IH]; [reflexivity|].
  rewrite filter_cons_True by exact Hp. now rewrite IH.
Qed.

(** Fewer than two paths can be listed in one order only. *)
Lemma arrange_short order l :
  order l ≡ₚ l → (length l < 2)%nat → path.arrange order l = l.
Proof.
  intros H Hlen. apply arrange_fair in H.
  destruct l as [|p [|q l]]; [| |simpl in Hlen; lia].
  - now apply Permutation_nil_r in H.
  - now apply Permutation_singleton_r in H.
Qed.

(** The last two nodes of a path returned by [AllBetween] are joined by an
    edge: [selectBestPaths] never meets a missing edge. *)
Lemma AllBetween_lastKey order g u v p :
  map_Forall (λ i n, id n = i ∧ 0 ≤ i < Z.of_nat (size (simple.nodes g))) (simple.nodes g) →
  p ∈ path.AllBetween order g u v → is_Some (lastKey g p).
Proof.
  intros W2 Hp. apply elem_of_arrange in Hp. eauto using shortest_lastKey.
Qed.

Lemma foldlM_cons {A B : Type} (f : B → A → option B) (x : A) (l : list A) (b : B) :
  foldlM f b (x :: l) = f b x ≫= λ b', foldlM f b' l.
Proof. reflexivity. Qed.

(** ** Iteration over a map *)

Lemma rangeMap_lookup {V : Type} (sched : Sched) (m : gmap string V) k v :
  (k, v) ∈ rangeMap sched m → m !! k = Some v.
Proof.
  unfold rangeMap. intros (k' & _ & Hk)%list_elem_of_omap.
  destruct (m !! k') as [v'|] eqn:Hm; simpl in Hk; [|discriminate].
  now injection Hk as <- <-.
Qed.

Lemma rangeMap_fair {V : Type} (sched : Sched) (m : gmap string V) k v :
  fair sched → (k, v) ∈ rangeMap sched m ↔ m !! k = Some v.
Proof.
  intros Hfair. split; [apply rangeMap_lookup|].
  intros Hm. unfold rangeMap. apply list_elem_of_omap. exists k. split.
  - rewrite (Hfair _). apply list_elem_of_fmap. exists (k, v). split; [reflexivity|].
    now apply elem_of_map_to_list.
  - now rewrite Hm.
Qed.

(** ** The tally and its greatest count *)

Lemma tag_Some g p k :
  tag g p = Some k ↔ ∃ key, lastKey g p = Some (Some key) ∧ keyString key = k.
Proof.
  unfold tag. destruct (lastKey g p) as [[key|]|]; split;
    try (intros [= <-]; eauto); try (intros (key' & [= <-] & <-)); try discriminate; eauto;
    try (intros (? & ? & _); discriminate).
Qed.

Lemma endorsements_cons g p paths k :
  endorsements g (p :: paths) k
  = ((if decide (tag g p = Some k) then 1 else 0) + endorsements g paths k)%nat.
Proof.
  unfold endorsements. rewrite filter_cons. now destruct (decide (tag g p = Some k)).
Qed.

Lemma tallyStep_eq g occ p ko :
  lastKey g p = Some ko →
  tallyStep g occ p
  = Some match ko with
         | Some key => <[keyString key := (default O (occ !! keyString key) + 1)%nat]> occ
         | None => occ
         end.
Proof. intros Hp. unfold tallyStep. now rewrite Hp. Qed.

Lemma tally_fold g paths occ0 :
  Forall (λ p, is_Some (lastKey g p)) paths →
  ∃ occ, foldlM (tallyStep g) occ0 paths = Some occ ∧
         ∀ k, default O (occ !! k) = (default O (occ0 !! k) + endorsements g paths k)%nat.
Proof.
  intros Hall. revert occ0. induction Hall as [|p paths [ko Hp] _ IH]; intros occ0.
  - exists occ0. split; [reflexivity|]. intros k. unfold endorsements. simpl. lia.
  - rewrite foldlM_cons, (tallyStep_eq g occ0 p ko Hp). simpl.
    destruct (IH (match ko with
                  | Some key =>
                      <[keyString key := (default O (occ0 !! keyString key) + 1)%nat]> occ0
                  | None => occ0
                  end)) as (occ & -> & Hocc).
    exists occ. split; [reflexivity|]. intros k. rewrite Hocc, endorsements_cons.
    unfold tag. rewrite Hp. destruct ko as [key|].
    + destruct (decide (Some (keyString key) = Some k)) as [[= <-]|Hne].
      * rewrite lookup_insert_eq. simpl. lia.
      * rewrite lookup_insert_ne by congruence. lia.
    + destruct (decide (None = Some k)); [discriminate|lia].
Qed.

Lemma tally_endorsements g paths :
  Forall (λ p, is_Some (lastKey g p)) paths →
  ∃ occ, tally g paths = Some occ ∧ ∀ k, default O (occ !! k) = endorsements g paths k.
Proof.
  intros Hall. destruct (tally_fold g paths ∅ Hall) as (occ & Ht & Hocc).
  exists occ. split; [exact Ht|]. intros k. rewrite Hocc, lookup_empty. reflexivity.
Qed.

Lemma foldl_maxStep (L : list (string * nat)) (acc : nat * string) :
  (acc.1 ≤ (foldl maxStep acc L).1)%nat ∧
  (∀ kv, kv ∈ L → (kv.2 ≤ (foldl maxStep acc L).1)%nat) ∧
  (foldl maxStep acc L = acc ∨ ((foldl maxStep acc L).2, (foldl maxStep acc L).1) ∈ L).
Proof.
  revert acc. induction L as [|kv L IH]; intros acc; simpl.
  - split; [lia|]. split; [intros kv H; inversion H|now left].
  - destruct (IH (maxStep acc kv)) as (H1 & H2 & H3).
    assert (Hstep : (acc.1 ≤ (maxStep acc kv).1 ∧ kv.2 ≤ (maxStep acc kv).1)%nat ∧
                    (maxStep acc kv = acc ∨ maxStep acc kv = (kv.2, kv.1))).
    { unfold maxStep. destruct (Nat.ltb_spec acc.1 kv.2); simpl; split; auto; lia. }
    destruct Hstep as [[Ha Hk] Hcase]. split; [lia|]. split.
    + intros kv' [->|Hin]%elem_of_cons; [lia|auto].
    + destruct H3 as [H3|H3]; [|right; now right].
      destruct Hcase as [Hc|Hc]; rewrite H3, Hc; [now left|].
      right. simpl. destruct kv. left.
Qed.

(** Under a fair scheduler no tag counts more than the one [findMax]
    picks. *)
Lemma findMax_greatest sched (occ : gmap string nat) k :
  fair sched →
  (default O (occ !! k) ≤ default O (occ !! (findMax sched occ).2))%nat.
Proof.
  intros Hfair. unfold findMax.
  destruct (foldl_maxStep (rangeMap sched occ) (O, EmptyString)) as (_ & Hle & Hcase).
  set (res := foldl maxStep (O, EmptyString) (rangeMap sched occ)) in *.
  assert (Hall : ∀ k', (default O (occ !! k') ≤ res.1)%nat).
  { intros k'. destruct (occ !! k') as [n|] eqn:Hk'; simpl; [|lia].
    apply (Hle (k', n)). now apply rangeMap_fair. }
  destruct Hcase as [Hc|Hc].
  - rewrite Hc in Hall. simpl in Hall. specialize (Hall k). lia.
  - apply rangeMap_lookup in Hc. rewrite Hc. simpl. apply Hall.
Qed.

(** ** The retained paths *)

Lemma collectStep_eq g bkey acc p ko :
  lastKey g p = Some ko →
  collectStep g bkey acc p
  = Some match ko with
         | Some key => if decide (bkey = keyString key) then (acc.1 ++ [p], key) else acc
         | None => acc
         end.
Proof. intros Hp. unfold collectStep. now rewrite Hp. Qed.

Lemma collect_fold g bkey paths acc :
  Forall (λ p, is_Some (lastKey g p)) paths →
  foldlM (collectStep g bkey) acc paths
  = Some (acc.1 ++ filter (λ p, tag g p = Some bkey) paths,
          match list.last (filter (λ p, tag g p = Some bkey) paths) with
          | Some p => keyOf g p
          | None => acc.2
          end).
Proof.
  intros Hall. revert acc. induction Hall as [|p paths [ko Hp] _ IH]; intros acc.
  - simpl. rewrite app_nil_r. now destruct acc.
  - rewrite foldlM_cons, (collectStep_eq g bkey acc p ko Hp). simpl. rewrite IH, filter_cons.
    assert (Htag : tag g p = keyString <$> ko).
    { unfold tag. rewrite Hp. now destruct ko. }
    rewrite Htag. destruct ko as [key|]; simpl.
    + destruct (decide (bkey = keyString key)) as [->|Hne].
      * destruct (decide (Some (keyString key) = Some (keyString key))); [|congruence].
        simpl. rewrite <- app_assoc. simpl.
        f_equal. f_equal.
        destruct (filter _ paths) as [|q qs] eqn:Hq; simpl.
        -- unfold keyOf. now rewrite Hp.
        -- destruct (list.last (q :: qs)) eqn:Hl; [reflexivity|].
           apply last_None in Hl. discriminate.
      * destruct (decide (Some (keyString key) = Some bkey)); [congruence|reflexivity].
    + destruct (decide (None = Some bkey)); [discriminate|reflexivity].
Qed.

Lemma selectBestPaths_total sched g paths :
  Forall (λ p, is_Some (lastKey g p)) paths → is_Some (selectBestPaths sched g paths).
Proof.
  intros Hall. unfold selectBestPaths.
  destruct paths as [|p [|q paths]]; [eauto| |].
  - destruct (Forall_inv Hall) as [ko Hp]. unfold lastKey in Hp.
    destruct (ends p) as [[s t]|]; [|eauto].
    destruct (simple.Edge g s t); simpl in *; [eauto|discriminate].
  - destruct (tally_endorsements g _ Hall) as (occ & -> & _). simpl.
    unfold collect. rewrite collect_fold by exact Hall. simpl. eauto.
Qed.

(** ** Recomputation of the confidences *)

Lemma confidenceOf_total sched r src n v :
  wf r → ids r !! n = Some v → is_Some (confidenceOf sched r src v).
Proof.
  intros Hwf Hv. unfold confidenceOf.
  rewrite (wf_known_node r n v Hwf Hv). simpl.
  destruct (selectBestPaths_total sched (graph r)
              (path.AllBetween (pathOrder sched) (graph r) src v))
    as [best ->]; [|simpl; eauto].
  apply list.Forall_forall. intros p Hp.
  destruct Hwf as (_ & W2 & _). eauto using AllBetween_lastKey.
Qed.

Lemma confidenceOf_ext sched r r' src v :
  graph r' = graph r → heap r' = heap r →
  confidenceOf sched r' src v = confidenceOf sched r src v.
Proof. unfold confidenceOf. now intros -> ->. Qed.

Lemma same_but_table_wf r r' : same_but_table r r' → wf r → wf r'.
Proof.
  intros ((Hs & _) & Hi & Hg & _ & _ & Hp). apply wf_ext; auto. now rewrite Hg.
Qed.

Lemma updateConfidence_total sched r :
  wf r → ∃ r', updateConfidence sched r = Some r' ∧ same_but_table r r'.
Proof.
  intros Hwf. unfold updateConfidence.
  pose proof Hwf as (_ & _ & [s Hs] & _). rewrite Hs. simpl.
  rewrite (wf_known_node r _ s Hwf Hs). simpl.
  apply (foldlM_total _ (same_but_table r)); [|repeat split].
  intros r1 [n v] Hin Hr1. apply rangeMap_lookup in Hin. unfold confidenceStep. simpl.
  destruct (confidenceOf_total sched r1 s n v) as [c ->].
  - eauto using same_but_table_wf.
  - destruct Hr1 as (_ & -> & _). exact Hin.
  - simpl. eexists. split; [reflexivity|]. exact Hr1.
Qed.

Lemma KeyTable_updateConfidence_dom n c k (tb : KeyTable.t) m :
  is_Some (KeyTable.updateConfidence n c k tb !! m) ↔ is_Some (tb !! m).
Proof.
  unfold KeyTable.updateConfidence. destruct (tb !! n) as [rec|] eqn:Hn; [|reflexivity].
  destruct (decide (n = m)) as [->|Hne].
  - destruct k; rewrite lookup_insert_eq, Hn; split; eauto.
  - destruct k; now rewrite lookup_insert_ne.
Qed.

(** [updateConfidence] creates no record and drops none. *)
Lemma updateConfidence_dom sched r r' m :
  updateConfidence sched r = Some r' →
  is_Some (keyTable r' !! m) ↔ is_Some (keyTable r !! m).
Proof.
  unfold updateConfidence.
  destruct (ids r !! source r) as [s|]; simpl; [|discriminate].
  destruct (simple.Node (graph r) (id s)) as [src|]; simpl; [|discriminate].
  apply (foldlM_invariant _ (λ r', is_Some (keyTable r' !! m) ↔ is_Some (keyTable r !! m)));
    [|reflexivity].
  intros b x b' _ Hb. unfold confidenceStep.
  destruct (confidenceOf sched b src x.2) as [c|]; simpl; [|discriminate].
  intros [= <-]. simpl. now rewrite KeyTable_updateConfidence_dom.
Qed.

(** ** Add *)

Lemma store_wf p v r : wf r → wf (store p v r).
Proof. now apply wf_ext. Qed.

Lemma with_graph_wf g r :
  simple.nodes g = simple.nodes (graph r) → wf r → wf (with_graph g r).
Proof. intros Hg. now apply wf_ext. Qed.

(** The outcome of [Add] on a well-formed ring, step by step. *)
Lemma Add_steps sched rec s rep r vs :
  wf r → ids r !! s = Some vs → Owner rec ≠ s →
  ∃ r1 vo g p r',
    addNode (Owner rec) F32.zero r = Some r1 ∧ wf r1 ∧
    ids r1 !! s = Some vs ∧ ids r1 !! Owner rec = Some vo ∧
    addEdge s (Owner rec) (KeyPub rec) r1 = Some (with_graph g r1, None) ∧
    simple.nodes g = simple.nodes (graph r1) ∧
    simple.edges g
    = <[(id vs, id vo) := {| F := vs; T := vo; Key := KeyPub rec |}]>
        (simple.edges (graph r1)) ∧
    phi (Owner rec) rep (with_graph g r1) = Some p ∧
    updateConfidence sched (store (probability vo) p (with_graph g r1)) = Some r' ∧
    same_but_table (store (probability vo) p (with_graph g r1)) r' ∧
    Add sched rec s rep r = Some r'.
Proof.
  intros Hwf Hs Hne.
  destruct (addNode_wf (Owner rec) F32.zero r Hwf) as (r1 & H1 & Hwf1 & [vo Hvo] & Hkeep & He1).
  pose proof (Hkeep _ _ Hs) as Hs1.
  destruct (addEdge_wf s (Owner rec) (KeyPub rec) r1 vs vo Hwf1 Hs1 Hvo) as (g & H2 & Hgn & Hge);
    [congruence|].
  pose proof (with_graph_wf g r1 Hgn Hwf1) as Hwf2.
  destruct (phi_known (Owner rec) rep (with_graph g r1) vo Hwf2 Hvo) as (src & _ & H3).
  set (p := to_f32 _) in H3.
  pose proof (store_wf (probability vo) p _ Hwf2) as Hwf3.
  destruct (updateConfidence_total sched _ Hwf3) as (r' & H4 & Hframe).
  exists r1, vo, g, p, r'. repeat (split; [assumption|]).
  unfold Add, contains. rewrite bool_decide_eq_true_2 by eauto. simpl.
  destruct (decide (Owner rec = s)); [contradiction|].
  rewrite H1. simpl. rewrite H2. simpl. rewrite H3. simpl.
  unfold addNode. simpl. rewrite Hvo. simpl. exact H4.
Qed.

Lemma Add_wf sched rec s rep r r' : wf r → Add sched rec s rep r = Some r' → wf r'.
Proof.
  intros Hwf HA. destruct (ids r !! s) as [vs|] eqn:Hs.
  - destruct (decide (Owner rec = s)) as [He|Hne].
    + unfold Add in HA. destruct (negb (contains r s)); [now injection HA as <-|].
      rewrite decide_True in HA by exact He. now injection HA as <-.
    + destruct (Add_steps sched rec s rep r vs Hwf Hs Hne)
        as (r1 & vo & g & p & r'' & _ & Hwf1 & _ & _ & _ & Hgn & _ & _ & _ & Hframe & HA').
      rewrite HA in HA'. injection HA' as <-.
      eapply same_but_table_wf; [exact Hframe|].
      apply store_wf. now apply with_graph_wf.
  - unfold Add, contains in HA.
    rewrite bool_decide_eq_false_2 in HA by (rewrite Hs; intros [? ?]; discriminate).
    now injection HA as <-.
Qed.

(** C2, as stated, fails on S1 for a record signed by its own owner: B is
    a known node, so that the ring should have the edge from B to B; [Add]
    returns at once and the graph has no such edge. *)
Lemma Add_expected_fails :
  ¬ Add_expected inOrder {| Owner := "B"; KeyPub := K_B |} "B" F32.half ringS1.
Proof.
  intros (r' & HA & [[Hc _]|[He Hrec]]).
  - vm_compute in Hc. discriminate.
  - vm_compute in HA. injection HA as <-.
    destruct He as (vs & vo & e & Hs & Ho & He & _).
    vm_compute in Hs, Ho. injection Hs as <-. injection Ho as <-.
    vm_compute in He. discriminate.
Qed.

(** C2, amended: on a well-formed ring [Add(rec, s, _)] returns, and either
    [s] was unknown or is the owner of [rec], a record signed by its own
    owner, and the ring is unchanged, or [s] is known and differs from the
    owner and the graph has the edge from [s] to the owner carrying the key
    of [rec]. *)
Theorem Add_outcome sched rec s rep r :
  wf r →
  ∃ r', Add sched rec s rep r = Some r' ∧
        (((contains r s = false ∨ Owner rec = s) ∧ r' = r) ∨
         (contains r s = true ∧ Owner rec ≠ s ∧
          edge_carries r' s (Owner rec) (KeyPub rec))).
Proof.
  intros Hwf. destruct (ids r !! s) as [vs|] eqn:Hs.
  - destruct (decide (Owner rec = s)) as [He|Hne].
    + exists r. split; [|left; auto]. unfold Add.
      destruct (negb (contains r s)); [reflexivity|]. now rewrite decide_True.
    + destruct (Add_steps sched rec s rep r vs Hwf Hs Hne)
        as (r1 & vo & g & p & r' & H1 & _ & Hs1 & Hvo & _ & _ & Hge & _ & H4 & Hframe & HA).
      exists r'. split; [exact HA|]. right.
      destruct Hframe as (_ & Hids & Hg & _).
      split; [unfold contains; apply bool_decide_eq_true_2; eauto|]. split; [exact Hne|].
      exists vs, vo, {| F := vs; T := vo; Key := KeyPub rec |}.
      rewrite Hids, Hg. simpl. repeat split; [exact Hs1|exact Hvo|].
      unfold simple.Edge. rewrite Hge. apply lookup_insert_eq.
  - exists r. split; [|left; split; [|reflexivity]; left];
      unfold Add, contains; rewrite bool_decide_eq_false_2; auto;
      rewrite Hs; intros [? ?]; discriminate.
Qed.

Lemma Add_outcome_witness :
  wf ringS1 ∧
  ∃ r', Add inOrder {| Owner := "C"; KeyPub := K_C |} "B" F32.half ringS1 = Some r' ∧
        (((contains ringS1 "B" = false ∨ "C" = "B") ∧ r' = ringS1) ∨
         (contains ringS1 "B" = true ∧ "C" ≠ "B" ∧
          edge_carries r' "B" "C" K_C)).
Proof.
  assert (H : wf ringS1) by (apply (bool_decide_unpack _); vm_compute; exact I).
  split; [exact H|].
  exact (Add_outcome inOrder {| Owner := "C"; KeyPub := K_C |} "B" F32.half ringS1 H).
Defined.

(** ** Trust *)

Lemma reputation_spec (reptable : ReputationTable) (n : string) :
  reputation reptable n
  = match reptable with
    | Some table => if (table n).2 then (table n).1 else F32.half
    | None => F32.half
    end.
Proof.
  unfold reputation. destruct reptable as [table|]; [|reflexivity].
  destruct (table n) as [rep []]; reflexivity.
Qed.

Lemma same_nodes_wf r r' : same_nodes r r' → wf r → wf r'.
Proof. intros (Hi & Hg & Hs & Hp). apply wf_ext; auto. now rewrite Hg. Qed.

Lemma trustStep_known reptable r root n v :
  wf r → ids r !! source r = Some root → ids r !! n = Some v →
  trustStep reptable r (n, v)
  = Some (store (probability v)
            (trust (dist (graph r) root v) (reputation reptable n)) r).
Proof.
  intros Hwf Hroot Hv. unfold trustStep. cbn [fst snd].
  destruct (phi_known n (F32.mul (F32.of_Z 2) (reputation reptable n)) r v Hwf Hv)
    as (s & Hs & ->).
  rewrite Hroot in Hs. injection Hs as <-. simpl.
  unfold addNode. now rewrite Hv.
Qed.

Lemma trust_loop reptable r root (L : list (string * Node)) :
  wf r → ids r !! source r = Some root →
  (∀ n v, (n, v) ∈ L → ids r !! n = Some v) →
  ∃ r', foldlM (trustStep reptable) r L = Some r' ∧ same_nodes r r' ∧
        ∀ n v, (n, v) ∈ L →
               load (heap r') v = trust (dist (graph r) root v) (reputation reptable n).
Proof.
  intros Hwf Hroot. induction L as [|[n v] L IH] using rev_ind; intros HL.
  - exists r. split; [reflexivity|]. split; [repeat split|].
    intros n v H. inversion H.
  - destruct IH as (r1 & Hf & Hsame & Hval).
    { intros n' v' Hin. apply HL. apply elem_of_app. now left. }
    pose proof (same_nodes_wf r r1 Hsame Hwf) as Hwf1.
    pose proof Hsame as (Hi & Hg & Hs & Hp).
    assert (Hv : ids r !! n = Some v).
    { apply HL. apply elem_of_app. right. left. }
    rewrite foldlM_app, Hf. simpl.
    rewrite (trustStep_known reptable r1 root n v Hwf1); [|congruence..].
    simpl. eexists. split; [reflexivity|]. split; [repeat split; assumption|].
    intros n' v' Hin. unfold load. simpl. rewrite Hg.
    destruct (decide (probability v = probability v')) as [Heq|Hne].
    + assert (Hv' : ids r !! n' = Some v').
      { apply HL. exact Hin. }
      destruct Hwf as (_ & _ & _ & W6 & _).
      pose proof (W6 _ _ Hv _ _ Hv' Heq) as <-.
      rewrite Hv in Hv'. injection Hv' as <-.
      now rewrite lookup_total_insert_eq.
    + rewrite lookup_total_insert_ne by exact Hne.
      apply elem_of_app in Hin as [Hin|Hin].
      * apply (Hval _ _ Hin).
      * apply list_elem_of_singleton in Hin. injection Hin as <- <-. contradiction.
Qed.

(** C5: [updateTrust] returns on a well-formed ring and, whatever fair order
    the names are visited in, leaves the names and the graph as they were
    and sets the trust probability of every node N of the ring to
    min(1/dist(root, N), 2 r), where r is the reputation the table returns
    for N, 0.5 when there is no table or no entry, and the distance is the
    number of hops with 0 replaced by 1; [phi] of an unknown name is 0. *)
Theorem updateTrust_phi sched reptable r :
  wf r → fair sched →
  ∃ r' root,
    updateTrust sched reptable r = Some r' ∧
    ids r !! source r = Some root ∧ ids r' = ids r ∧ graph r' = graph r ∧
    (∀ n v, ids r !! n = Some v →
       load (heap r') v = trust (dist (graph r) root v) (reputation reptable n)) ∧
    (∀ n, reputation reptable n
          = match reptable with
            | Some table => if (table n).2 then (table n).1 else F32.half
            | None => F32.half
            end) ∧
    (∀ n rep, ids r' !! n = None → phi n rep r' = Some F32.zero).
Proof.
  intros Hwf Hfair. pose proof Hwf as (_ & _ & [root Hroot] & _).
  destruct (trust_loop reptable r root (rangeMap sched (ids r)) Hwf Hroot)
    as (r' & Hf & (Hi & Hg & _) & Hval).
  { intros n v. apply rangeMap_lookup. }
  exists r', root. repeat (split; [assumption|]). split; [|split].
  - intros n v Hv. apply Hval. now apply rangeMap_fair.
  - apply reputation_spec.
  - intros n rep. apply phi_unknown.
Qed.

Lemma fair_inOrder : fair inOrder.
Proof. intros l. reflexivity. Qed.

Lemma fair_backwards : fair backwards.
Proof. intros l. unfold backwards. apply reverse_Permutation. Qed.

Lemma fair_paths_inOrder : fair_paths inOrder.
Proof. intros l. reflexivity. Qed.

Lemma fair_paths_backwards : fair_paths backwards.
Proof. intros l. unfold backwards. apply reverse_Permutation. Qed.

Lemma updateTrust_phi_witness :
  wf ringS2 ∧ fair backwards ∧
  ∃ r' root,
    updateTrust backwards None ringS2 = Some r' ∧
    ids ringS2 !! source ringS2 = Some root ∧ ids r' = ids ringS2 ∧
    graph r' = graph ringS2 ∧
    (∀ n v, ids ringS2 !! n = Some v →
       load (heap r') v = trust (dist (graph ringS2) root v) (reputation None n)) ∧
    (∀ n, reputation None n = F32.half) ∧
    (∀ n rep, ids r' !! n = None → phi n rep r' = Some F32.zero).
Proof.
  assert (H : wf ringS2) by (apply (bool_decide_unpack _); vm_compute; exact I).
  split; [exact H|]. split; [exact fair_backwards|].
  exact (updateTrust_phi backwards None ringS2 H fair_backwards).
Defined.

(** ** Scenarios *)

Example ringS1_built :
  NewKeyRing "R" K_R [trusted "B" K_B f0_9] F32.half = Some ringS1.
Proof. vm_compute. reflexivity. Qed.

Example ringS2_built :
  Add inOrder {| Owner := "C"; KeyPub := K_C |} "B" F32.half ringS1 = Some ringS2.
Proof. vm_compute. reflexivity. Qed.

Example GetKey_S1 :
  GetKey ringS1 "B" = (K_B, true) ∧ confidence ringS1 "R" = Some F32.one ∧
  GetKey ringS1 "C" = (zeroKey, false).
Proof. vm_compute. repeat split. Qed.

(** C3, as stated, fails: after the call C has no record, so no stored
    confidence, and [GetKey(C)] reports absent. *)
Lemma S2_expected_fails : ¬ S2_expected ringS2.
Proof. intros (_ & _ & Hc & _). vm_compute in Hc. discriminate. Qed.

(** C3: the confidence computed for C is lost. Whatever the three keys, and
    in either order of iteration, [Add({C, K_C}, B, 0.5)] on the ring built
    from root R, the bootstrap record {B, K_B, 0.9} and threshold 0.5
    returns; the graph then has the edges R->B carrying K_B and B->C
    carrying K_C, R->B->C is the one shortest path to C, and
    [updateConfidence] computes the confidence 1.0 and the key K_C for C;
    yet the key table holds no record for C, [Add] inserting none, and
    [GetKey(C)] reports absent with the zero key. *)
Theorem two_hop_attestation (kR kB kC : PublicKey) :
  ∃ r1 r2 vR vB vC,
    NewKeyRing "R" kR [trusted "B" kB f0_9] F32.half = Some r1 ∧
    Add inOrder {| Owner := "C"; KeyPub := kC |} "B" F32.half r1 = Some r2 ∧
    Add backwards {| Owner := "C"; KeyPub := kC |} "B" F32.half r1 = Some r2 ∧
    ids r2 !! "R" = Some vR ∧ ids r2 !! "B" = Some vB ∧ ids r2 !! "C" = Some vC ∧
    simple.Edge (graph r2) vR vB = Some {| F := vR; T := vB; Key := kB |} ∧
    simple.Edge (graph r2) vB vC = Some {| F := vB; T := vC; Key := kC |} ∧
    path.shortest (graph r2) vR vC = [[vR; vB; vC]] ∧
    confidenceOf inOrder r2 vR vC = Some (F32.one, Some kC) ∧
    keyTable r2 !! "C" = None ∧
    GetKey r2 "C" = (zeroKey, false).
Proof.
  do 5 eexists.
  split; [vm_compute; reflexivity|].
  split; [vm_compute; reflexivity|].
  split; [vm_compute; reflexivity|].
  split; [vm_compute; reflexivity|].
  split; [vm_compute; reflexivity|].
  split; [vm_compute; reflexivity|].
  vm_compute. repeat split.
Qed.

(** C7: the record of the root does not keep its confidence. On S1 it is
    1.0 after the construction; one run of [updateConfidence], and so the
    [Add] of S2 and one round of the updater, leave it at 0. *)
Theorem root_confidence_lost :
  confidence ringS1 "R" = Some F32.one ∧
  (updateConfidence inOrder ringS1 ≫= λ r, confidence r "R") = Some F32.zero ∧
  (Add inOrder {| Owner := "C"; KeyPub := K_C |} "B" F32.half ringS1
     ≫= λ r, confidence r "R") = Some F32.zero ∧
  (tick acceptAll inOrder None ringS1 ≫= λ r, confidence r "R") = Some F32.zero.
Proof. vm_compute. repeat split. Qed.

(** ** The choice among conflicting keys *)


(** Two paths or more: the tag chosen has the greatest count, the paths
    kept are those of that tag, the key is that of the last one kept. *)
Lemma selectBestPaths_chosen sched g paths :
  fair sched → (2 ≤ length paths)%nat →
  Forall (λ p, is_Some (lastKey g p)) paths →
  ∃ bkey,
    selectBestPaths sched g paths
    = Some (filter (λ p, tag g p = Some bkey) paths,
            Some (keyOfLast g (filter (λ p, tag g p = Some bkey) paths))) ∧
    (∀ k, (endorsements g paths k ≤ endorsements g paths bkey)%nat).
Proof.
  intros Hfair Hlen Hall.
  destruct (tally_endorsements g paths Hall) as (occ & Ht & Hocc).
  exists (findMax sched occ).2. split.
  - unfold selectBestPaths.
    destruct paths as [|p [|q paths]]; [simpl in Hlen; lia..|].
    rewrite Ht. simpl. unfold collect. rewrite collect_fold by exact Hall.
    reflexivity.
  - intros k. rewrite <- !Hocc. now apply findMax_greatest.
Qed.

(** The shortest paths that [updateConfidence] hands to [selectBestPaths]
    all end in an edge of the graph, so the choice applies to every name of
    a well-formed ring with two or more shortest paths. *)
Lemma selectBestPaths_shortest sched order r src v :
  wf r → fair sched →
  (2 ≤ length (path.AllBetween order (graph r) src v))%nat →
  ∃ bkey,
    selectBestPaths sched (graph r) (path.AllBetween order (graph r) src v)
    = Some (filter (λ p, tag (graph r) p = Some bkey) (path.AllBetween order (graph r) src v),
            Some (keyOfLast (graph r)
                    (filter (λ p, tag (graph r) p = Some bkey)
                            (path.AllBetween order (graph r) src v)))) ∧
    (∀ k, (endorsements (graph r) (path.AllBetween order (graph r) src v) k
           ≤ endorsements (graph r) (path.AllBetween order (graph r) src v) bkey)%nat).
Proof.
  intros (_ & W2 & _) Hfair Hlen. apply selectBestPaths_chosen; [assumption..|].
  apply list.Forall_forall. intros p Hp. eauto using AllBetween_lastKey.
Qed.



(** ** Idempotence of the recomputation *)

Lemma KeyTable_updateConfidence_twice n c k (tb : gmap string TrustedKeyRecord) :
  KeyTable.updateConfidence n c k (KeyTable.updateConfidence n c k tb)
  = KeyTable.updateConfidence n c k tb.
Proof.
  unfold KeyTable.updateConfidence. destruct (tb !! n) as [rec|] eqn:Hn.
  - destruct k as [key|]; rewrite lookup_insert_eq; simpl; apply insert_insert_eq.
  - now rewrite Hn.
Qed.

Lemma KeyTable_updateConfidence_comm n c k m c' k' (tb : gmap string TrustedKeyRecord) :
  n ≠ m →
  KeyTable.updateConfidence n c k (KeyTable.updateConfidence m c' k' tb)
  = KeyTable.updateConfidence m c' k' (KeyTable.updateConfidence n c k tb).
Proof.
  intros Hne. unfold KeyTable.updateConfidence.
  destruct (tb !! n) as [rn|] eqn:Hn, (tb !! m) as [rm|] eqn:Hm;
    destruct k, k';
    repeat first [rewrite lookup_insert_ne by congruence | rewrite Hn | rewrite Hm];
    try reflexivity; apply insert_insert_ne; congruence.
Qed.

Lemma tableStep_twice sched r src tb kv :
  tableStep sched r src (tableStep sched r src tb kv) kv = tableStep sched r src tb kv.
Proof.
  unfold tableStep. destruct (confidenceOf sched r src kv.2); [|reflexivity].
  apply KeyTable_updateConfidence_twice.
Qed.

Lemma tableStep_comm sched r src tb kv kv' :
  (kv.1 = kv'.1 → kv = kv') →
  tableStep sched r src (tableStep sched r src tb kv) kv'
  = tableStep sched r src (tableStep sched r src tb kv') kv.
Proof.
  intros Hf. destruct (decide (kv.1 = kv'.1)) as [He|Hne].
  - now rewrite (Hf He).
  - unfold tableStep.
    destruct (confidenceOf sched r src kv.2), (confidenceOf sched r src kv'.2);
      try reflexivity.
    apply KeyTable_updateConfidence_comm. congruence.
Qed.

Lemma tableStep_through sched r src L tb kv :
  (∀ kv', kv' ∈ L → kv.1 = kv'.1 → kv = kv') →
  tableStep sched r src (foldl (tableStep sched r src) tb L) kv
  = foldl (tableStep sched r src) (tableStep sched r src tb kv) L.
Proof.
  revert tb. induction L as [|x L IH]; intros tb Hf; simpl; [reflexivity|].
  rewrite IH by (intros kv' Hin; apply Hf; now right).
  f_equal. symmetry. apply tableStep_comm.
  apply Hf. left.
Qed.

Lemma tableSteps_twice sched r src L tb :
  functional L →
  foldl (tableStep sched r src) (foldl (tableStep sched r src) tb L) L
  = foldl (tableStep sched r src) tb L.
Proof.
  revert tb. induction L as [|x L IH]; intros tb Hf; simpl; [reflexivity|].
  rewrite tableStep_through by (intros kv' Hin; apply Hf; [left|now right]).
  rewrite tableStep_twice. apply IH.
  intros kv kv' Hkv Hkv'. apply Hf; now right.
Qed.

Lemma rangeMap_functional {V : Type} (sched : Sched) (m : gmap string V) kv kv' :
  kv ∈ rangeMap sched m → kv' ∈ rangeMap sched m → kv.1 = kv'.1 → kv = kv'.
Proof.
  destruct kv as [k v], kv' as [k' v']. simpl.
  intros H1%rangeMap_lookup H2%rangeMap_lookup <-. congruence.
Qed.

Lemma confidenceStep_eq sched src r kv c :
  confidenceOf sched r src kv.2 = Some c →
  confidenceStep sched src r kv
  = Some (with_keyTable (KeyTable.updateConfidence kv.1 c.1 c.2 (keyTable r)) r).
Proof. intros Hc. unfold confidenceStep. now rewrite Hc. Qed.

(** The loop of [updateConfidence] writes the table and reads the rest. *)
Lemma confidence_loop sched r src L r' :
  graph r' = graph r → heap r' = heap r →
  (∀ kv, kv ∈ L → is_Some (confidenceOf sched r src kv.2)) →
  foldlM (confidenceStep sched src) r' L
  = Some (with_keyTable (foldl (tableStep sched r src) (keyTable r') L) r').
Proof.
  revert r'. induction L as [|kv L IH]; intros r' Hg Hh Hall.
  - simpl. now destruct r'.
  - destruct (Hall kv) as [c Hc]; [left|].
    rewrite foldlM_cons, (confidenceStep_eq sched src r' kv c)
      by (now rewrite (confidenceOf_ext sched r r' src kv.2 Hg Hh)).
    simpl. rewrite IH; [|assumption..|intros kv' Hin; apply Hall; now right].
    assert (Hstep : tableStep sched r src (keyTable r') kv
                    = KeyTable.updateConfidence kv.1 c.1 c.2 (keyTable r')).
    { unfold tableStep. now rewrite Hc. }
    rewrite Hstep. reflexivity.
Qed.

(** A second run that iterates in the order of the first returns the very
    state the first run produced. *)
Lemma updateConfidence_same_order sched r :
  wf r →
  ∃ r1, updateConfidence sched r = Some r1 ∧ updateConfidence sched r1 = Some r1.
Proof.
  intros Hwf. pose proof Hwf as (_ & _ & [s Hs] & _).
  pose proof (wf_known_node r _ s Hwf Hs) as Hsrc.
  assert (Hall : ∀ kv, kv ∈ rangeMap sched (ids r) →
                       is_Some (confidenceOf sched r s kv.2)).
  { intros [n v] Hin. apply rangeMap_lookup in Hin. eauto using confidenceOf_total. }
  eexists. split.
  - unfold updateConfidence. rewrite Hs. simpl. rewrite Hsrc. simpl.
    now apply (confidence_loop sched r s).
  - unfold updateConfidence. simpl. rewrite Hs. simpl. rewrite Hsrc. simpl.
    rewrite (confidence_loop sched r s); [|reflexivity..|exact Hall].
    simpl. rewrite tableSteps_twice; [reflexivity|].
    intros kv kv'. apply rangeMap_functional.
Qed.

(** C8, as stated, fails on a ring where two keys tie: the first run, in
    one fair order, stores [K_C] for C and the second, in another fair
    order, [K_C']. *)
Lemma not_idempotent_at_tie : ¬ idempotent_at ringTie.
Proof.
  intros H.
  destruct (updateConfidence inOrder ringTie) as [r1|] eqn:H1;
    [|vm_compute in H1; discriminate].
  destruct (updateConfidence backwards r1) as [r2|] eqn:H2.
  - pose proof (H inOrder backwards r1 r2 fair_inOrder fair_backwards
                  fair_paths_inOrder fair_paths_backwards H1 H2 "C"%string) as HC.
    vm_compute in H1. injection H1 as H1. subst r1.
    vm_compute in H2. injection H2 as H2. subst r2.
    vm_compute in HC. discriminate.
  - vm_compute in H1. injection H1 as H1. subst r1. vm_compute in H2. discriminate.
Qed.

(** ** Construction *)

Lemma bootstrap_built root r rec :
  built root r → ∃ r', bootstrap root r rec = Some r' ∧ built root r'.
Proof.
  intros ((W1 & W2 & W4 & W6 & W7) & Hnext & Hid & Hroot).
  assert (Hfresh : simple.nodes (graph r) !! nextNode r = None).
  { destruct (simple.nodes (graph r) !! nextNode r) as [v|] eqn:Hv; [|reflexivity].
    apply W2 in Hv. simpl in Hv. lia. }
  assert (Hpos : nextNode r ≠ 0).
  { intros H0. rewrite H0 in Hfresh. congruence. }
  unfold bootstrap, simple.AddNode, simple.Has. simpl. rewrite Hfresh.
  rewrite bool_decide_eq_false_2 by (intros [? ?]; discriminate). simpl.
  unfold simple.SetEdge. simpl.
  destruct (decide (id root = nextNode r)) as [He|_]; [congruence|]. simpl.
  unfold simple.ensureNode. simpl.
  rewrite lookup_insert_ne by congruence. rewrite Hid, Hroot. simpl.
  rewrite lookup_insert_eq.
  eexists. split; [reflexivity|]. unfold built, wf. simpl.
  split; [split; [|split; [|split; [|split]]]|split; [|split]].
  - apply map_Forall_insert_2; [split; [reflexivity|apply lookup_insert_eq]|].
    intros m v Hm. destruct (W1 _ _ Hm) as [Hname Hnode]. split; [exact Hname|].
    rewrite lookup_insert_ne; [exact Hnode|].
    intros Heq. rewrite <- Heq in Hnode. congruence.
  - rewrite map_size_insert_None by exact Hfresh.
    apply map_Forall_insert_2; [simpl; lia|].
    intros i v Hi. apply W2 in Hi. simpl in *. lia.
  - destruct W4 as [s Hs].
    destruct (decide (Owner (keyRecord rec) = source r)) as [->|Hne].
    + rewrite lookup_insert_eq. eauto.
    + rewrite lookup_insert_ne by exact Hne. eauto.
  - apply map_Forall_insert_2.
    + apply map_Forall_insert_2; [done|].
      intros b vb Hb Hp. apply W7 in Hb. simpl in *. lia.
    + intros a va Ha. apply map_Forall_insert_2.
      * intros Hp. apply W7 in Ha. simpl in *. lia.
      * exact (W6 _ _ Ha).
  - apply map_Forall_insert_2; [simpl; lia|].
    intros m v Hm. apply W7 in Hm. simpl in *. lia.
  - rewrite map_size_insert_None by exact Hfresh. lia.
  - exact Hid.
  - rewrite lookup_insert_ne by congruence. exact Hroot.
Qed.

(** [NewKeyRing] returns a well-formed ring for every owner, key, list of
    trusted records and threshold. *)
Lemma NewKeyRing_wf owner key trustedRecords thr :
  ∃ r, NewKeyRing owner key trustedRecords thr = Some r ∧ wf r.
Proof.
  unfold NewKeyRing, simple.AddNode, simple.Has. simpl.
  set (root := {| name := owner; id := 0; probability := O |}).
  destruct (foldlM_total (bootstrap root) (built root) trustedRecords) with
    (b := {| source := owner; ids := {[owner := root]};
             graph := {| simple.nodes := <[0 := root]> ∅; simple.edges := ∅ |};
             nextNode := 1;
             keyTable := KeyTable.add (trusted owner key F32.one) (KeyTable.new owner key);
             pending := []; threshold := thr; stopped := false;
             heap := {[O := F32.one]}; nextPtr := 1%nat |})
    as (r & Hr & Hb & _).
  - intros b x _. apply bootstrap_built.
  - unfold built, wf. simpl. split; [split; [|split; [|split; [|split]]]|split; [|split]].
    + apply map_Forall_singleton. split; [reflexivity|apply lookup_insert_eq].
    + apply map_Forall_insert_2; [|apply map_Forall_empty].
      rewrite map_size_insert_None by apply lookup_empty. rewrite map_size_empty. simpl. lia.
    + rewrite lookup_singleton_eq. eauto.
    + apply map_Forall_singleton. now apply map_Forall_singleton.
    + apply map_Forall_singleton. simpl. lia.
    + rewrite map_size_insert_None by apply lookup_empty. now rewrite map_size_empty.
    + reflexivity.
    + apply lookup_insert_eq.
  - exists r. split; [exact Hr|exact Hb].
Qed.

(** ** The states a ring goes through *)

Lemma updateTrust_wf sched reptable r r' :
  wf r → updateTrust sched reptable r = Some r' → wf r'.
Proof.
  intros Hwf Hu. pose proof Hwf as (_ & _ & [root Hroot] & _).
  destruct (trust_loop reptable r root (rangeMap sched (ids r)) Hwf Hroot)
    as (r1 & Hf & Hsame & _).
  { intros n v. apply rangeMap_lookup. }
  unfold updateTrust in Hu. rewrite Hf in Hu. injection Hu as <-.
  eauto using same_nodes_wf.
Qed.

Lemma updateConfidence_wf sched r r' :
  wf r → updateConfidence sched r = Some r' → wf r'.
Proof.
  intros Hwf Hu. apply updateConfidence_frame in Hu. eauto using same_but_table_wf.
Qed.

Lemma updateMessage_wf c sched msg conf r res :
  wf r → updateMessage c sched msg conf r = Some res → wf res.1.
Proof.
  intros Hwf. unfold updateMessage.
  destruct (DeserializeKey c _); [|now intros [= <-]].
  destruct (GetKey r _) as [kpub present].
  destruct (negb present); [now intros [= <-]|].
  destruct (Verify c msg kpub); [|now intros [= <-]].
  destruct (Add _ _ _ _ _) as [r'|] eqn:HA; simpl; [|discriminate].
  intros [= <-]. simpl. eauto using Add_wf.
Qed.

Lemma with_pending_wf q r : wf r → wf (with_pending q r).
Proof. now apply wf_ext. Qed.

Lemma updatePending_wf c sched reptable r r' :
  wf r → updatePending c sched reptable r = Some r' → wf r'.
Proof.
  intros Hwf. unfold updatePending.
  destruct (replayPending c sched reptable r) as [st|] eqn:Hst; simpl; [|discriminate].
  intros [= <-]. apply with_pending_wf.
  revert Hst. unfold replayPending.
  apply (foldlM_invariant _ (λ st, wf st.1)); [|exact Hwf].
  intros b x b' _ Hb. unfold replayStep.
  destruct (updateMessage _ _ _ _ _) as [res|] eqn:Hu; simpl; [|discriminate].
  intros [= <-]. simpl. eauto using updateMessage_wf.
Qed.

Lemma reachable_wf c r : reachable c r → wf r.
Proof.
  induction 1 as [owner key recs thr r Hn|sched rec s rep r r' _ IH HA|msg r _ IH
                 |r _ IH|sched reptable r r' _ IH Ht].
  - destruct (NewKeyRing_wf owner key recs thr) as (r0 & Hr0 & Hwf). congruence.
  - eauto using Add_wf.
  - now apply with_pending_wf.
  - now apply (wf_ext r).
  - unfold tick in Ht. destruct (stopped r); [now injection Ht as <-|].
    destruct (updateTrust sched reptable r) as [r1|] eqn:H1; simpl in Ht; [|discriminate].
    destruct (updatePending c sched reptable r1) as [r2|] eqn:H2; simpl in Ht; [|discriminate].
    eauto using updateTrust_wf, updatePending_wf, updateConfidence_wf.
Qed.

(** ** No operation aborts on a well-formed ring *)

Lemma Add_total sched rec s rep r : wf r → is_Some (Add sched rec s rep r).
Proof.
  intros Hwf. destruct (ids r !! s) as [vs|] eqn:Hs.
  - destruct (decide (Owner rec = s)) as [He|Hne].
    + unfold Add. destruct (negb (contains r s)); [eauto|].
      rewrite decide_True by exact He. eauto.
    + destruct (Add_steps sched rec s rep r vs Hwf Hs Hne)
        as (r1 & vo & g & p & r' & H). decompose [and] H. eauto.
  - unfold Add, contains.
    rewrite bool_decide_eq_false_2 by (rewrite Hs; intros [? ?]; discriminate).
    simpl. eauto.
Qed.

Lemma updateMessage_total c sched msg conf r :
  wf r → is_Some (updateMessage c sched msg conf r).
Proof.
  intros Hwf. unfold updateMessage.
  destruct (DeserializeKey c _) as [key|]; [|eauto].
  destruct (GetKey r _) as [kpub present].
  destruct (negb present); [eauto|].
  destruct (Verify c msg kpub); [|eauto].
  destruct (Add_total sched
              {| Owner := KeyExchangeMessage.Owner msg; KeyPub := key |}
              (KeyExchangeMessage.Origin msg) conf r Hwf) as [r' ->].
  simpl. eauto.
Qed.

Lemma updateTrust_total sched reptable r :
  wf r → is_Some (updateTrust sched reptable r).
Proof.
  intros Hwf. pose proof Hwf as (_ & _ & [root Hroot] & _).
  destruct (trust_loop reptable r root (rangeMap sched (ids r)) Hwf Hroot)
    as (r1 & Hf & _).
  { intros n v. apply rangeMap_lookup. }
  unfold updateTrust. rewrite Hf. eauto.
Qed.

Lemma updatePending_total c sched reptable r :
  wf r → is_Some (updatePending c sched reptable r).
Proof.
  intros Hwf. unfold updatePending, replayPending.
  destruct (foldlM_total (replayStep c sched reptable) (λ st, wf st.1)
              (imap pair (pending r))) with (b := (r, @nil nat)) as (st & -> & _).
  - intros [r1 marks] im _ Hr1. unfold replayStep. cbn [fst snd] in *.
    destruct (updateMessage_total c sched im.2
                (F32.mul (F32.of_Z 2) (reputation reptable (KeyExchangeMessage.Owner im.2)))
                r1 Hr1) as [res Hres].
    rewrite Hres. simpl. eexists. split; [reflexivity|]. simpl.
    eauto using updateMessage_wf.
  - exact Hwf.
  - simpl. eauto.
Qed.

(** A round of the updater runs to its end. *)
Lemma tick_total c sched reptable r : wf r → is_Some (tick c sched reptable r).
Proof.
  intros Hwf. unfold tick. destruct (stopped r); [eauto|].
  destruct (updateTrust_total sched reptable r Hwf) as [r1 H1]. rewrite H1. simpl.
  pose proof (updateTrust_wf _ _ _ _ Hwf H1) as Hwf1.
  destruct (updatePending_total c sched reptable r1 Hwf1) as [r2 H2]. rewrite H2. simpl.
  pose proof (updatePending_wf _ _ _ _ _ Hwf1 H2) as Hwf2.
  destruct (updateConfidence_total sched r2 Hwf2) as (r3 & -> & _). eauto.
Qed.

(** ** The record of the root *)

(** After the construction the root has confidence 1.0, provided no
    bootstrap record bears the name of the root. *)
Lemma NewKeyRing_root owner key trustedRecords thr r :
  Forall (λ rec, Owner (keyRecord rec) ≠ owner) trustedRecords →
  NewKeyRing owner key trustedRecords thr = Some r →
  keyTable r !! owner = Some (trusted owner key F32.one).
Proof.
  intros Hrecs. unfold NewKeyRing.
  destruct (simple.AddNode _ _) as [g|]; simpl; [|discriminate].
  apply (foldlM_invariant _ (λ r, keyTable r !! owner = Some (trusted owner key F32.one))).
  - intros b rec b' Hin Hb. unfold bootstrap.
    destruct (simple.AddNode _ _) as [g1|]; simpl; [|discriminate].
    destruct (simple.SetEdge _ _) as [g2|]; simpl; [|discriminate].
    intros [= <-]. simpl. unfold KeyTable.add. simpl.
    rewrite lookup_insert_ne; [exact Hb|].
    rewrite list.Forall_forall in Hrecs. now apply Hrecs.
  - simpl. unfold KeyTable.add. simpl. apply lookup_insert_eq.
Qed.

(** A bootstrap record that bears the name of the root replaces the record
    of the root, confidence included. *)
Example NewKeyRing_root_replaced :
  NewKeyRing "R" K_R [trusted "R" K_B F32.half] F32.half
    ≫= (λ r, keyTable r !! "R") = Some (trusted "R" K_B F32.half).
Proof. vm_compute. reflexivity. Qed.

Lemma updateTrust_keyTable sched reptable r r' :
  updateTrust sched reptable r = Some r' → keyTable r' = keyTable r.
Proof.
  unfold updateTrust.
  apply (foldlM_invariant _ (λ r', keyTable r' = keyTable r)); [|reflexivity].
  intros b x b' _ Hb. unfold trustStep.
  destruct (phi _ _ _) as [p|]; simpl; [|discriminate].
  intros Ha. apply addNode_shell in Ha as [_ ->]. exact Hb.
Qed.

(** ** Ties *)

(** On S3 the tally holds two tags with one path each; one fair order
    yields [K_C], the other [K_C']. *)
Example tie_two_orders :
  pinnedKey (graph ringS3) pathsS3 = K_C ∧
  snd <$> selectBestPaths inOrder (graph ringS3) pathsS3 = Some (Some K_C) ∧
  snd <$> selectBestPaths backwards (graph ringS3) pathsS3 = Some (Some K_C').
Proof. vm_compute. repeat split. Qed.

(** ** The distance is the length of a shortest walk *)

Lemma trail_length g s w t : trail g s w t → (1 ≤ length w)%nat.
Proof. induction 1; [simpl; lia|]. rewrite length_app. lia. Qed.

Lemma walk_trail g s k t : walk g s k t ↔ ∃ w, trail g s w t ∧ length w = S k.
Proof.
  split.
  - induction 1 as [|k u t e _ (w & Hw & Hlen) He Hu Ht].
    + exists [s]. split; [constructor|reflexivity].
    + exists (w ++ [t]). split.
      * econstructor; [exact Hw|]. repeat split; eauto.
      * rewrite length_app. simpl. lia.
  - intros (w & Hw & Hlen). revert k Hlen.
    induction Hw as [|w u t Hw IH ([e He] & Hu & Ht)]; intros k Hlen.
    + injection Hlen as <-. constructor.
    + rewrite length_app in Hlen. simpl in Hlen.
      pose proof (trail_length g s w u Hw). destruct k as [|k]; [lia|].
      econstructor; eauto. apply IH. lia.
Qed.

Lemma snoc_split {A : Type} (w w1 w2 : list A) (t x : A) :
  w ++ [t] = w1 ++ x :: w2 →
  (w2 = [] ∧ w = w1 ∧ t = x) ∨ (∃ w2', w2 = w2' ++ [t] ∧ w = w1 ++ x :: w2').
Proof.
  destruct w2 as [|y w2 _] using rev_ind; intros Heq.
  - left. apply app_inj_tail in Heq as [-> ->]. auto.
  - right. change (w ++ [t] = w1 ++ (x :: w2) ++ [y]) in Heq.
    rewrite app_assoc in Heq. apply app_inj_tail in Heq as [-> ->]. eauto.
Qed.

Lemma trail_prefix g s w1 x w2 t :
  trail g s (w1 ++ x :: w2) t → trail g s (w1 ++ [x]) x.
Proof.
  intros H. remember (w1 ++ x :: w2) as w eqn:Hw. revert w2 Hw.
  induction H as [|w u t H IH Hl]; intros w2 Hw.
  - destruct w1 as [|y w1]; simpl in Hw.
    + injection Hw as -> _. constructor.
    + injection Hw as _ Hw. destruct w1; discriminate.
  - apply snoc_split in Hw as [(-> & -> & ->)|(w2' & -> & ->)].
    + econstructor; eauto.
    + eapply IH. reflexivity.
Qed.

Lemma trail_resume g s w1 x w2 t w0 :
  trail g s (w1 ++ x :: w2) t → trail g s (w0 ++ [x]) x → trail g s (w0 ++ x :: w2) t.
Proof.
  intros H H0. remember (w1 ++ x :: w2) as w eqn:Hw. revert w2 Hw.
  induction H as [|w u t H IH Hl]; intros w2 Hw.
  - destruct w1 as [|y w1]; simpl in Hw.
    + injection Hw as -> <-. exact H0.
    + injection Hw as _ Hw. destruct w1; discriminate.
  - apply snoc_split in Hw as [(-> & -> & ->)|(w2' & -> & ->)].
    + exact H0.
    + change (trail g s (w0 ++ (x :: w2') ++ [t]) t). rewrite app_assoc.
      econstructor; [|exact Hl]. now apply IH.
Qed.

Lemma trail_nodes g s w t :
  trail g s w t → w = [s] ∨ ∀ x, x ∈ w → is_Some (simple.nodes g !! x).
Proof.
  induction 1 as [|w u t H IH (_ & Hu & Ht)]; [now left|]. right.
  intros x [Hx|Hx]%elem_of_app.
  - destruct IH as [->|IH]; [|auto].
    apply list_elem_of_singleton in Hx as ->.
    inversion H as [|w' u' t' H' _ Hw']; subst; [exact Hu|].
    apply trail_length in H'. destruct w' as [|a [|b w']]; simpl in *; [lia|discriminate..].
  - apply list_elem_of_singleton in Hx as ->. exact Ht.
Qed.

Lemma duplicate_split (w : list Z) :
  ¬ NoDup w → ∃ w1 x w2 w3, w = w1 ++ x :: w2 ++ x :: w3.
Proof.
  induction w as [|x w IH]; intros Hdup.
  - destruct Hdup. constructor.
  - destruct (decide (x ∈ w)) as [Hin|Hnin].
    + apply list_elem_of_split in Hin as (w2 & w3 & ->). now exists [], x, w2, w3.
    + destruct IH as (w1 & y & w2 & w3 & ->).
      { intros Hnd. apply Hdup. now constructor. }
      now exists (x :: w1), y, w2, w3.
Qed.

Lemma nodes_pigeonhole (g : simple.DirectedGraph) (w : list Z) :
  NoDup w → (∀ x, x ∈ w → is_Some (simple.nodes g !! x)) →
  (length w ≤ size (simple.nodes g))%nat.
Proof.
  intros Hnd Hin. rewrite <- length_map_to_list, <- (length_fmap fst).
  apply submseteq_length, NoDup_submseteq; [exact Hnd|].
  intros x [v Hv]%Hin. apply list_elem_of_fmap. exists (x, v). split; [reflexivity|].
  now apply elem_of_map_to_list.
Qed.

(** A walk with as many edges as the graph has nodes repeats a node and
    can be cut short. *)
Lemma walk_shorten g s k t :
  walk g s k t → (1 ≤ k)%nat → (size (simple.nodes g) ≤ k)%nat →
  ∃ j, (j < k)%nat ∧ walk g s j t.
Proof.
  intros (w & Hw & Hlen)%walk_trail Hk Hsize.
  destruct (trail_nodes g s w t Hw) as [->|Hnodes]; [simpl in Hlen; lia|].
  destruct (duplicate_split w) as (w1 & x & w2 & w3 & ->).
  { intros Hnd. pose proof (nodes_pigeonhole g w Hnd Hnodes). lia. }
  pose proof (trail_prefix g s w1 x _ t Hw) as Hpre.
  assert (Hcut : trail g s (w1 ++ x :: w3) t).
  { apply (trail_resume g s (w1 ++ x :: w2) x w3 t w1); [|exact Hpre].
    now rewrite <- app_assoc. }
  exists (length (w1 ++ x :: w3) - 1)%nat. split.
  - rewrite !length_app in *. simpl in *. rewrite length_app in Hlen. simpl in Hlen. lia.
  - apply walk_trail. exists (w1 ++ x :: w3). split; [exact Hcut|].
    rewrite length_app. simpl. lia.
Qed.

(** From a node of the graph, [hops] finds the length of a shortest walk
    whenever there is a walk at all. *)
Lemma hops_complete g s t k :
  is_Some (simple.nodes g !! s) → walk g s k t →
  ∃ j, path.hops g s t = Some j ∧ (j ≤ k)%nat.
Proof.
  intros Hs. induction k as [k IH] using lt_wf_ind. intros Hwalk.
  destruct (decide (k < size (simple.nodes g))%nat) as [Hlt|Hge].
  - destruct (path.hops g s t) as [j|] eqn:Hh.
    + exists j. split; [reflexivity|].
      apply hops_shortest in Hh as [_ Hmin].
      destruct (decide (j ≤ k)%nat); [assumption|]. exfalso. apply (Hmin k); [lia|assumption].
    + exfalso. exact (hops_none g s t k Hh Hlt Hwalk).
  - assert (Hpos : size (simple.nodes g) ≠ O).
    { intros H0. apply map_size_empty_iff in H0. rewrite H0, lookup_empty in Hs.
      destruct Hs; discriminate. }
    destruct (walk_shorten g s k t Hwalk) as (j & Hj & Hwj); [lia..|].
    destruct (IH j Hj Hwj) as (i & Hi & Hle). exists i. split; [exact Hi|lia].
Qed.

(** [hops] answers none exactly when no walk leads from [s] to [t]. *)
Lemma hops_unreachable g s t :
  is_Some (simple.nodes g !! s) →
  path.hops g s t = None ↔ ∀ k, ¬ walk g s k t.
Proof.
  intros Hs. split.
  - intros Hh k Hwalk. destruct (hops_complete g s t k Hs Hwalk) as (j & Hj & _). congruence.
  - intros Hno. destruct (path.hops g s t) as [k|] eqn:Hh; [|reflexivity].
    apply hops_shortest in Hh as [Hw _]. now apply Hno in Hw.
Qed.

(** ** Independence of the order of iteration *)

Lemma selectBestPaths_untied sched1 sched2 g paths :
  fair sched1 → fair sched2 →
  Forall (λ p, is_Some (lastKey g p)) paths → untied g paths →
  selectBestPaths sched1 g paths = selectBestPaths sched2 g paths.
Proof.
  intros Hf1 Hf2 Hall [Hlen|(k & Hk)].
  - destruct paths as [|p [|q paths]]; [reflexivity..|simpl in Hlen; lia].
  - destruct (decide (2 ≤ length paths)%nat) as [Hlen|Hlen].
    + destruct (selectBestPaths_chosen sched1 g paths Hf1 Hlen Hall) as (b1 & -> & H1).
      destruct (selectBestPaths_chosen sched2 g paths Hf2 Hlen Hall) as (b2 & -> & H2).
      assert (b1 = k) as ->.
      { destruct (decide (b1 = k)) as [|Hne]; [assumption|].
        specialize (Hk _ Hne). specialize (H1 k). lia. }
      assert (b2 = k) as ->.
      { destruct (decide (b2 = k)) as [|Hne]; [assumption|].
        specialize (Hk _ Hne). specialize (H2 k). lia. }
      reflexivity.
    + destruct paths as [|p [|q paths]]; [reflexivity..|simpl in Hlen; lia].
Qed.

Lemma recordStep_twice c o : recordStep c (recordStep c o) = recordStep c o.
Proof. destruct c as [[conf [k|]]|], o as [rec|]; reflexivity. Qed.

Lemma lookup_tableStep_ne sched r src (tb : gmap string TrustedKeyRecord) kv n :
  kv.1 ≠ n → tableStep sched r src tb kv !! n = tb !! n.
Proof.
  intros Hne. unfold tableStep, KeyTable.updateConfidence.
  destruct (confidenceOf sched r src kv.2) as [c|]; [|reflexivity].
  destruct (tb !! kv.1); [|reflexivity].
  destruct c.2; now rewrite lookup_insert_ne.
Qed.

Lemma lookup_tableStep_eq sched r src (tb : gmap string TrustedKeyRecord) n v :
  tableStep sched r src tb (n, v) !! n = recordStep (confidenceOf sched r src v) (tb !! n).
Proof.
  unfold tableStep, KeyTable.updateConfidence, recordStep. simpl.
  destruct (confidenceOf sched r src v) as [c|]; [|reflexivity].
  destruct (tb !! n) as [rec|] eqn:Hn; [|exact Hn].
  destruct c.2; now rewrite lookup_insert_eq.
Qed.

Lemma lookup_tableSteps sched r src L (tb : gmap string TrustedKeyRecord) n v :
  (∀ kv, kv ∈ L → kv.1 = n → kv.2 = v) →
  foldl (tableStep sched r src) tb L !! n
  = if decide (n ∈ L.*1) then recordStep (confidenceOf sched r src v) (tb !! n) else tb !! n.
Proof.
  revert tb. induction L as [|[m w] L IH]; intros tb HL.
  - destruct (decide (n ∈ [].*1)) as [H|_]; [inversion H|reflexivity].
  - cbn [foldl]. rewrite IH by (intros kv Hin; apply HL; now right).
    destruct (decide (m = n)) as [->|Hne].
    + assert (w = v) as -> by (apply (HL (n, w)); [left|reflexivity]).
      rewrite lookup_tableStep_eq, recordStep_twice.
      destruct (decide (n ∈ ((n, v) :: L).*1)) as [_|Hnin]; [|destruct Hnin; rewrite fmap_cons; left].
      now destruct (decide (n ∈ L.*1)).
    + rewrite lookup_tableStep_ne by exact Hne.
      destruct (decide (n ∈ L.*1)) as [Hin|Hnin];
        destruct (decide (n ∈ ((m, w) :: L).*1)) as [Hin'|Hnin']; try reflexivity.
      * destruct Hnin'. rewrite fmap_cons. now right.
      * exfalso. rewrite fmap_cons in Hin'. simpl in Hin'.
        apply elem_of_cons in Hin' as [Heq|Hin']; [now apply Hne|contradiction].
Qed.

(** The record [updateConfidence] leaves for each name, under a fair order:
    one application of [recordStep] for the names of the ring, nothing for
    the others. *)
Lemma updateConfidence_lookup sched r r1 src n :
  wf r → fair sched → ids r !! source r = Some src →
  updateConfidence sched r = Some r1 →
  keyTable r1 !! n
  = match ids r !! n with
    | Some v => recordStep (confidenceOf sched r src v) (keyTable r !! n)
    | None => keyTable r !! n
    end.
Proof.
  intros Hwf Hfair Hs Hu. unfold updateConfidence in Hu. rewrite Hs in Hu. simpl in Hu.
  rewrite (wf_known_node r _ src Hwf Hs) in Hu. simpl in Hu.
  rewrite (confidence_loop sched r src) in Hu; [|reflexivity..|].
  - injection Hu as <-. simpl.
    destruct (ids r !! n) as [v|] eqn:Hn.
    + rewrite (lookup_tableSteps sched r src _ _ n v).
      * destruct (decide _) as [_|Hnin]; [reflexivity|]. destruct Hnin.
        apply list_elem_of_fmap. exists (n, v). split; [reflexivity|].
        now apply rangeMap_fair.
      * intros [m w] Hin Hm. simpl in *. subst m. apply rangeMap_lookup in Hin. congruence.
    + rewrite (lookup_tableSteps sched r src _ _ n src).
      * destruct (decide _) as [Hin|_]; [|reflexivity].
        apply list_elem_of_fmap in Hin as ([m w] & Hm & Hin). simpl in Hm. subst m.
        apply rangeMap_lookup in Hin. congruence.
      * intros [m w] Hin Hm. simpl in *. subst m. apply rangeMap_lookup in Hin. congruence.
  - intros [m w] Hin. apply rangeMap_lookup in Hin. eauto using confidenceOf_total.
Qed.

(** With fewer than two shortest paths to a node, the confidence and the
    key computed for it depend on no order. *)
Lemma confidenceOf_single sched1 sched2 r src n v :
  wf r → ids r !! n = Some v → fair_paths sched1 → fair_paths sched2 →
  (length (path.shortest (graph r) src v) < 2)%nat →
  confidenceOf sched1 r src v = confidenceOf sched2 r src v.
Proof.
  intros Hwf Hv Hp1 Hp2 Hlen. unfold confidenceOf.
  rewrite (wf_known_node r n v Hwf Hv). simpl. unfold path.AllBetween.
  rewrite (arrange_short _ _ (Hp1 _) Hlen), (arrange_short _ _ (Hp2 _) Hlen).
  destruct (path.shortest (graph r) src v) as [|p [|q l]]; [reflexivity..|].
  simpl in Hlen. lia.
Qed.

(** Two runs in a row, each in fair orders of its own, leave the same
    record as one run for every name with fewer than two shortest paths. *)
Lemma updateConfidence_twice_single sched1 sched2 r r1 r2 src n :
  wf r → fair sched1 → fair sched2 → fair_paths sched1 → fair_paths sched2 →
  ids r !! source r = Some src →
  updateConfidence sched1 r = Some r1 → updateConfidence sched2 r1 = Some r2 →
  (∀ v, ids r !! n = Some v → (length (path.shortest (graph r) src v) < 2)%nat) →
  keyTable r2 !! n = keyTable r1 !! n.
Proof.
  intros Hwf Hf1 Hf2 Hp1 Hp2 Hs H1 H2 Hun.
  pose proof (updateConfidence_frame _ _ _ H1) as ((Hsrc & _) & Hids & Hg & _ & Hh & _).
  pose proof (updateConfidence_wf _ _ _ Hwf H1) as Hwf1.
  rewrite (updateConfidence_lookup sched2 r1 r2 src n Hwf1 Hf2) by congruence.
  rewrite (updateConfidence_lookup sched1 r r1 src n Hwf Hf1 Hs H1).
  rewrite Hids. destruct (ids r !! n) as [v|] eqn:Hn; [|reflexivity].
  rewrite (confidenceOf_ext sched2 r r1 src v Hg Hh).
  rewrite (confidenceOf_single sched2 sched1 r src n v Hwf Hn Hp2 Hp1 (Hun v eq_refl)).
  apply recordStep_twice.
Qed.

(** With two shortest paths the order in which they are listed shows: on
    the ring [ringOdd] the two paths to C assert two keys under one tag, and
    the key computed for C is that of the path listed last. *)
Example path_order_shows :
  snd <$> confidenceOf inOrder ringOdd (nodeOf ringOdd "R") (nodeOf ringOdd "C")
  = Some (Some K_E2) ∧
  snd <$> confidenceOf backwards ringOdd (nodeOf ringOdd "R") (nodeOf ringOdd "C")
  = Some (Some K_E1).
Proof. vm_compute. split; reflexivity. Qed.

(** C8, amended: on a well-formed ring two runs of [updateConfidence] in a
    row return, whatever fair order each iterates the maps and lists the
    paths in, and store, for every name with fewer than two shortest paths
    from the source, the key and the confidence that one run stores; a
    second run in the orders of the first returns the very state the first
    one produced. *)
Theorem updateConfidence_idempotent sched1 sched2 r :
  wf r → fair sched1 → fair sched2 → fair_paths sched1 → fair_paths sched2 →
  ∃ r1 r2 src,
    ids r !! source r = Some src ∧
    updateConfidence sched1 r = Some r1 ∧ updateConfidence sched2 r1 = Some r2 ∧
    (∀ n, (∀ v, ids r !! n = Some v →
                (length (path.shortest (graph r) src v) < 2)%nat) →
          keyTable r2 !! n = keyTable r1 !! n) ∧
    updateConfidence sched1 r1 = Some r1.
Proof.
  intros Hwf Hf1 Hf2 Hp1 Hp2. pose proof Hwf as (_ & _ & [src Hs] & _).
  destruct (updateConfidence_same_order sched1 r Hwf) as (r1 & H1 & Hsame).
  pose proof (updateConfidence_wf _ _ _ Hwf H1) as Hwf1.
  destruct (updateConfidence_total sched2 r1 Hwf1) as (r2 & H2 & _).
  exists r1, r2, src. repeat (split; [assumption|]). split; [|exact Hsame].
  intros n Hun. eauto using updateConfidence_twice_single.
Qed.

Lemma updateConfidence_idempotent_witness :
  wf ringTie ∧ fair inOrder ∧ fair backwards ∧ fair_paths inOrder ∧ fair_paths backwards ∧
  ∃ r1 r2 src,
    ids ringTie !! source ringTie = Some src ∧
    updateConfidence inOrder ringTie = Some r1 ∧ updateConfidence backwards r1 = Some r2 ∧
    (∀ n, (∀ v, ids ringTie !! n = Some v →
                (length (path.shortest (graph ringTie) src v) < 2)%nat) →
          keyTable r2 !! n = keyTable r1 !! n) ∧
    updateConfidence inOrder r1 = Some r1.
Proof.
  assert (H : wf ringTie) by (apply (bool_decide_unpack _); vm_compute; exact I).
  split; [exact H|]. split; [exact fair_inOrder|]. split; [exact fair_backwards|].
  split; [exact fair_paths_inOrder|]. split; [exact fair_paths_backwards|].
  exact (updateConfidence_idempotent inOrder backwards ringTie H fair_inOrder fair_backwards
           fair_paths_inOrder fair_paths_backwards).
Defined.

(** * Further properties of the operations *)

(** ** Construction, step by step *)

Lemma NewKeyRing_snoc owner key recs rec thr :
  NewKeyRing owner key (recs ++ [rec]) thr
  = NewKeyRing owner key recs thr ≫= λ r, bootstrap (rootNode owner) r rec.
Proof.
  unfold NewKeyRing. fold (rootNode owner).
  destruct (simple.AddNode (rootNode owner) simple.NewDirectedGraph) as [g|]; [|reflexivity].
  simpl. rewrite foldlM_app. 
  match goal with |- ?m ≫= _ = _ => destruct m as [r|] end; [|reflexivity].
  simpl. destruct (bootstrap (rootNode owner) r rec); reflexivity.
Qed.

Lemma bootstrap_star owner recs rec r :
  star owner recs r →
  bootstrap (rootNode owner) r rec
  = Some {| source := source r;
            ids := <[Owner (keyRecord rec) := bootNode (length recs) rec]> (ids r);
            graph := {| simple.nodes := <[Z.of_nat (S (length recs)) := bootNode (length recs) rec]>
                                          (simple.nodes (graph r));
                        simple.edges := <[(0, Z.of_nat (S (length recs))) := bootEdge owner (length recs) rec]>
                                          (simple.edges (graph r)) |};
            nextNode := nextNode r + 1;
            keyTable := KeyTable.add (trusted (Owner (keyRecord rec)) (KeyPub (keyRecord rec)) (Confidence rec))
                                     (keyTable r);
            pending := pending r; threshold := threshold r; stopped := stopped r;
            heap := <[S (length recs) := F32.one]> (heap r);
            nextPtr := S (nextPtr r) |}.
Proof.
  intros (Hn & Hp & _ & _ & _ & Hroot & _ & _ & Hdom & _ & _).
  assert (Hfresh : simple.nodes (graph r) !! Z.of_nat (S (length recs)) = None).
  { destruct (simple.nodes (graph r) !! Z.of_nat (S (length recs))) as [v|] eqn:Hv; [|reflexivity].
    apply Hdom in Hv. lia. }
  unfold bootstrap, simple.AddNode, simple.Has. simpl. rewrite Hn, Hp, Hfresh.
  rewrite bool_decide_eq_false_2 by (intros [? ?]; discriminate). simpl.
  unfold simple.SetEdge. simpl.
  destruct (decide (0 = Z.of_nat (S (length recs)))) as [He|_]; [lia|]. simpl.
  unfold simple.ensureNode. simpl.
  rewrite lookup_insert_ne by lia. rewrite Hroot. simpl.
  rewrite lookup_insert_eq. reflexivity.
Qed.

Lemma NewKeyRing_nil owner key thr :
  NewKeyRing owner key [] thr
  = Some {| source := owner; ids := <[owner := rootNode owner]> ∅;
            graph := {| simple.nodes := <[0 := rootNode owner]> ∅; simple.edges := ∅ |};
            nextNode := 1;
            keyTable := <[owner := trusted owner key F32.one]> ∅;
            pending := []; threshold := thr; stopped := false;
            heap := <[O := F32.one]> ∅; nextPtr := 1%nat |}.
Proof. reflexivity. Qed.

Lemma NewKeyRing_star owner key recs thr :
  ∃ r, NewKeyRing owner key recs thr = Some r ∧ star owner recs r ∧ threshold r = thr.
Proof.
  induction recs as [|rec recs IH] using rev_ind.
  - eexists. split; [apply NewKeyRing_nil|]. split; [|reflexivity].
    unfold star; simpl.
    split; [done|]. split; [done|]. split; [done|]. split; [done|]. split; [done|].
    split; [apply lookup_insert_eq|]. split; [apply lookup_insert_eq|].
    split; [|split; [|split]].
    + rewrite map_size_insert_None by apply lookup_empty. now rewrite map_size_empty.
    + intros i n H. apply lookup_insert_Some in H as [[<- _]|[_ H]]; [lia|].
      rewrite lookup_empty in H. done.
    + intros i rec H. done.
    + intros u v e H. rewrite lookup_empty in H. done.
  - destruct IH as (r & Hr & Hs & Ht).
    rewrite NewKeyRing_snoc, Hr. simpl. rewrite (bootstrap_star _ _ _ _ Hs).
    eexists. split; [reflexivity|]. split; [|exact Ht].
    destruct Hs as (Hn & Hp & Hsrc & Hpend & Hstop & Hroot & Hh0 & Hsize & Hdom & Hrec & Hedge).
    unfold star; simpl. rewrite length_app. simpl.
    split; [lia|]. split; [lia|]. split; [done|]. split; [done|]. split; [done|].
    split; [rewrite lookup_insert_ne by lia; exact Hroot|].
    split; [rewrite lookup_insert_ne by lia; exact Hh0|].
    split; [|split; [|split]].
    + rewrite map_size_insert_None; [lia|].
      destruct (simple.nodes (graph r) !! Z.of_nat (S (length recs))) as [v|] eqn:Hv; [|reflexivity].
      apply Hdom in Hv. lia.
    + intros i n Hi. apply lookup_insert_Some in Hi as [[<- _]|[_ Hi]]; [lia|].
      apply Hdom in Hi. lia.
    + intros i rec' Hi.
      destruct (decide (i = length recs)) as [->|Hne].
      * rewrite list_lookup_middle in Hi by reflexivity. injection Hi as <-.
        rewrite !lookup_insert_eq. done.
      * assert (Hi' : recs !! i = Some rec').
        { rewrite lookup_app_l in Hi; [exact Hi|].
          apply lookup_lt_Some in Hi. rewrite length_app in Hi. simpl in Hi. lia. }
        apply lookup_lt_Some in Hi' as Hlt.
        destruct (Hrec _ _ Hi') as (H1 & H2 & H3).
        rewrite !lookup_insert_ne; [done|lia|intros [=]; lia|lia].
    + intros u v e He. apply lookup_insert_Some in He as [[[= <- <-] _]|[_ He]]; [lia|].
      apply Hedge in He. lia.
Qed.

Lemma trusted_eta rec :
  trusted (Owner (keyRecord rec)) (KeyPub (keyRecord rec)) (Confidence rec) = rec.
Proof. destruct rec as [[o k] c]. reflexivity. Qed.

Lemma NewKeyRing_indexed owner key recs thr :
  ∃ r, NewKeyRing owner key recs thr = Some r ∧ star owner recs r ∧ threshold r = thr ∧
       indexed owner key recs r.
Proof.
  induction recs as [|rec recs IH] using rev_ind.
  - destruct (NewKeyRing_star owner key [] thr) as (r & Hr & Hs & Ht).
    exists r. split; [exact Hr|]. split; [exact Hs|]. split; [exact Ht|].
    rewrite NewKeyRing_nil in Hr. injection Hr as <-.
    unfold indexed, names. simpl.
    split; [|split; [|split]].
    + intros n. rewrite lookup_insert_is_Some, lookup_empty. split.
      * intros [->|[_ [? ?]]]; [now left|done].
      * intros [->|H]; [now left|]. now apply elem_of_nil in H.
    + intros n. rewrite lookup_insert_is_Some, lookup_empty. split.
      * intros [->|[_ [? ?]]]; [now left|done].
      * intros [->|H]; [now left|]. now apply elem_of_nil in H.
    + intros i rec [H _]. done.
    + intros _. split; apply lookup_insert_eq.
  - destruct IH as (r & Hr & Hs & Ht & Hi1 & Hi2 & Hi3 & Hi4).
    destruct (NewKeyRing_star owner key (recs ++ [rec]) thr) as (r' & Hr' & Hs' & Ht').
    exists r'. split; [exact Hr'|]. split; [exact Hs'|]. split; [exact Ht'|].
    rewrite NewKeyRing_snoc, Hr in Hr'. simpl in Hr'.
    rewrite (bootstrap_star _ _ _ _ Hs) in Hr'. injection Hr' as <-.
    unfold indexed, names, KeyTable.add. simpl. rewrite fmap_app. simpl.
    fold (names recs). rewrite trusted_eta.
    split; [|split; [|split]].
    + intros n. rewrite lookup_insert_is_Some, Hi1, elem_of_app, list_elem_of_singleton.
      destruct (decide (Owner (keyRecord rec) = n)); intuition congruence.
    + intros n. rewrite lookup_insert_is_Some, Hi2, elem_of_app, list_elem_of_singleton.
      destruct (decide (Owner (keyRecord rec) = n)); intuition congruence.
    + intros i rec' [Hi Hlast].
      destruct (decide (i = length recs)) as [->|Hne].
      * rewrite list_lookup_middle in Hi by reflexivity. injection Hi as <-.
        rewrite !lookup_insert_eq. done.
      * assert (Hi' : recs !! i = Some rec').
        { rewrite lookup_app_l in Hi; [exact Hi|].
          apply lookup_lt_Some in Hi. rewrite length_app in Hi. simpl in Hi. lia. }
        apply lookup_lt_Some in Hi' as Hlt.
        assert (Hdiff : Owner (keyRecord rec) ≠ Owner (keyRecord rec')).
        { intros Heq. specialize (Hlast (length recs) rec).
          rewrite list_lookup_middle in Hlast by reflexivity.
          specialize (Hlast eq_refl Heq). lia. }
        rewrite !lookup_insert_ne by exact Hdiff.
        apply Hi3. split; [exact Hi'|].
        intros j rec'' Hj Hn. apply (Hlast j rec''); [|exact Hn].
        apply lookup_app_l_Some. exact Hj.
    + intros Hnot.
      rewrite elem_of_app, list_elem_of_singleton in Hnot.
      assert (Hdiff : Owner (keyRecord rec) ≠ owner) by (intros Heq; apply Hnot; now right).
      rewrite !lookup_insert_ne by exact Hdiff. apply Hi4. intros Hin. apply Hnot. now left.
Qed.

(** ** Construction, in full *)

(** X1. [NewKeyRing] returns for every owner, key, list of bootstrap records
    and threshold, whatever names the list repeats: no node id is taken
    twice and no edge joins a node to itself. The ring it returns is well
    formed, running, with an empty queue, the given threshold, the owner as
    source and one node for the owner plus one for every record of the
    list. *)
Theorem NewKeyRing_returns owner key trustedRecords thr :
  ∃ r, NewKeyRing owner key trustedRecords thr = Some r ∧ wf r ∧
       source r = owner ∧ threshold r = thr ∧ stopped r = false ∧ pending r = [] ∧
       nextNode r = Z.of_nat (S (length trustedRecords)) ∧
       size (simple.nodes (graph r)) = S (length trustedRecords).
Proof.
  destruct (NewKeyRing_star owner key trustedRecords thr)
    as (r & Hr & (Hn & _ & Hsrc & Hpend & Hstop & _ & _ & Hsize & _) & Ht).
  destruct (NewKeyRing_wf owner key trustedRecords thr) as (r' & Hr' & Hwf).
  rewrite Hr in Hr'. injection Hr' as <-.
  exists r. done.
Qed.

(** X2. The graph [NewKeyRing] builds is a star: node 0 is the owner's, the
    record of index [i] gets node [i + 1], named after it, and the edge from
    node 0 to that node carrying its key; the graph has no other edge, and
    every probability is 1.0. *)
Theorem NewKeyRing_graph owner key trustedRecords thr :
  ∃ r, NewKeyRing owner key trustedRecords thr = Some r ∧
       simple.Node (graph r) 0 = Some (rootNode owner) ∧
       load (heap r) (rootNode owner) = F32.one ∧
       (∀ i rec, trustedRecords !! i = Some rec →
          simple.Node (graph r) (Z.of_nat (S i)) = Some (bootNode i rec) ∧
          simple.Edge (graph r) (rootNode owner) (bootNode i rec)
          = Some {| F := rootNode owner; T := bootNode i rec; Key := KeyPub (keyRecord rec) |} ∧
          load (heap r) (bootNode i rec) = F32.one) ∧
       (∀ u v e, simple.edges (graph r) !! (u, v) = Some e →
          u = 0 ∧ 1 ≤ v ≤ Z.of_nat (length trustedRecords)).
Proof.
  destruct (NewKeyRing_star owner key trustedRecords thr)
    as (r & Hr & (_ & _ & _ & _ & _ & Hroot & Hh0 & _ & _ & Hrec & Hedge) & _).
  exists r. split; [exact Hr|]. split; [exact Hroot|].
  split; [unfold load; simpl; now rewrite (lookup_total_correct _ _ _ Hh0)|].
  split; [|exact Hedge].
  intros i rec Hi. destruct (Hrec _ _ Hi) as (H1 & H2 & H3).
  split; [exact H1|]. split; [exact H2|].
  unfold load. simpl. now rewrite (lookup_total_correct _ _ _ H3).
Qed.

Lemma elem_of_getPeerList (tb : KeyTable.t) n :
  n ∈ KeyTable.getPeerList tb ↔ is_Some (tb !! n).
Proof.
  unfold KeyTable.getPeerList. rewrite list_elem_of_fmap. split.
  - intros ([k v] & -> & Hkv). apply elem_of_map_to_list in Hkv. eauto.
  - intros [v Hv]. exists (n, v). split; [reflexivity|]. now apply elem_of_map_to_list.
Qed.

(** X3. The names a new ring knows, as nodes ([contains]) and as records
    ([GetPeerList]), are the owner and the names of the bootstrap list. *)
Theorem NewKeyRing_names owner key trustedRecords thr :
  ∃ r, NewKeyRing owner key trustedRecords thr = Some r ∧
       ∀ n, (contains r n = true ↔ n = owner ∨ n ∈ names trustedRecords) ∧
            (n ∈ GetPeerList r ↔ n = owner ∨ n ∈ names trustedRecords).
Proof.
  destruct (NewKeyRing_indexed owner key trustedRecords thr)
    as (r & Hr & _ & _ & Hids & Htb & _).
  exists r. split; [exact Hr|]. intros n. split.
  - unfold contains. rewrite bool_decide_eq_true. apply Hids.
  - unfold GetPeerList. rewrite elem_of_getPeerList. apply Htb.
Qed.

(** X4. When the bootstrap list repeats a name, the last record of that name
    wins: the name is bound to the node created for it, and [GetRecord]
    returns that record, with the confidence the caller gave. When no record
    carries the owner's name, the owner is bound to node 0 and its record
    has the given key and the confidence 1.0. *)
Theorem NewKeyRing_last_wins owner key trustedRecords thr :
  ∃ r, NewKeyRing owner key trustedRecords thr = Some r ∧
       (∀ i rec, lastNamed trustedRecords i rec →
          ids r !! Owner (keyRecord rec) = Some (bootNode i rec) ∧
          GetRecord r (Owner (keyRecord rec)) = (rec, true)) ∧
       (owner ∉ names trustedRecords →
          ids r !! owner = Some (rootNode owner) ∧
          GetRecord r owner = (trusted owner key F32.one, true)).
Proof.
  destruct (NewKeyRing_indexed owner key trustedRecords thr)
    as (r & Hr & _ & _ & _ & _ & Hlast & Hroot).
  exists r. split; [exact Hr|]. unfold GetRecord, KeyTable.get. split.
  - intros i rec Hi. destruct (Hlast _ _ Hi) as [H1 H2]. now rewrite H1, H2.
  - intros Hn. destruct (Hroot Hn) as [H1 H2]. now rewrite H1, H2.
Qed.

Lemma walk_zero g s t : walk g s O t → t = s.
Proof. inversion 1. reflexivity. Qed.

Lemma walk_first g s k t : walk g s k t → k ≠ O → ∃ v e, simple.edges g !! (s, v) = Some e.
Proof.
  induction 1 as [|k u t e Hw IH He Hu Ht]; [done|]. intros _.
  destruct k as [|k].
  - apply walk_zero in Hw. subst u. eauto.
  - apply IH. done.
Qed.

Lemma lastNamed_exists recs n :
  n ∈ names recs → ∃ i rec, lastNamed recs i rec ∧ Owner (keyRecord rec) = n.
Proof.
  induction recs as [|x recs IH] using rev_ind.
  - intros H. now apply elem_of_nil in H.
  - unfold names. rewrite fmap_app, elem_of_app. simpl. fold (names recs).
    rewrite list_elem_of_singleton. intros Hin.
    destruct (decide (Owner (keyRecord x) = n)) as [Hx|Hx].
    + exists (length recs), x. split; [|exact Hx]. split.
      * now apply list_lookup_middle.
      * intros j rec' Hj _. apply lookup_lt_Some in Hj.
        rewrite length_app in Hj. simpl in Hj. lia.
    + destruct Hin as [Hin|Hin]; [|congruence].
      destruct (IH Hin) as (i & rec & [Hi Hlast] & Hn).
      exists i, rec. split; [|exact Hn]. split.
      * now apply lookup_app_l_Some.
      * intros j rec' Hj Hname.
        destruct (decide (j = length recs)) as [->|Hne].
        -- rewrite list_lookup_middle in Hj by reflexivity. injection Hj as <-. congruence.
        -- apply (Hlast j rec'); [|exact Hname].
           rewrite lookup_app_l in Hj; [exact Hj|].
           apply lookup_lt_Some in Hj. rewrite length_app in Hj. simpl in Hj. lia.
Qed.

(** X5. A bootstrap list that carries the owner's own name displaces the
    root: the source of the ring is then the node of the last such record,
    that record replaces the owner's, no edge leaves the source, and every
    other known name lies at an infinite distance from it, with no shortest
    path. *)
Theorem NewKeyRing_owner_listed owner key trustedRecords thr :
  owner ∈ names trustedRecords →
  ∃ r i rec,
    NewKeyRing owner key trustedRecords thr = Some r ∧
    lastNamed trustedRecords i rec ∧ Owner (keyRecord rec) = owner ∧
    ids r !! source r = Some (bootNode i rec) ∧
    GetRecord r owner = (rec, true) ∧
    (∀ v, simple.Edge (graph r) (bootNode i rec) v = None) ∧
    ∀ n v, ids r !! n = Some v → n ≠ owner →
      path.WeightTo (graph r) (bootNode i rec) v = F64.inf ∧
      ∀ order, path.AllBetween order (graph r) (bootNode i rec) v = [].
Proof.
  intros Hin. destruct (lastNamed_exists _ _ Hin) as (i & rec & Hlast & Hname).
  destruct (NewKeyRing_indexed owner key trustedRecords thr)
    as (r & Hr & Hstar & _ & _ & _ & Hl & _).
  destruct Hstar as (_ & _ & Hsrc & _ & _ & _ & _ & _ & _ & Hrec & Hedge).
  destruct (NewKeyRing_wf owner key trustedRecords thr) as (r' & Hr' & Hwf).
  rewrite Hr in Hr'. injection Hr' as <-.
  destruct (Hl _ _ Hlast) as [Hid Htb]. rewrite Hname in Hid, Htb.
  exists r, i, rec. split; [exact Hr|]. split; [exact Hlast|]. split; [exact Hname|].
  split; [now rewrite Hsrc|].
  split; [unfold GetRecord, KeyTable.get; now rewrite Htb|].
  assert (Hout : ∀ v e, simple.edges (graph r) !! (Z.of_nat (S i), v) ≠ Some e).
  { intros v e He. apply Hedge in He. lia. }
  split.
  { intros v. unfold simple.Edge. simpl.
    destruct (simple.edges (graph r) !! (Z.of_nat (S i), id v)) as [e|] eqn:He; [|reflexivity].
    now apply Hout in He. }
  intros n v Hv Hne.
  assert (Hnone : path.hops (graph r) (Z.of_nat (S i)) (id v) = None).
  { apply hops_unreachable.
    - destruct Hlast as [Hi _]. destruct (Hrec _ _ Hi) as (H1 & _). eauto.
    - intros k Hw. destruct k as [|k].
      + apply walk_zero in Hw.
        apply Hne. apply (wf_ids_inj r n owner v (bootNode i rec) Hwf Hv Hid). exact Hw.
      + apply walk_first in Hw as (u & e & He); [|done]. now apply Hout in He. }
  unfold path.WeightTo, path.AllBetween, path.shortest. simpl. rewrite Hnone.
  split; [reflexivity|]. intros order. apply arrange_nil.
Qed.

Lemma NewKeyRing_owner_listed_witness :
  "R" ∈ names [trusted "B" K_B f0_9; trusted "R" K_C F32.half] ∧
  ∃ r i rec,
    NewKeyRing "R" K_R [trusted "B" K_B f0_9; trusted "R" K_C F32.half] F32.half = Some r ∧
    lastNamed [trusted "B" K_B f0_9; trusted "R" K_C F32.half] i rec ∧
    Owner (keyRecord rec) = "R" ∧
    ids r !! source r = Some (bootNode i rec) ∧
    GetRecord r "R" = (rec, true) ∧
    (∀ v, simple.Edge (graph r) (bootNode i rec) v = None) ∧
    ∀ n v, ids r !! n = Some v → n ≠ "R" →
      path.WeightTo (graph r) (bootNode i rec) v = F64.inf ∧
      ∀ order, path.AllBetween order (graph r) (bootNode i rec) v = [].
Proof.
  assert (H : "R" ∈ names [trusted "B" K_B f0_9; trusted "R" K_C F32.half]).
  { apply (bool_decide_unpack _). vm_compute. exact I. }
  split; [exact H|].
  exact (NewKeyRing_owner_listed "R" K_R [trusted "B" K_B f0_9; trusted "R" K_C F32.half]
           F32.half H).
Defined.

(** ** Queueing *)

Lemma addNode_pending q n p r :
  addNode n p (with_pending q r) = with_pending q <$> addNode n p r.
Proof.
  unfold addNode. simpl. destruct (ids r !! n); [reflexivity|].
  change (graph (with_pending q r)) with (graph r).
  now destruct (simple.AddNode _ (graph r)).
Qed.

Lemma addEdge_pending q x y key r :
  addEdge x y key (with_pending q r)
  = (λ re, (with_pending q re.1, re.2)) <$> addEdge x y key r.
Proof.
  unfold addEdge. simpl. destruct (ids r !! x); [|reflexivity].
  destruct (ids r !! y); [|reflexivity].
  destruct (decide (x = y)); [reflexivity|].
  now destruct (simple.SetEdge _ (graph r)).
Qed.

Lemma updateConfidence_pending q sched r :
  updateConfidence sched (with_pending q r) = with_pending q <$> updateConfidence sched r.
Proof.
  unfold updateConfidence. simpl.
  destruct (ids r !! source r) as [s|]; simpl; [|reflexivity].
  destruct (simple.Node (graph r) (id s)) as [src|]; simpl; [|reflexivity].
  apply foldlM_commute. intros r' kv. unfold confidenceStep.
  change (confidenceOf sched (with_pending q r') src kv.2)
    with (confidenceOf sched r' src kv.2).
  now destruct (confidenceOf sched r' src kv.2).
Qed.

Lemma Add_pending q sched rec s rep r :
  Add sched rec s rep (with_pending q r) = with_pending q <$> Add sched rec s rep r.
Proof.
  unfold Add. change (contains (with_pending q r) s) with (contains r s).
  destruct (negb (contains r s)); [reflexivity|].
  destruct (decide (Owner rec = s)); [reflexivity|].
  rewrite addNode_pending.
  destruct (addNode (Owner rec) F32.zero r) as [r1|]; simpl; [|reflexivity].
  rewrite addEdge_pending.
  destruct (addEdge s (Owner rec) (KeyPub rec) r1) as [[r2 err]|]; simpl; [|reflexivity].
  destruct err; [reflexivity|].
  change (phi (Owner rec) rep (with_pending q r2)) with (phi (Owner rec) rep r2).
  destruct (phi (Owner rec) rep r2) as [p|]; simpl; [|reflexivity].
  rewrite addNode_pending.
  destruct (addNode (Owner rec) p r2) as [r3|]; simpl; [|reflexivity].
  apply updateConfidence_pending.
Qed.

(** X6. [AddUnverified] appends the message to the queue and touches
    nothing else: the answers of [GetKey], [GetRecord] and [contains] are
    those of before, and queueing a message before an [Add] or after it
    gives the same ring, since [Add] neither reads nor writes the queue. *)
Theorem AddUnverified_queue_only (msg : KeyExchangeMessage.t) (r : KeyRing) :
  pending (AddUnverified msg r) = pending r ++ [msg] ∧
  (∀ n, GetKey (AddUnverified msg r) n = GetKey r n ∧
        GetRecord (AddUnverified msg r) n = GetRecord r n ∧
        contains (AddUnverified msg r) n = contains r n) ∧
  ∀ sched rec s rep,
    Add sched rec s rep (AddUnverified msg r) = AddUnverified msg <$> Add sched rec s rep r.
Proof.
  split; [reflexivity|]. split; [now intros n|].
  intros sched rec s rep. unfold AddUnverified at 1. rewrite Add_pending.
  destruct (Add sched rec s rep r) as [r'|] eqn:HA; [|reflexivity].
  apply Add_shell in HA as (_ & Hp & _). simpl. unfold AddUnverified. now rewrite Hp.
Qed.

(** ** Nodes and edges *)

Lemma wf_dense (r : KeyRing) (i : Z) :
  wf r → 0 ≤ i < Z.of_nat (size (simple.nodes (graph r))) →
  is_Some (simple.nodes (graph r) !! i).
Proof.
  intros (_ & W2 & _) Hi.
  set (ns := simple.nodes (graph r)) in *.
  destruct (ns !! i) as [v|] eqn:Hv; [eauto|exfalso].
  set (keys := (map_to_list ns).*1).
  assert (Hnd : NoDup keys) by apply NoDup_fst_map_to_list.
  assert (Hlen : length keys = size ns).
  { unfold keys. now rewrite length_fmap, length_map_to_list. }
  set (range := filter (λ j, j ≠ i) (Z.of_nat <$> seq 0 (size ns))).
  assert (Hsub : keys ⊆+ range).
  { apply NoDup_submseteq; [exact Hnd|]. intros j Hj.
    unfold keys in Hj. apply list_elem_of_fmap in Hj as ([j' w] & -> & Hjw).
    apply elem_of_map_to_list in Hjw. simpl.
    apply list_elem_of_filter. split; [intros ->; congruence|].
    apply W2 in Hjw. simpl in Hjw.
    apply list_elem_of_fmap. exists (Z.to_nat j'). split; [lia|].
    apply elem_of_seq. lia. }
  apply submseteq_length in Hsub.
  assert (Hrange : (length range < size ns)%nat).
  { unfold range.
    assert (Hin : i ∈ Z.of_nat <$> seq 0 (size ns)).
    { apply list_elem_of_fmap. exists (Z.to_nat i). split; [lia|]. apply elem_of_seq. lia. }
    apply list_elem_of_split in Hin as (l1 & l2 & Heq). rewrite Heq.
    rewrite list.filter_app, filter_cons_False by (intros H; now apply H).
    assert (Hl : length (Z.of_nat <$> seq 0 (size ns)) = size ns)
      by now rewrite length_fmap, length_seq.
    rewrite Heq, length_app in Hl. simpl in Hl.
    rewrite length_app.
    pose proof (length_filter (λ j, j ≠ i) l1). pose proof (length_filter (λ j, j ≠ i) l2).
    lia. }
  lia.
Qed.

(** X7. [lastNode] returns the greatest index of the slice of nodes, one
    less than their number (0 for an empty graph), whatever ids the nodes
    carry. On a well-formed ring the ids are 0, 1, ... without a gap, so
    that this is the greatest id and the next one is free. *)
Theorem lastNode_counts (r : KeyRing) :
  lastNode r = Z.max 0 (Z.of_nat (size (simple.nodes (graph r))) - 1) ∧
  (wf r →
     is_Some (simple.Node (graph r) (lastNode r)) ∧
     simple.Node (graph r) (lastNode r + 1) = None ∧
     ∀ i v, simple.Node (graph r) i = Some v → 0 ≤ i ≤ lastNode r).
Proof.
  assert (Hl : lastNode r = Z.max 0 (Z.of_nat (size (simple.nodes (graph r))) - 1)).
  { unfold lastNode, simple.Nodes.
    rewrite max_index, length_fmap, length_map_to_list.
    destruct (decide _); lia. }
  split; [exact Hl|]. intros Hwf.
  pose proof (wf_nonempty r Hwf) as Hne.
  pose proof Hwf as (_ & W2 & _).
  split; [|split].
  - apply wf_dense; [exact Hwf|]. lia.
  - unfold simple.Node.
    destruct (simple.nodes (graph r) !! (lastNode r + 1)) as [v|] eqn:Hv; [|reflexivity].
    apply W2 in Hv. simpl in Hv. lia.
  - intros i v Hi. apply W2 in Hi. simpl in Hi. lia.
Qed.

Lemma addNode_cases n p r :
  wf r →
  ∃ r' v, addNode n p r = Some r' ∧ wf r' ∧
    ids r' !! n = Some v ∧ load (heap r') v = p ∧
    (∀ m, m ≠ n → ids r' !! m = ids r !! m) ∧
    (∀ m vm, m ≠ n → ids r !! m = Some vm → load (heap r') vm = load (heap r) vm) ∧
    simple.edges (graph r') = simple.edges (graph r) ∧
    match ids r !! n with
    | Some v0 => v = v0 ∧ graph r' = graph r ∧ nextNode r' = nextNode r
    | None => name v = n ∧ id v = Z.of_nat (size (simple.nodes (graph r))) ∧
              simple.Node (graph r) (id v) = None ∧
              simple.nodes (graph r') = <[id v := v]> (simple.nodes (graph r)) ∧
              nextNode r' = nextNode r + 1
    end.
Proof.
  intros Hwf. destruct (addNode_wf n p r Hwf) as (r' & Hr' & Hwf' & _ & _ & _).
  exists r'. revert Hr'. unfold addNode. destruct (ids r !! n) as [v0|] eqn:Hn.
  - intros [= <-]. exists v0. split; [reflexivity|]. split; [exact Hwf'|].
    split; [exact Hn|]. unfold load. simpl.
    split; [apply lookup_total_insert_eq|]. split; [done|].
    split; [|done].
    intros m vm Hm Hvm. apply lookup_total_insert_ne.
    destruct Hwf as (_ & _ & _ & W6 & _). intros Hp.
    apply Hm. symmetry. exact (W6 _ _ Hn _ _ Hvm Hp).
  - pose proof (lastNode_size r (wf_nonempty r Hwf)) as Hlast.
    destruct Hwf as (W1 & W2 & W4 & W6 & W7).
    assert (Hfresh : simple.nodes (graph r) !! (lastNode r + 1) = None).
    { destruct (simple.nodes (graph r) !! (lastNode r + 1)) as [v|] eqn:Hv; [|reflexivity].
      apply W2 in Hv. simpl in Hv. lia. }
    unfold simple.AddNode, simple.Has. simpl. rewrite Hfresh.
    rewrite bool_decide_eq_false_2 by (intros [? ?]; discriminate). simpl.
    intros [= <-]. eexists. split; [reflexivity|]. split; [exact Hwf'|]. simpl.
    split; [apply lookup_insert_eq|]. unfold load. simpl.
    split; [apply lookup_total_insert_eq|].
    split; [intros m Hm; now apply lookup_insert_ne|].
    split; [|split; [reflexivity|]].
    + intros m vm Hm Hvm. apply lookup_total_insert_ne.
      apply W7 in Hvm. simpl in Hvm. lia.
    + split; [reflexivity|]. split; [exact Hlast|]. split; [exact Hfresh|]. done.
Qed.

(** X8. On a well-formed ring [addNode(name, p)] returns and sets the
    probability of [name] to [p] without changing the probability or the
    node of any other name, nor any edge. A known name keeps its node and
    the graph is untouched; an unknown name gets a node whose id is the
    number of nodes so far, free until then. *)
Theorem addNode_updates_one n p r :
  wf r →
  ∃ r' v, addNode n p r = Some r' ∧ wf r' ∧
    ids r' !! n = Some v ∧ load (heap r') v = p ∧
    (∀ m, m ≠ n → ids r' !! m = ids r !! m) ∧
    (∀ m vm, m ≠ n → ids r !! m = Some vm → load (heap r') vm = load (heap r) vm) ∧
    simple.edges (graph r') = simple.edges (graph r) ∧
    match ids r !! n with
    | Some v0 => v = v0 ∧ graph r' = graph r ∧ nextNode r' = nextNode r
    | None => name v = n ∧ id v = Z.of_nat (size (simple.nodes (graph r))) ∧
              simple.Node (graph r) (id v) = None ∧
              simple.nodes (graph r') = <[id v := v]> (simple.nodes (graph r)) ∧
              nextNode r' = nextNode r + 1
    end.
Proof. apply addNode_cases. Qed.

Lemma addNode_updates_one_witness :
  wf ringS2 ∧
  ∃ r' v, addNode "D" F32.half ringS2 = Some r' ∧ wf r' ∧
    ids r' !! "D" = Some v ∧ load (heap r') v = F32.half ∧
    (∀ m, m ≠ "D" → ids r' !! m = ids ringS2 !! m) ∧
    (∀ m vm, m ≠ "D" → ids ringS2 !! m = Some vm →
       load (heap r') vm = load (heap ringS2) vm) ∧
    simple.edges (graph r') = simple.edges (graph ringS2) ∧
    match ids ringS2 !! "D" with
    | Some v0 => v = v0 ∧ graph r' = graph ringS2 ∧ nextNode r' = nextNode ringS2
    | None => name v = "D" ∧ id v = Z.of_nat (size (simple.nodes (graph ringS2))) ∧
              simple.Node (graph ringS2) (id v) = None ∧
              simple.nodes (graph r') = <[id v := v]> (simple.nodes (graph ringS2)) ∧
              nextNode r' = nextNode ringS2 + 1
    end.
Proof.
  assert (H : wf ringS2) by (apply (bool_decide_unpack _); vm_compute; exact I).
  split; [exact H|]. exact (addNode_updates_one "D" F32.half ringS2 H).
Defined.

(** X9. On a well-formed ring [addEdge(a, b, key)] returns an error exactly
    when [a] is unknown, [b] is unknown or the two names are equal, and the
    ring is then unchanged. Otherwise the graph has the edge from the node
    of [a] to the node of [b] with that key, in place of the edge between
    the two that it may have had; the nodes, every other edge, the names,
    the probabilities and the key table are as before. *)
Theorem addEdge_outcome a b key r :
  wf r →
  ∃ r' err, addEdge a b key r = Some (r', err) ∧
    (is_Some err ↔ contains r a = false ∨ contains r b = false ∨ a = b) ∧
    (is_Some err → r' = r) ∧
    (err = None → ∃ va vb,
       ids r !! a = Some va ∧ ids r !! b = Some vb ∧
       simple.Edge (graph r') va vb = Some {| F := va; T := vb; Key := key |} ∧
       simple.nodes (graph r') = simple.nodes (graph r) ∧
       (∀ u v, (u, v) ≠ (id va, id vb) →
          simple.edges (graph r') !! (u, v) = simple.edges (graph r) !! (u, v)) ∧
       ids r' = ids r ∧ heap r' = heap r ∧ keyTable r' = keyTable r ∧ wf r').
Proof.
  intros Hwf. unfold contains.
  destruct (ids r !! a) as [va|] eqn:Ha.
  2:{ exists r, (Some "adding edge with source non present"%string).
      unfold addEdge. rewrite Ha. split; [reflexivity|].
      split; [|split; [done|discriminate]].
      split; [intros _; left; apply bool_decide_eq_false_2; now intros [? ?]|eauto]. }
  destruct (ids r !! b) as [vb|] eqn:Hb.
  2:{ exists r, (Some "adding edge with destination non present"%string).
      unfold addEdge. rewrite Ha, Hb. split; [reflexivity|].
      split; [|split; [done|discriminate]].
      split; [intros _; right; left; apply bool_decide_eq_false_2; now intros [? ?]|eauto]. }
  destruct (decide (a = b)) as [Hab|Hab].
  { exists r, (Some "adding edge between same vertices"%string).
    unfold addEdge. rewrite Ha, Hb. destruct (decide (a = b)); [|contradiction].
    split; [reflexivity|]. split; [|split; [done|discriminate]].
    split; [intros _; now right; right|eauto]. }
  destruct (addEdge_wf a b key r va vb Hwf Ha Hb Hab) as (g & Hg & Hnodes & Hedges).
  exists (with_graph g r), None. split; [exact Hg|]. split; [|split].
  - split; [intros [? ?]; discriminate|].
    rewrite !bool_decide_eq_false. intros [H|[H|H]]; [| |contradiction].
    + exfalso. apply H. eauto.
    + exfalso. apply H. eauto.
  - intros [? ?]; discriminate.
  - intros _. exists va, vb. split; [reflexivity|]. split; [reflexivity|].
    unfold simple.Edge. simpl. rewrite Hedges.
    split; [apply lookup_insert_eq|]. split; [exact Hnodes|].
    split; [intros u v Huv; apply lookup_insert_ne; congruence|].
    split; [reflexivity|]. split; [reflexivity|]. split; [reflexivity|].
    now apply with_graph_wf.
Qed.

Lemma addEdge_outcome_witness :
  wf ringS2 ∧
  ∃ r' err, addEdge "R" "C" K_C' ringS2 = Some (r', err) ∧
    (is_Some err ↔ contains ringS2 "R" = false ∨ contains ringS2 "C" = false ∨ "R" = "C") ∧
    (is_Some err → r' = ringS2) ∧
    (err = None → ∃ va vb,
       ids ringS2 !! "R" = Some va ∧ ids ringS2 !! "C" = Some vb ∧
       simple.Edge (graph r') va vb = Some {| F := va; T := vb; Key := K_C' |} ∧
       simple.nodes (graph r') = simple.nodes (graph ringS2) ∧
       (∀ u v, (u, v) ≠ (id va, id vb) →
          simple.edges (graph r') !! (u, v) = simple.edges (graph ringS2) !! (u, v)) ∧
       ids r' = ids ringS2 ∧ heap r' = heap ringS2 ∧ keyTable r' = keyTable ringS2 ∧ wf r').
Proof.
  assert (H : wf ringS2) by (apply (bool_decide_unpack _); vm_compute; exact I).
  split; [exact H|]. exact (addEdge_outcome "R" "C" K_C' ringS2 H).
Defined.

(** ** What [Add] changes *)

Lemma same_but_table_eq r r' :
  same_but_table r r' → r' = with_keyTable (keyTable r') r.
Proof.
  intros ((H1 & H2 & H3 & H4) & H5 & H6 & H7 & H8 & H9).
  destruct r, r'. unfold with_keyTable. simpl in *. congruence.
Qed.

Lemma Add_effect sched rec s rep r vs :
  wf r → ids r !! s = Some vs → Owner rec ≠ s →
  ∃ r' vo src,
    Add sched rec s rep r = Some r' ∧ wf r' ∧
    ids r' !! s = Some vs ∧ ids r' !! Owner rec = Some vo ∧
    ids r' !! source r' = Some src ∧
    (∀ m, m ≠ Owner rec → ids r' !! m = ids r !! m) ∧
    simple.edges (graph r')
    = <[(id vs, id vo) := {| F := vs; T := vo; Key := KeyPub rec |}]>
        (simple.edges (graph r)) ∧
    match ids r !! Owner rec with
    | Some v0 => vo = v0 ∧ simple.nodes (graph r') = simple.nodes (graph r) ∧
                 nextNode r' = nextNode r
    | None => name vo = Owner rec ∧ id vo = Z.of_nat (size (simple.nodes (graph r))) ∧
              simple.nodes (graph r') = <[id vo := vo]> (simple.nodes (graph r)) ∧
              nextNode r' = nextNode r + 1
    end ∧
    load (heap r') vo
    = to_f32 (F64.min (F64.div F64.one (dist (graph r') src vo)) (to_f64 rep)) ∧
    (∀ m vm, m ≠ Owner rec → ids r !! m = Some vm →
       load (heap r') vm = load (heap r) vm).
Proof.
  intros Hwf Hs Hne.
  destruct (Add_steps sched rec s rep r vs Hwf Hs Hne)
    as (r1 & vo & g & p & r' & H1 & Hwf1 & Hs1 & Hvo & _ & Hgn & Hge & H3 & H4 & Hframe & HA).
  destruct (addNode_cases (Owner rec) F32.zero r Hwf)
    as (r1' & v & H1' & _ & Hv & _ & Hother & Hload & Hedges & Hcase).
  rewrite H1 in H1'. injection H1' as <-. rewrite Hvo in Hv. injection Hv as <-.
  pose proof (with_graph_wf g r1 Hgn Hwf1) as Hwf2.
  destruct (phi_known (Owner rec) rep (with_graph g r1) vo Hwf2 Hvo) as (src & Hsrc & H3').
  rewrite H3 in H3'. injection H3' as Hp.
  pose proof (same_but_table_wf _ _ Hframe
                (store_wf (probability vo) p _ Hwf2)) as Hwf'.
  destruct Hframe as ((Hsource & _) & Hids & Hg & Hnext & Hheap & _).
  simpl in Hsource, Hids, Hg, Hheap, Hsrc, Hnext.
  exists r', vo, src. split; [exact HA|]. split; [exact Hwf'|].
  rewrite Hids, Hsource, Hg, Hheap, Hnext. simpl.
  split; [exact Hs1|]. split; [exact Hvo|]. split; [exact Hsrc|]. split; [exact Hother|].
  split; [now rewrite Hge, Hedges|].
  split; [|split].
  - destruct (ids r !! Owner rec) as [v0|].
    + destruct Hcase as (-> & Hgr & Hnx). split; [reflexivity|]. now rewrite Hgn, Hgr.
    + destruct Hcase as (Hn & Hi & _ & Hnodes & Hnx). now rewrite Hgn.
  - unfold load. rewrite lookup_total_insert_eq. exact Hp.
  - intros m vm Hm Hvm. rewrite <- (Hload m vm Hm Hvm).
    unfold load. apply lookup_total_insert_ne.
    destruct Hwf1 as (_ & _ & _ & W6 & _). intros Hpp.
    apply Hm. symmetry.
    assert (Hvm1 : ids r1 !! m = Some vm) by (rewrite Hother by exact Hm; exact Hvm).
    exact (W6 _ _ Hvo _ _ Hvm1 Hpp).
Qed.

(** X10. The whole effect of an [Add(rec, s, rep)] on a well-formed ring
    whose signer [s] is known and is not the owner of the record: the call
    returns; the owner, if new, gets one node and every other name keeps
    its own; the graph gains the edge from the signer to the owner with the
    key of the record, replacing the edge between the two if there was one,
    and every other edge stays; the owner's probability becomes
    [float32(min(1/d, rep))], with [rep] as passed and [d] the distance in
    the new graph; the probability of every other name stays. *)
Theorem Add_changes sched rec s rep r vs :
  wf r → ids r !! s = Some vs → Owner rec ≠ s →
  ∃ r' vo src,
    Add sched rec s rep r = Some r' ∧ wf r' ∧
    ids r' !! s = Some vs ∧ ids r' !! Owner rec = Some vo ∧
    ids r' !! source r' = Some src ∧
    (∀ m, m ≠ Owner rec → ids r' !! m = ids r !! m) ∧
    simple.edges (graph r')
    = <[(id vs, id vo) := {| F := vs; T := vo; Key := KeyPub rec |}]>
        (simple.edges (graph r)) ∧
    match ids r !! Owner rec with
    | Some v0 => vo = v0 ∧ simple.nodes (graph r') = simple.nodes (graph r) ∧
                 nextNode r' = nextNode r
    | None => name vo = Owner rec ∧ id vo = Z.of_nat (size (simple.nodes (graph r))) ∧
              simple.nodes (graph r') = <[id vo := vo]> (simple.nodes (graph r)) ∧
              nextNode r' = nextNode r + 1
    end ∧
    load (heap r') vo
    = to_f32 (F64.min (F64.div F64.one (dist (graph r') src vo)) (to_f64 rep)) ∧
    (∀ m vm, m ≠ Owner rec → ids r !! m = Some vm →
       load (heap r') vm = load (heap r) vm).
Proof. apply Add_effect. Qed.

Lemma Add_changes_witness :
  wf ringS1 ∧ ids ringS1 !! "B" = Some (nodeOf ringS1 "B") ∧ "C" ≠ "B" ∧
  ∃ r' vo src,
    Add backwards {| Owner := "C"; KeyPub := K_C |} "B" F32.half ringS1 = Some r' ∧ wf r' ∧
    ids r' !! "B" = Some (nodeOf ringS1 "B") ∧ ids r' !! "C" = Some vo ∧
    ids r' !! source r' = Some src ∧
    (∀ m, m ≠ "C" → ids r' !! m = ids ringS1 !! m) ∧
    simple.edges (graph r')
    = <[(id (nodeOf ringS1 "B"), id vo) := {| F := nodeOf ringS1 "B"; T := vo; Key := K_C |}]>
        (simple.edges (graph ringS1)) ∧
    match ids ringS1 !! "C" with
    | Some v0 => vo = v0 ∧ simple.nodes (graph r') = simple.nodes (graph ringS1) ∧
                 nextNode r' = nextNode ringS1
    | None => name vo = "C" ∧ id vo = Z.of_nat (size (simple.nodes (graph ringS1))) ∧
              simple.nodes (graph r') = <[id vo := vo]> (simple.nodes (graph ringS1)) ∧
              nextNode r' = nextNode ringS1 + 1
    end ∧
    load (heap r') vo
    = to_f32 (F64.min (F64.div F64.one (dist (graph r') src vo)) (to_f64 F32.half)) ∧
    (∀ m vm, m ≠ "C" → ids ringS1 !! m = Some vm →
       load (heap r') vm = load (heap ringS1) vm).
Proof.
  assert (H : wf ringS1) by (apply (bool_decide_unpack _); vm_compute; exact I).
  assert (Hs : ids ringS1 !! "B" = Some (nodeOf ringS1 "B")) by reflexivity.
  assert (Hne : "C" ≠ "B") by discriminate.
  split; [exact H|]. split; [exact Hs|]. split; [exact Hne|].
  exact (Add_changes backwards {| Owner := "C"; KeyPub := K_C |} "B" F32.half ringS1
           (nodeOf ringS1 "B") H Hs Hne).
Defined.

(** ** Stopping *)

(** C10: [Stop] sets the flag and leaves the graph, the key table, the
    pending queue and the threshold as they were; [Add] on the stopped ring
    does what it does on the running ring, the flag apart. On a well-formed
    ring whose signer is known and is not the owner of the record, that is:
    the call returns a ring, still stopped, whose graph has gained the edge
    from the signer to the owner with the key of the record, the
    probability of the owner is recomputed on the new graph, and the
    record of every name of the ring is rewritten with the confidence and
    the key that [updateConfidence] computes on the new graph. *)
Theorem Stop_sets_flag_only (r : KeyRing) :
  stopped (Stop r) = true ∧
  graph (Stop r) = graph r ∧ keyTable (Stop r) = keyTable r ∧
  pending (Stop r) = pending r ∧ threshold (Stop r) = threshold r ∧
  ids (Stop r) = ids r ∧ heap (Stop r) = heap r ∧
  (∀ sched rec s rep, Add sched rec s rep (Stop r) = Stop <$> Add sched rec s rep r) ∧
  ∀ sched rec s rep vs,
    wf r → fair sched → ids r !! s = Some vs → Owner rec ≠ s →
    ∃ r' vo src,
      Add sched rec s rep (Stop r) = Some r' ∧ stopped r' = true ∧
      ids r' !! Owner rec = Some vo ∧ ids r' !! source r' = Some src ∧
      simple.edges (graph r')
      = <[(id vs, id vo) := {| F := vs; T := vo; Key := KeyPub rec |}]>
          (simple.edges (graph r)) ∧
      edge_carries r' s (Owner rec) (KeyPub rec) ∧
      load (heap r') vo
      = to_f32 (F64.min (F64.div F64.one (dist (graph r') src vo)) (to_f64 rep)) ∧
      ∀ n, keyTable r' !! n
           = match ids r' !! n with
             | Some v => recordStep (confidenceOf sched r' src v) (keyTable r !! n)
             | None => keyTable r !! n
             end.
Proof.
  do 7 (split; [reflexivity|]). split; [intros; apply Add_stopped|].
  intros sched rec s rep vs Hwf Hfair Hs Hne.
  destruct (Add_steps sched rec s rep r vs Hwf Hs Hne)
    as (r0 & vo & g & p & r1 & H1 & Hwf0 & Hs0 & Hvo & _ & Hgn & Hge & H3 & H4 & Hframe & HA).
  destruct (Add_effect sched rec s rep r vs Hwf Hs Hne)
    as (r1' & vo' & src & HA' & _ & Hs1 & Hvo1 & Hsrc & _ & Hedges & _ & Hload & _).
  rewrite HA in HA'. injection HA' as <-.
  set (X := store (probability vo) p (with_graph g r0)) in *.
  assert (HwfX : wf X) by (apply store_wf; now apply with_graph_wf).
  destruct Hframe as ((Hsource & _) & Hids & Hg & _ & Hheap & _).
  assert (Hvo' : vo' = vo).
  { rewrite Hids in Hvo1. simpl in Hvo1. congruence. }
  subst vo'.
  assert (HsrcX : ids X !! source X = Some src) by (rewrite <- Hids, <- Hsource; exact Hsrc).
  exists (Stop r1), vo, src.
  split; [unfold Stop; rewrite Add_stopped, HA; reflexivity|]. split; [reflexivity|].
  unfold edge_carries.
  change (ids (Stop r1)) with (ids r1). change (graph (Stop r1)) with (graph r1).
  change (heap (Stop r1)) with (heap r1). change (source (Stop r1)) with (source r1).
  change (keyTable (Stop r1)) with (keyTable r1).
  split; [exact Hvo1|]. split; [exact Hsrc|]. split; [exact Hedges|]. split.
  { exists vs, vo, {| F := vs; T := vo; Key := KeyPub rec |}.
    split; [exact Hs1|]. split; [exact Hvo1|]. split; [|reflexivity].
    unfold simple.Edge. rewrite Hedges. apply lookup_insert_eq. }
  split; [exact Hload|].
  intros n. rewrite (updateConfidence_lookup sched X r1 src n HwfX Hfair HsrcX H4).
  rewrite Hids.
  assert (HtX : keyTable X = keyTable r).
  { apply addNode_shell in H1 as [_ H1]. exact H1. }
  rewrite HtX. destruct (ids X !! n) as [v|]; [|reflexivity].
  f_equal. symmetry. now apply confidenceOf_ext.
Qed.

Lemma Stop_sets_flag_only_witness :
  wf ringS1 ∧ fair backwards ∧ ids ringS1 !! "B" = Some (nodeOf ringS1 "B") ∧ "C" ≠ "B" ∧
  ∃ r' vo src,
    Add backwards {| Owner := "C"; KeyPub := K_C |} "B" F32.half (Stop ringS1) = Some r' ∧
    stopped r' = true ∧
    ids r' !! "C" = Some vo ∧ ids r' !! source r' = Some src ∧
    simple.edges (graph r')
    = <[(id (nodeOf ringS1 "B"), id vo) := {| F := nodeOf ringS1 "B"; T := vo; Key := K_C |}]>
        (simple.edges (graph ringS1)) ∧
    edge_carries r' "B" "C" K_C ∧
    load (heap r') vo
    = to_f32 (F64.min (F64.div F64.one (dist (graph r') src vo)) (to_f64 F32.half)) ∧
    ∀ n, keyTable r' !! n
         = match ids r' !! n with
           | Some v => recordStep (confidenceOf backwards r' src v) (keyTable ringS1 !! n)
           | None => keyTable ringS1 !! n
           end.
Proof.
  assert (H : wf ringS1) by (apply (bool_decide_unpack _); vm_compute; exact I).
  assert (Hs : ids ringS1 !! "B" = Some (nodeOf ringS1 "B")) by reflexivity.
  assert (Hne : "C" ≠ "B") by discriminate.
  split; [exact H|]. split; [exact fair_backwards|]. split; [exact Hs|]. split; [exact Hne|].
  exact (proj2 (proj2 (proj2 (proj2 (proj2 (proj2 (proj2 (proj2
           (Stop_sets_flag_only ringS1))))))))
           backwards {| Owner := "C"; KeyPub := K_C |} "B" F32.half (nodeOf ringS1 "B")
           H fair_backwards Hs Hne).
Defined.

Lemma phi_ext n rep r r' :
  ids r' = ids r → graph r' = graph r → source r' = source r →
  phi n rep r' = phi n rep r.
Proof. unfold phi. now intros -> -> ->. Qed.

Lemma graph_eq (g g' : simple.DirectedGraph) :
  simple.nodes g' = simple.nodes g → simple.edges g' = simple.edges g → g' = g.
Proof. destruct g, g'. simpl. now intros -> ->. Qed.

Lemma Add_again sched rec s rep r r1 :
  wf r → Add sched rec s rep r = Some r1 → Add sched rec s rep r1 = Some r1.
Proof.
  intros Hwf HA. destruct (ids r !! s) as [vs|] eqn:Hs.
  2:{ revert HA. unfold Add, contains.
      rewrite bool_decide_eq_false_2 by (rewrite Hs; intros [? ?]; discriminate). simpl.
      intros [= <-].
      now rewrite bool_decide_eq_false_2 by (rewrite Hs; intros [? ?]; discriminate). }
  destruct (decide (Owner rec = s)) as [He|Hne].
  { revert HA. unfold Add. destruct (negb (contains r s)) eqn:Hc.
    - intros [= <-]. now rewrite Hc.
    - rewrite decide_True by exact He. intros [= <-]. rewrite Hc.
      now rewrite decide_True by exact He. }
  destruct (Add_steps sched rec s rep r vs Hwf Hs Hne)
    as (r0 & vo & g & p & r1' & H1 & Hwf0 & Hs0 & Hvo & _ & Hgn & Hge & H3 & H4 & Hframe & HA').
  rewrite HA in HA'. injection HA' as <-.
  set (X := store (probability vo) p (with_graph g r0)) in *.
  assert (HwfX : wf X) by (apply store_wf; now apply with_graph_wf).
  destruct (updateConfidence_same_order sched X HwfX) as (r1' & H4' & Hfix).
  rewrite H4 in H4'. injection H4' as <-.
  pose proof (same_but_table_wf _ _ Hframe HwfX) as Hwf1.
  destruct Hframe as ((Hsource & _) & Hids & Hg & _ & Hheap & _).
  simpl in Hsource, Hids, Hg, Hheap.
  assert (Hs1 : ids r1 !! s = Some vs) by now rewrite Hids.
  assert (Ho1 : ids r1 !! Owner rec = Some vo) by now rewrite Hids.
  unfold Add, contains. rewrite bool_decide_eq_true_2 by eauto. simpl.
  destruct (decide (Owner rec = s)); [contradiction|].
  assert (Hn1 : ∀ q r2, ids r2 = ids r1 → addNode (Owner rec) q r2 = Some (store (probability vo) q r2)).
  { intros q r2 Hr2. unfold addNode. now rewrite Hr2, Ho1. }
  rewrite Hn1 by reflexivity. simpl.
  pose proof (store_wf (probability vo) F32.zero r1 Hwf1) as Hwf2.
  destruct (addEdge_wf s (Owner rec) (KeyPub rec) (store (probability vo) F32.zero r1)
              vs vo Hwf2 Hs1 Ho1) as (g' & H2' & Hgn' & Hge'); [congruence|].
  rewrite H2'. simpl.
  assert (Hgg : g' = g).
  { apply graph_eq.
    - rewrite Hgn'. simpl. now rewrite Hg.
    - rewrite Hge'. simpl. rewrite Hg, Hge. apply insert_insert_eq. }
  subst g'.
  rewrite (phi_ext _ _ (with_graph g r0)); [|simpl; exact Hids|reflexivity|simpl; exact Hsource].
  rewrite H3. simpl. rewrite Hn1 by reflexivity. simpl.
  match goal with |- updateConfidence sched ?Y = _ => assert (HY : Y = r1) end.
  { clear - Hg Hheap. destruct r1. unfold store, with_graph. simpl in *.
    f_equal; [done|]. rewrite Hheap. now rewrite !insert_insert_eq. }
  rewrite HY. exact Hfix.
Qed.

(** X11. On a well-formed ring [Add] returns, and the same call repeated on
    its result, the maps being visited in the same order, changes nothing:
    the node, the edge and the probability are already there and the
    confidences are recomputed to the same values. *)
Theorem Add_idempotent sched rec s rep r :
  wf r →
  ∃ r1, Add sched rec s rep r = Some r1 ∧ Add sched rec s rep r1 = Some r1.
Proof.
  intros Hwf. destruct (Add_total sched rec s rep r Hwf) as [r1 HA].
  exists r1. split; [exact HA|]. exact (Add_again sched rec s rep r r1 Hwf HA).
Qed.

Lemma Add_idempotent_witness :
  wf ringS1 ∧
  ∃ r1, Add inOrder {| Owner := "C"; KeyPub := K_C |} "B" F32.half ringS1 = Some r1 ∧
        Add inOrder {| Owner := "C"; KeyPub := K_C |} "B" F32.half r1 = Some r1.
Proof.
  assert (H : wf ringS1) by (apply (bool_decide_unpack _); vm_compute; exact I).
  split; [exact H|].
  exact (Add_idempotent inOrder {| Owner := "C"; KeyPub := K_C |} "B" F32.half ringS1 H).
Defined.

(** ** The order of the iterations of [updateTrust] *)

Lemma with_heap_id r : with_heap (heap r) r = r.
Proof. now destruct r. Qed.

Lemma trust_loop_heap reptable r root (L : list (string * Node)) :
  wf r → ids r !! source r = Some root →
  (∀ n v, (n, v) ∈ L → ids r !! n = Some v) →
  ∃ h, foldlM (trustStep reptable) r L = Some (with_heap h r) ∧
       (∀ n v, (n, v) ∈ L →
          h !! probability v = Some (trust (dist (graph r) root v) (reputation reptable n))) ∧
       (∀ q, (∀ n v, (n, v) ∈ L → probability v ≠ q) → h !! q = heap r !! q).
Proof.
  intros Hwf Hroot. induction L as [|[n v] L IH] using rev_ind; intros HL.
  - exists (heap r). rewrite with_heap_id. split; [reflexivity|]. split; [|done].
    intros n v H. inversion H.
  - destruct IH as (h & Hf & Hval & Hrest).
    { intros n' v' Hin. apply HL. apply elem_of_app. now left. }
    assert (Hwf1 : wf (with_heap h r)) by now apply (wf_ext r).
    assert (Hv : ids r !! n = Some v).
    { apply HL. apply elem_of_app. right. left. }
    rewrite foldlM_app, Hf. simpl.
    rewrite (trustStep_known reptable (with_heap h r) root n v Hwf1 Hroot Hv).
    simpl. exists (<[probability v := trust (dist (graph r) root v) (reputation reptable n)]> h).
    split; [reflexivity|]. split.
    + intros n' v' Hin.
      destruct (decide (probability v = probability v')) as [Heq|Hne].
      * assert (Hv' : ids r !! n' = Some v') by (apply HL; exact Hin).
        destruct Hwf as (_ & _ & _ & W6 & _).
        pose proof (W6 _ _ Hv _ _ Hv' Heq) as <-.
        rewrite Hv in Hv'. injection Hv' as <-.
        apply lookup_insert_eq.
      * rewrite lookup_insert_ne by exact Hne.
        apply elem_of_app in Hin as [Hin|Hin].
        -- apply (Hval _ _ Hin).
        -- apply list_elem_of_singleton in Hin. injection Hin as <- <-. contradiction.
    + intros q Hq. rewrite lookup_insert_ne.
      * apply Hrest. intros n' v' Hin. apply (Hq n' v'). apply elem_of_app. now left.
      * apply (Hq n v). apply elem_of_app. right. left.
Qed.

Lemma updateTrust_trusts sched reptable r root :
  wf r → fair sched → ids r !! source r = Some root →
  ∃ h, updateTrust sched reptable r = Some (with_heap h r) ∧ trusts reptable r root h.
Proof.
  intros Hwf Hfair Hroot.
  destruct (trust_loop_heap reptable r root (rangeMap sched (ids r)) Hwf Hroot)
    as (h & Hf & Hval & Hrest).
  { intros n v. apply rangeMap_lookup. }
  exists h. split; [exact Hf|]. split.
  - intros n v Hv. apply (Hval n v). now apply rangeMap_fair.
  - intros q Hq. apply Hrest. intros n v Hin. apply rangeMap_lookup in Hin.
    exact (Hq _ _ Hin).
Qed.

Lemma trusts_unique reptable r root h h' :
  trusts reptable r root h → trusts reptable r root h' → h = h'.
Proof.
  intros [H1 H2] [H1' H2']. apply map_eq. intros q.
  destruct (decide (map_Exists (λ _ v, probability v = q) (ids r))) as [(n & v & Hv & <-)|Hno].
  - now rewrite (H1 _ _ Hv), (H1' _ _ Hv).
  - assert (Hall : map_Forall (λ _ v, probability v ≠ q) (ids r)).
    { intros n v Hv Hq. apply Hno. now exists n, v. }
    now rewrite (H2 _ Hall), (H2' _ Hall).
Qed.

(** X12. On a well-formed ring the result of [updateTrust] does not depend
    on the order in which the names are visited, and a second run on the
    result changes nothing: [phi] does not read the probability it
    recomputes. The run writes probabilities only: names, graph, queue and
    key table, hence every answer of [GetKey], are as before. *)
Theorem updateTrust_order_free sched1 sched2 reptable r :
  wf r → fair sched1 → fair sched2 →
  ∃ r1, updateTrust sched1 reptable r = Some r1 ∧
        updateTrust sched2 reptable r = Some r1 ∧
        updateTrust sched2 reptable r1 = Some r1 ∧
        ids r1 = ids r ∧ graph r1 = graph r ∧ pending r1 = pending r ∧
        keyTable r1 = keyTable r ∧ ∀ n, GetKey r1 n = GetKey r n.
Proof.
  intros Hwf Hf1 Hf2. pose proof Hwf as (_ & _ & [root Hroot] & _).
  destruct (updateTrust_trusts sched1 reptable r root Hwf Hf1 Hroot) as (h1 & Hu1 & Ht1).
  destruct (updateTrust_trusts sched2 reptable r root Hwf Hf2 Hroot) as (h2 & Hu2 & Ht2).
  pose proof (trusts_unique _ _ _ _ _ Ht1 Ht2) as <-.
  assert (Hwf1 : wf (with_heap h1 r)) by now apply (wf_ext r).
  destruct (updateTrust_trusts sched2 reptable (with_heap h1 r) root Hwf1 Hf2 Hroot)
    as (h3 & Hu3 & Ht3).
  assert (H31 : h3 = h1).
  { apply (trusts_unique reptable (with_heap h1 r) root); [exact Ht3|].
    destruct Ht1 as [H1 H2]. split; [exact H1|done]. }
  subst h3.
  exists (with_heap h1 r). split; [exact Hu1|]. split; [exact Hu2|]. split; [exact Hu3|].
  done.
Qed.

Lemma updateTrust_order_free_witness :
  wf ringS3 ∧ fair inOrder ∧ fair backwards ∧
  ∃ r1, updateTrust inOrder None ringS3 = Some r1 ∧
        updateTrust backwards None ringS3 = Some r1 ∧
        updateTrust backwards None r1 = Some r1 ∧
        ids r1 = ids ringS3 ∧ graph r1 = graph ringS3 ∧ pending r1 = pending ringS3 ∧
        keyTable r1 = keyTable ringS3 ∧ ∀ n, GetKey r1 n = GetKey ringS3 n.
Proof.
  assert (H : wf ringS3) by (apply (bool_decide_unpack _); vm_compute; exact I).
  split; [exact H|]. split; [exact fair_inOrder|]. split; [exact fair_backwards|].
  exact (updateTrust_order_free inOrder backwards None ringS3 H fair_inOrder fair_backwards).
Defined.

(** ** Invariants of the graph *)

(** A property of the names, the graph, the source and the two counters
    that an [Add] keeps is kept by every operation. *)
Section Invariant.
Variable P : KeyRing → Prop.
Hypothesis P_wf : ∀ r, P r → wf r.
Hypothesis P_ext : ∀ r r',
  ids r' = ids r → graph r' = graph r → source r' = source r →
  nextNode r' = nextNode r → nextPtr r' = nextPtr r → P r → P r'.
Hypothesis P_Add : ∀ sched rec s rep r r',
  P r → Add sched rec s rep r = Some r' → P r'.

Lemma inv_updateTrust sched reptable r r' :
  P r → updateTrust sched reptable r = Some r' → P r'.
Proof.
  intros HP Hu. pose proof (P_wf r HP) as Hwf.
  pose proof Hwf as (_ & _ & [root Hroot] & _).
  destruct (trust_loop_heap reptable r root (rangeMap sched (ids r)) Hwf Hroot)
    as (h & Hf & _).
  { intros n v. apply rangeMap_lookup. }
  unfold updateTrust in Hu. rewrite Hf in Hu. injection Hu as <-.
  now apply (P_ext r).
Qed.

Lemma inv_updateConfidence sched r r' :
  P r → updateConfidence sched r = Some r' → P r'.
Proof.
  intros HP Hu. apply updateConfidence_frame in Hu as ((H1 & _) & H2 & H3 & H4 & _ & H5).
  now apply (P_ext r).
Qed.

Lemma inv_updateMessage c sched msg conf r res :
  P r → updateMessage c sched msg conf r = Some res → P res.1.
Proof.
  intros HP. unfold updateMessage.
  destruct (DeserializeKey c _); [|now intros [= <-]].
  destruct (GetKey r _) as [kpub present].
  destruct (negb present); [now intros [= <-]|].
  destruct (Verify c msg kpub); [|now intros [= <-]].
  destruct (Add _ _ _ _ _) as [r'|] eqn:HA; simpl; [|discriminate].
  intros [= <-]. simpl. eauto.
Qed.

Lemma inv_updatePending c sched reptable r r' :
  P r → updatePending c sched reptable r = Some r' → P r'.
Proof.
  intros HP. unfold updatePending.
  destruct (replayPending c sched reptable r) as [st|] eqn:Hst; simpl; [|discriminate].
  intros [= <-].
  assert (Hst1 : P st.1).
  { revert Hst. unfold replayPending.
    apply (foldlM_invariant _ (λ st, P st.1)); [|exact HP].
    intros b x b' _ Hb. unfold replayStep.
    destruct (updateMessage _ _ _ _ _) as [res|] eqn:Hu; simpl; [|discriminate].
    intros [= <-]. simpl. eauto using inv_updateMessage. }
  now apply (P_ext st.1).
Qed.

Lemma inv_tick c sched reptable r r' :
  P r → tick c sched reptable r = Some r' → P r'.
Proof.
  intros HP Ht. unfold tick in Ht. destruct (stopped r); [now injection Ht as <-|].
  destruct (updateTrust sched reptable r) as [r1|] eqn:H1; simpl in Ht; [|discriminate].
  destruct (updatePending c sched reptable r1) as [r2|] eqn:H2; simpl in Ht; [|discriminate].
  apply (inv_updateConfidence sched r2 r'); [|exact Ht].
  apply (inv_updatePending c sched reptable r1 r2); [|exact H2].
  exact (inv_updateTrust sched reptable r r1 HP H1).
Qed.

Lemma inv_grows c r0 r : P r0 → grows c r0 r → P r.
Proof.
  intros HP. induction 1 as [|sched rec s rep r r' _ IH HA|msg r _ IH
                            |r _ IH|sched reptable r r' _ IH Ht].
  - exact HP.
  - eauto.
  - now apply (P_ext r).
  - now apply (P_ext r).
  - eauto using inv_tick.
Qed.
End Invariant.

Lemma reachable_grows c r :
  reachable c r ↔
  ∃ owner key trustedRecords thr r0,
    NewKeyRing owner key trustedRecords thr = Some r0 ∧ grows c r0 r.
Proof.
  split.
  - induction 1 as [owner key recs thr r Hn|sched rec s rep r r' _ IH HA|msg r _ IH
                   |r _ IH|sched reptable r r' _ IH Ht].
    + exists owner, key, recs, thr, r. split; [exact Hn|constructor].
    + destruct IH as (o & k & l & t & r0 & H0 & Hg).
      exists o, k, l, t, r0. split; [exact H0|]. eapply grows_Add; eauto.
    + destruct IH as (o & k & l & t & r0 & H0 & Hg).
      exists o, k, l, t, r0. split; [exact H0|]. now apply grows_AddUnverified.
    + destruct IH as (o & k & l & t & r0 & H0 & Hg).
      exists o, k, l, t, r0. split; [exact H0|]. now apply grows_Stop.
    + destruct IH as (o & k & l & t & r0 & H0 & Hg).
      exists o, k, l, t, r0. split; [exact H0|]. eapply grows_tick; eauto.
  - intros (o & k & l & t & r0 & H0 & Hg).
    induction Hg as [|sched rec s rep r r' _ IH HA|msg r _ IH
                    |r _ IH|sched reptable r r' _ IH Ht].
    + eapply reach_new; eauto.
    + eapply reach_Add; eauto.
    + now apply reach_AddUnverified.
    + now apply reach_Stop.
    + eapply reach_tick; eauto.
Qed.

Lemma sound_ext r r' :
  ids r' = ids r → graph r' = graph r → source r' = source r →
  nextNode r' = nextNode r → nextPtr r' = nextPtr r → sound r → sound r'.
Proof.
  intros Hi Hg Hs Hn Hp (Hwf & Hc & He). unfold sound. rewrite Hg, Hn.
  split; [|done]. apply (wf_ext r); auto. now rewrite Hg.
Qed.

Lemma Add_sound sched rec s rep r r' :
  sound r → Add sched rec s rep r = Some r' → sound r'.
Proof.
  intros (Hwf & Hc & He) HA. destruct (ids r !! s) as [vs|] eqn:Hs.
  2:{ revert HA. unfold Add, contains.
      rewrite bool_decide_eq_false_2 by (rewrite Hs; intros [? ?]; discriminate). simpl.
      now intros [= <-]. }
  destruct (decide (Owner rec = s)) as [Heq|Hne].
  { revert HA. unfold Add. destruct (negb (contains r s)); [now intros [= <-]|].
    rewrite decide_True by exact Heq. now intros [= <-]. }
  destruct (Add_effect sched rec s rep r vs Hwf Hs Hne)
    as (r'' & vo & src & HA' & Hwf' & Hs' & Hvo & _ & Hother & Hedges & Hcase & _).
  rewrite HA in HA'. injection HA' as <-.
  pose proof (wf_known_node r s vs Hwf Hs) as Hnvs. unfold simple.Node in Hnvs.
  pose proof (wf_known_node r' s vs Hwf' Hs') as Hnvs'. unfold simple.Node in Hnvs'.
  pose proof (wf_known_node r' _ vo Hwf' Hvo) as Hnvo'. unfold simple.Node in Hnvo'.
  assert (Hmono : ∀ i n, simple.nodes (graph r) !! i = Some n →
                         simple.nodes (graph r') !! i = Some n).
  { intros i n Hi. destruct (ids r !! Owner rec) as [v0|].
    - destruct Hcase as (_ & -> & _). exact Hi.
    - destruct Hcase as (_ & Hid & -> & _). rewrite lookup_insert_ne; [exact Hi|].
      intros Heq. rewrite Heq in Hid.
      destruct Hwf as (_ & W2 & _). apply W2 in Hi. simpl in Hi. lia. }
  split; [exact Hwf'|]. split.
  - destruct (ids r !! Owner rec) as [v0|].
    + destruct Hcase as (_ & -> & ->). exact Hc.
    + destruct Hcase as (_ & Hid & -> & ->). rewrite map_size_insert_None; [lia|].
      destruct (simple.nodes (graph r) !! id vo) as [n|] eqn:Hn; [|reflexivity].
      destruct Hwf as (_ & W2 & _). apply W2 in Hn. simpl in Hn. lia.
  - unfold edges_ok. rewrite Hedges. apply map_Forall_insert_2.
    + simpl. split; [|split; assumption].
      intros Hid. apply Hne. symmetry. exact (wf_ids_inj r' _ _ _ _ Hwf' Hs' Hvo Hid).
    + intros uv e Huv. destruct (He _ _ Huv) as (H1 & H2 & H3). auto.
Qed.

Lemma NewKeyRing_sound owner key trustedRecords thr r :
  NewKeyRing owner key trustedRecords thr = Some r → sound r.
Proof.
  intros Hr.
  destruct (NewKeyRing_star owner key trustedRecords thr)
    as (r' & Hr' & (Hn & _ & _ & _ & _ & Hroot & _ & Hsize & _ & Hrec & Hedge) & _).
  rewrite Hr in Hr'. injection Hr' as <-.
  destruct (NewKeyRing_wf owner key trustedRecords thr) as (r' & Hr' & Hwf).
  rewrite Hr in Hr'. injection Hr' as <-.
  split; [exact Hwf|]. split; [now rewrite Hn, Hsize|].
  intros [u v] e He. simpl. destruct (Hedge _ _ _ He) as [-> Hv].
  destruct (lookup_lt_is_Some_2 trustedRecords (Z.to_nat (v - 1))) as [rec Hi]; [lia|].
  destruct (Hrec _ _ Hi) as (H1 & H2 & _).
  replace (Z.of_nat (S (Z.to_nat (v - 1)))) with v in H1, H2 by lia.
  rewrite He in H2. injection H2 as ->. simpl.
  split; [lia|]. split; [exact Hroot|exact H1].
Qed.

Lemma grows_sound c r0 r : sound r0 → grows c r0 r → sound r.
Proof.
  apply inv_grows.
  - now intros r1 (H & _).
  - exact sound_ext.
  - exact Add_sound.
Qed.

(** X13. Every ring the package produces is well formed, its counter
    [nextNode] is the number of its nodes, and no operation aborts on it:
    [Add] never reaches its [log.Fatal], the selection never misses an
    edge, and a round of the updater runs to its end. *)
Theorem reachable_never_aborts c r :
  reachable c r →
  wf r ∧ nextNode r = Z.of_nat (size (simple.nodes (graph r))) ∧
  (∀ sched rec s rep, is_Some (Add sched rec s rep r)) ∧
  (∀ sched reptable, is_Some (updateTrust sched reptable r)) ∧
  (∀ sched reptable, is_Some (updatePending c sched reptable r)) ∧
  (∀ sched, is_Some (updateConfidence sched r)) ∧
  (∀ sched reptable, is_Some (tick c sched reptable r)).
Proof.
  intros Hr. apply reachable_grows in Hr as (o & k & l & t & r0 & H0 & Hg).
  destruct (grows_sound c r0 r (NewKeyRing_sound _ _ _ _ _ H0) Hg) as (Hwf & Hc & _).
  split; [exact Hwf|]. split; [exact Hc|].
  split; [intros; now apply Add_total|].
  split; [intros; now apply updateTrust_total|].
  split; [intros; now apply updatePending_total|].
  split; [|intros; now apply tick_total].
  intros sched. destruct (updateConfidence_total sched r Hwf) as (r' & -> & _). eauto.
Qed.

Lemma reachable_never_aborts_witness :
  reachable acceptAll ringS2 ∧
  wf ringS2 ∧ nextNode ringS2 = Z.of_nat (size (simple.nodes (graph ringS2))) ∧
  (∀ sched rec s rep, is_Some (Add sched rec s rep ringS2)) ∧
  (∀ sched reptable, is_Some (updateTrust sched reptable ringS2)) ∧
  (∀ sched reptable, is_Some (updatePending acceptAll sched reptable ringS2)) ∧
  (∀ sched, is_Some (updateConfidence sched ringS2)) ∧
  (∀ sched reptable, is_Some (tick acceptAll sched reptable ringS2)).
Proof.
  assert (H : reachable acceptAll ringS2).
  { apply (reach_Add acceptAll inOrder {| Owner := "C"; KeyPub := K_C |} "B" F32.half ringS1).
    - apply (reach_new acceptAll "R" K_R [trusted "B" K_B f0_9] F32.half). reflexivity.
    - reflexivity. }
  split; [exact H|]. exact (reachable_never_aborts acceptAll ringS2 H).
Defined.

(** X14. In every ring the package produces, an edge joins two distinct
    nodes of the graph and holds these very nodes as its ends: there is no
    edge from a node to itself and none to or from a node the graph does not
    have. *)
Theorem reachable_edges c r u v e :
  reachable c r → simple.edges (graph r) !! (u, v) = Some e →
  u ≠ v ∧ id (F e) = u ∧ id (T e) = v ∧
  simple.Node (graph r) u = Some (F e) ∧ simple.Node (graph r) v = Some (T e).
Proof.
  intros Hr He. apply reachable_grows in Hr as (o & k & l & t & r0 & H0 & Hg).
  destruct (grows_sound c r0 r (NewKeyRing_sound _ _ _ _ _ H0) Hg)
    as ((_ & W2 & _) & _ & Hok).
  destruct (Hok _ _ He) as (H1 & H2 & H3). simpl in H1, H2, H3.
  split; [exact H1|].
  split; [exact (proj1 (W2 _ _ H2))|]. split; [exact (proj1 (W2 _ _ H3))|]. done.
Qed.

Lemma reachable_edges_witness :
  reachable acceptAll ringS2 ∧
  simple.edges (graph ringS2) !! (1, 2)
  = Some {| F := nodeOf ringS2 "B"; T := nodeOf ringS2 "C"; Key := K_C |} ∧
  1 ≠ 2 ∧ id (nodeOf ringS2 "B") = 1 ∧ id (nodeOf ringS2 "C") = 2 ∧
  simple.Node (graph ringS2) 1 = Some (nodeOf ringS2 "B") ∧
  simple.Node (graph ringS2) 2 = Some (nodeOf ringS2 "C").
Proof.
  assert (H : reachable acceptAll ringS2).
  { apply (reach_Add acceptAll inOrder {| Owner := "C"; KeyPub := K_C |} "B" F32.half ringS1).
    - apply (reach_new acceptAll "R" K_R [trusted "B" K_B f0_9] F32.half). reflexivity.
    - reflexivity. }
  assert (He : simple.edges (graph ringS2) !! (1, 2)
               = Some {| F := nodeOf ringS2 "B"; T := nodeOf ringS2 "C"; Key := K_C |})
    by reflexivity.
  split; [exact H|]. split; [exact He|].
  exact (reachable_edges acceptAll ringS2 1 2 _ H He).
Defined.

(** ** Reachability from the root *)

Lemma walk_mono g g' s k t :
  (∀ uv, is_Some (simple.edges g !! uv) → is_Some (simple.edges g' !! uv)) →
  (∀ i, is_Some (simple.nodes g !! i) → is_Some (simple.nodes g' !! i)) →
  walk g s k t → walk g' s k t.
Proof.
  intros He Hn. induction 1 as [|k u t e Hw IH Hed Hu Ht]; [constructor|].
  destruct (He (u, t)) as [e' He']; [eauto|].
  eapply walk_snoc; eauto.
Qed.

Lemma rooted_ext s r r' :
  ids r' = ids r → graph r' = graph r → source r' = source r → rooted s r → rooted s r'.
Proof. unfold rooted. now intros -> -> ->. Qed.

Lemma Add_rooted root sched rec s rep r r' :
  wf r → rooted root r → Add sched rec s rep r = Some r' → rooted root r'.
Proof.
  intros Hwf [Hroot Hreach] HA. destruct (ids r !! s) as [vs|] eqn:Hs.
  2:{ revert HA. unfold Add, contains.
      rewrite bool_decide_eq_false_2 by (rewrite Hs; intros [? ?]; discriminate). simpl.
      now intros [= <-]. }
  destruct (decide (Owner rec = s)) as [Heq|Hne].
  { revert HA. unfold Add. destruct (negb (contains r s)); [now intros [= <-]|].
    rewrite decide_True by exact Heq. now intros [= <-]. }
  destruct (Add_effect sched rec s rep r vs Hwf Hs Hne)
    as (r'' & vo & src & HA' & Hwf' & Hs' & Hvo & _ & Hother & Hedges & Hcase & _).
  rewrite HA in HA'. injection HA' as <-.
  pose proof (Add_shell _ _ _ _ _ _ HA) as (Hsource & _).
  pose proof (wf_known_node r s vs Hwf Hs) as Hnvs. unfold simple.Node in Hnvs.
  pose proof (wf_known_node r' s vs Hwf' Hs') as Hnvs'. unfold simple.Node in Hnvs'.
  pose proof (wf_known_node r' _ vo Hwf' Hvo) as Hnvo'. unfold simple.Node in Hnvo'.
  assert (Hmono : ∀ i, is_Some (simple.nodes (graph r) !! i) →
                       is_Some (simple.nodes (graph r') !! i)).
  { intros i [n Hi]. destruct (ids r !! Owner rec) as [v0|].
    - destruct Hcase as (_ & -> & _). eauto.
    - destruct Hcase as (_ & Hid & -> & _). rewrite lookup_insert_is_Some.
      destruct (decide (id vo = i)); eauto. }
  assert (Hemono : ∀ uv, is_Some (simple.edges (graph r) !! uv) →
                         is_Some (simple.edges (graph r') !! uv)).
  { intros uv Huv. rewrite Hedges, lookup_insert_is_Some.
    destruct (decide ((id vs, id vo) = uv)); eauto. }
  assert (Hold : ∀ i n, simple.nodes (graph r) !! i = Some n →
                        ∃ k, walk (graph r') (id root) k i).
  { intros i n Hi. destruct (Hreach _ _ Hi) as [k Hk]. exists k.
    eapply walk_mono; eauto. }
  split.
  - rewrite Hsource. destruct (decide (source r = Owner rec)) as [Hso|Hso].
    + rewrite Hso in Hroot |- *. rewrite Hroot in Hcase.
      destruct Hcase as (-> & _). exact Hvo.
    + rewrite Hother by exact Hso. exact Hroot.
  - intros i n Hi. destruct (ids r !! Owner rec) as [v0|].
    + destruct Hcase as (_ & Hnodes & _). rewrite Hnodes in Hi. eauto.
    + destruct Hcase as (_ & Hid & Hnodes & _). rewrite Hnodes in Hi.
      apply lookup_insert_Some in Hi as [[<- <-]|[_ Hi]]; [|eauto].
      destruct (Hold _ _ Hnvs) as [k Hk]. exists (S k).
      apply (walk_snoc _ _ k (id vs) (id vo) {| F := vs; T := vo; Key := KeyPub rec |});
        [exact Hk| |eauto|eauto].
      rewrite Hedges. apply lookup_insert_eq.
Qed.

Lemma NewKeyRing_rooted owner key trustedRecords thr r :
  owner ∉ names trustedRecords →
  NewKeyRing owner key trustedRecords thr = Some r → rooted (rootNode owner) r.
Proof.
  intros Hnot Hr.
  destruct (NewKeyRing_indexed owner key trustedRecords thr)
    as (r' & Hr' & Hstar & _ & _ & _ & _ & Hown).
  rewrite Hr in Hr'. injection Hr' as <-.
  destruct Hstar as (_ & _ & Hsrc & _ & _ & Hroot & _ & _ & Hdom & Hrec & _).
  split; [rewrite Hsrc; exact (proj1 (Hown Hnot))|].
  intros i n Hi. pose proof (Hdom _ _ Hi) as Hrange. simpl.
  destruct (decide (i = 0)) as [->|Hne]; [exists O; constructor|].
  destruct (lookup_lt_is_Some_2 trustedRecords (Z.to_nat (i - 1))) as [rec Hj]; [lia|].
  destruct (Hrec _ _ Hj) as (H1 & H2 & _).
  replace (Z.of_nat (S (Z.to_nat (i - 1)))) with i in H1, H2 by lia.
  exists 1%nat. eapply walk_snoc; [constructor|exact H2|eauto|eauto].
Qed.

Lemma walks_nodes g s k t w :
  is_Some (simple.nodes g !! s) → w ∈ path.walks g s k t →
  Forall (λ i, is_Some (simple.nodes g !! i)) w.
Proof.
  intros Hs. revert t w. induction k as [|k IH]; intros t w; simpl.
  - destruct (decide (s = t)) as [<-|]; [|intros H; now apply elem_of_nil in H].
    intros H. apply list_elem_of_singleton in H. subst w. now constructor.
  - intros H. apply list_elem_of_bind in H as (u & Hw & Hu).
    apply list_elem_of_fmap in Hw as (w' & -> & Hw').
    apply Forall_app. split; [eauto|].
    constructor; [|constructor]. apply preds_spec in Hu. tauto.
Qed.

Lemma shortest_nonempty g u v k :
  is_Some (simple.nodes g !! id u) → path.hops g (id u) (id v) = Some k →
  path.shortest g u v ≠ [].
Proof.
  intros Hu Hk. unfold path.shortest. rewrite Hk.
  apply hops_shortest in Hk as [Hw _]. apply walks_complete in Hw.
  destruct (path.walks g (id u) k (id v)) as [|w ws] eqn:Hws; [done|].
  assert (Hin : w ∈ path.walks g (id u) k (id v)) by (rewrite Hws; left).
  apply (walks_nodes g _ _ _ _ Hu) in Hin.
  simpl. unfold path.resolve at 1.
  destruct (mapM (λ i, simple.nodes g !! i) w) as [p|] eqn:Hp; [done|].
  exfalso. apply mapM_is_Some in Hin. rewrite Hp in Hin. now destruct Hin.
Qed.

Lemma AllBetween_nonempty order g u v k :
  (∀ l, order l ≡ₚ l) →
  is_Some (simple.nodes g !! id u) → path.hops g (id u) (id v) = Some k →
  path.AllBetween order g u v ≠ [].
Proof.
  intros Ho Hu Hk Hnil. apply (shortest_nonempty g u v k Hu Hk).
  pose proof (arrange_fair order _ (Ho (path.shortest g u v))) as Hperm.
  unfold path.AllBetween in Hnil. rewrite Hnil in Hperm.
  now apply Permutation_nil_l in Hperm.
Qed.

(** X15. When no bootstrap record carries the owner's name, the source of
    the ring stays bound to node 0 for ever, and every name the ring comes
    to know lies at a finite distance from it: [phi] never divides by an
    infinite distance and [updateConfidence] always finds a shortest path
    to the name. *)
Theorem peers_stay_reachable c owner key trustedRecords thr r0 r :
  owner ∉ names trustedRecords →
  NewKeyRing owner key trustedRecords thr = Some r0 → grows c r0 r →
  ids r !! source r = Some (rootNode owner) ∧
  ∀ n v, ids r !! n = Some v →
    ∃ k, path.hops (graph r) 0 (id v) = Some k ∧
         path.WeightTo (graph r) (rootNode owner) v = F64.of_Z (Z.of_nat k) ∧
         ∀ order, (∀ l, order l ≡ₚ l) →
                  path.AllBetween order (graph r) (rootNode owner) v ≠ [].
Proof.
  intros Hnot H0 Hg.
  assert (HQ : sound r ∧ rooted (rootNode owner) r).
  { apply (inv_grows (λ r, sound r ∧ rooted (rootNode owner) r)) with (c := c) (r0 := r0).
    - now intros r1 ((H & _) & _).
    - intros r1 r2 Hi Hgr Hs Hn Hp [H1 H2]. split.
      + now apply (sound_ext r1).
      + now apply (rooted_ext _ r1).
    - intros sched rec s rep r1 r2 [H1 H2] HA. split.
      + eauto using Add_sound.
      + destruct H1 as (Hwf & _). eauto using Add_rooted.
    - split; [eauto using NewKeyRing_sound|eauto using NewKeyRing_rooted].
    - exact Hg. }
  destruct HQ as [(Hwf & _) [Hroot Hreach]].
  split; [exact Hroot|]. intros n v Hv.
  pose proof (wf_known_node r n v Hwf Hv) as Hnv. unfold simple.Node in Hnv.
  pose proof (wf_known_node r _ _ Hwf Hroot) as Hn0. unfold simple.Node in Hn0.
  simpl in Hn0.
  destruct (Hreach _ _ Hnv) as [k Hk]. simpl in Hk.
  destruct (hops_complete (graph r) 0 (id v) k) as (j & Hj & _); [eauto|exact Hk|].
  exists j. split; [exact Hj|]. split.
  - unfold path.WeightTo. simpl. now rewrite Hj.
  - intros order Ho. apply (AllBetween_nonempty order _ (rootNode owner) v j); simpl; eauto.
Qed.

Lemma peers_stay_reachable_witness :
  ("R" ∉ names [trusted "B" K_B f0_9]) ∧
  NewKeyRing "R" K_R [trusted "B" K_B f0_9] F32.half = Some ringS1 ∧
  grows acceptAll ringS1 ringS2 ∧
  ids ringS2 !! source ringS2 = Some (rootNode "R") ∧
  ∀ n v, ids ringS2 !! n = Some v →
    ∃ k, path.hops (graph ringS2) 0 (id v) = Some k ∧
         path.WeightTo (graph ringS2) (rootNode "R") v = F64.of_Z (Z.of_nat k) ∧
         ∀ order, (∀ l, order l ≡ₚ l) →
                  path.AllBetween order (graph ringS2) (rootNode "R") v ≠ [].
Proof.
  assert (H1 : "R" ∉ names [trusted "B" K_B f0_9]).
  { apply (bool_decide_unpack _). vm_compute. exact I. }
  assert (H2 : NewKeyRing "R" K_R [trusted "B" K_B f0_9] F32.half = Some ringS1)
    by reflexivity.
  assert (H3 : grows acceptAll ringS1 ringS2).
  { apply (grows_Add acceptAll ringS1 inOrder {| Owner := "C"; KeyPub := K_C |} "B" F32.half
             ringS1); [constructor|reflexivity]. }
  split; [exact H1|]. split; [exact H2|]. split; [exact H3|].
  exact (peers_stay_reachable acceptAll "R" K_R [trusted "B" K_B f0_9] F32.half
           ringS1 ringS2 H1 H2 H3).
Defined.

(** ** The pending queue and the updater *)

Lemma Add_dom sched rec s rep r r' n :
  Add sched rec s rep r = Some r' → is_Some (keyTable r' !! n) ↔ is_Some (keyTable r !! n).
Proof.
  unfold Add. destruct (negb (contains r s)); [now intros [= <-]|].
  destruct (decide (Owner rec = s)); [now intros [= <-]|].
  destruct (addNode (Owner rec) F32.zero r) as [r1|] eqn:H1; simpl; [|discriminate].
  destruct (addEdge s (Owner rec) (KeyPub rec) r1) as [re|] eqn:H2; simpl; [|discriminate].
  destruct (re.2); [discriminate|].
  destruct (phi (Owner rec) rep re.1) as [p|]; simpl; [|discriminate].
  destruct (addNode (Owner rec) p re.1) as [r3|] eqn:H3; simpl; [|discriminate].
  intros H4.
  apply addNode_shell in H1 as [_ H1]. apply addEdge_shell in H2 as (_ & H2 & _).
  apply addNode_shell in H3 as [_ H3].
  rewrite (updateConfidence_dom _ _ _ n H4). now rewrite H3, H2, H1.
Qed.

Lemma updateMessage_dom c sched msg conf r res n :
  updateMessage c sched msg conf r = Some res →
  is_Some (keyTable res.1 !! n) ↔ is_Some (keyTable r !! n).
Proof.
  unfold updateMessage.
  destruct (DeserializeKey c _); [|now intros [= <-]].
  destruct (GetKey r _) as [kpub present].
  destruct (negb present); [now intros [= <-]|].
  destruct (Verify c msg kpub); [|now intros [= <-]].
  destruct (Add _ _ _ _ _) as [r'|] eqn:HA; simpl; [|discriminate].
  intros [= <-]. simpl. eauto using Add_dom.
Qed.

Lemma updatePending_dom c sched reptable r r' n :
  updatePending c sched reptable r = Some r' →
  is_Some (keyTable r' !! n) ↔ is_Some (keyTable r !! n).
Proof.
  unfold updatePending.
  destruct (replayPending c sched reptable r) as [st|] eqn:Hst; simpl; [|discriminate].
  intros [= <-]. simpl. revert Hst. unfold replayPending.
  apply (foldlM_invariant _ (λ st, is_Some (keyTable st.1 !! n) ↔ is_Some (keyTable r !! n)));
    [|reflexivity].
  intros b x b' _ Hb. unfold replayStep.
  destruct (updateMessage _ _ _ _ _) as [res|] eqn:Hu; simpl; [|discriminate].
  intros [= <-]. simpl. rewrite <- Hb. eauto using updateMessage_dom.
Qed.

Lemma tick_dom c sched reptable r r' n :
  tick c sched reptable r = Some r' →
  is_Some (keyTable r' !! n) ↔ is_Some (keyTable r !! n).
Proof.
  unfold tick. destruct (stopped r); [now intros [= <-]|].
  destruct (updateTrust sched reptable r) as [r1|] eqn:H1; simpl; [|discriminate].
  destruct (updatePending c sched reptable r1) as [r2|] eqn:H2; simpl; [|discriminate].
  intros H3. rewrite (updateConfidence_dom _ _ _ n H3).
  rewrite (updatePending_dom _ _ _ _ _ n H2).
  now rewrite (updateTrust_keyTable _ _ _ _ H1).
Qed.

Lemma Add_ids_mono sched rec s rep r r' :
  wf r → Add sched rec s rep r = Some r' →
  ∀ n v, ids r !! n = Some v → ids r' !! n = Some v.
Proof.
  intros Hwf HA. destruct (ids r !! s) as [vs|] eqn:Hs.
  2:{ revert HA. unfold Add, contains.
      rewrite bool_decide_eq_false_2 by (rewrite Hs; intros [? ?]; discriminate). simpl.
      now intros [= <-]. }
  destruct (decide (Owner rec = s)) as [Heq|Hne].
  { revert HA. unfold Add. destruct (negb (contains r s)); [now intros [= <-]|].
    rewrite decide_True by exact Heq. now intros [= <-]. }
  destruct (Add_effect sched rec s rep r vs Hwf Hs Hne)
    as (r'' & vo & src & HA' & _ & _ & Hvo & _ & Hother & _ & Hcase & _).
  rewrite HA in HA'. injection HA' as <-.
  intros n v Hv. destruct (decide (n = Owner rec)) as [->|Hn].
  - rewrite Hv in Hcase. destruct Hcase as (-> & _). exact Hvo.
  - now rewrite Hother.
Qed.

Lemma extends_wf r r' : extends r r' → wf r'.
Proof. now intros [H _]. Qed.

Lemma extends_refl r : wf r → extends r r.
Proof. now split. Qed.

Lemma extends_ext r r1 r2 :
  ids r2 = ids r1 → graph r2 = graph r1 → source r2 = source r1 →
  nextNode r2 = nextNode r1 → nextPtr r2 = nextPtr r1 → extends r r1 → extends r r2.
Proof.
  intros Hi Hg Hs Hn Hp [H1 H2]. split.
  - apply (wf_ext r1); auto. now rewrite Hg.
  - now rewrite Hi.
Qed.

Lemma extends_Add r sched rec s rep r1 r2 :
  extends r r1 → Add sched rec s rep r1 = Some r2 → extends r r2.
Proof.
  intros [H1 H2] HA. split; [eauto using Add_wf|].
  intros n v Hv. eapply Add_ids_mono; eauto.
Qed.

(** X16. On a well-formed ring [updatePending] returns and, whatever the
    replay of the messages decided, the queue it leaves is the queue it
    found less its first message: a message queued alone is gone after one
    call, verified or not, and of several the later ones all stay. The
    source, the threshold and the flag are as before, and no name known
    before is forgotten. *)
Theorem updatePending_drops_head c sched reptable r :
  wf r →
  ∃ r', updatePending c sched reptable r = Some r' ∧ wf r' ∧
        pending r' = tail (pending r) ∧
        source r' = source r ∧ threshold r' = threshold r ∧ stopped r' = stopped r ∧
        (∀ n v, ids r !! n = Some v → ids r' !! n = Some v).
Proof.
  intros Hwf. destruct (updatePending_total c sched reptable r Hwf) as [r' Hr'].
  exists r'. split; [exact Hr'|].
  split; [eauto using updatePending_wf|].
  split; [eauto using updatePending_pending|].
  pose proof (inv_updatePending (extends r) (extends_ext r) (extends_Add r)
                c sched reptable r r' (extends_refl r Hwf) Hr') as HP.
  destruct HP as [_ Hmono].
  unfold updatePending in Hr'.
  destruct (replayPending c sched reptable r) as [st|] eqn:Hst; simpl in Hr'; [|discriminate].
  apply replayPending_shell in Hst as (H1 & _ & H3 & H4).
  injection Hr' as Hr'. subst r'. simpl. tauto.
Qed.

Lemma updatePending_drops_head_witness :
  wf (AddUnverified (message "B" "D") (AddUnverified (message "X" "C") ringS1)) ∧
  ∃ r', updatePending acceptAll backwards None
          (AddUnverified (message "B" "D") (AddUnverified (message "X" "C") ringS1))
        = Some r' ∧ wf r' ∧
        pending r'
        = tail (pending (AddUnverified (message "B" "D")
                           (AddUnverified (message "X" "C") ringS1))) ∧
        source r'
        = source (AddUnverified (message "B" "D") (AddUnverified (message "X" "C") ringS1)) ∧
        threshold r'
        = threshold (AddUnverified (message "B" "D") (AddUnverified (message "X" "C") ringS1)) ∧
        stopped r'
        = stopped (AddUnverified (message "B" "D") (AddUnverified (message "X" "C") ringS1)) ∧
        (∀ n v, ids (AddUnverified (message "B" "D") (AddUnverified (message "X" "C") ringS1))
                  !! n = Some v → ids r' !! n = Some v).
Proof.
  assert (H : wf (AddUnverified (message "B" "D") (AddUnverified (message "X" "C") ringS1))).
  { apply (bool_decide_unpack _). vm_compute. exact I. }
  split; [exact H|].
  exact (updatePending_drops_head acceptAll backwards None _ H).
Defined.

(** X17. [updateMessage] returns on a well-formed ring, and it changes the
    ring only through an [Add] of the record the message carries, made
    after the key could be read, [GetKey] handed out the signer's key and
    the signature was verified with it. It answers false, the message then
    staying marked as unprocessed, exactly when the key can be read and the
    signer's key is not available or does not verify the signature. *)
Theorem updateMessage_guarded c sched msg conf r :
  wf r →
  ∃ r' ok, updateMessage c sched msg conf r = Some (r', ok) ∧ wf r' ∧
    (r' ≠ r →
       ∃ key, DeserializeKey c (KeyExchangeMessage.KeyBytes msg) = Some key ∧
              (GetKey r (KeyExchangeMessage.Origin msg)).2 = true ∧
              Verify c msg (GetKey r (KeyExchangeMessage.Origin msg)).1 = true ∧
              contains r (KeyExchangeMessage.Origin msg) = true ∧
              KeyExchangeMessage.Owner msg ≠ KeyExchangeMessage.Origin msg ∧
              Add sched {| Owner := KeyExchangeMessage.Owner msg; KeyPub := key |}
                  (KeyExchangeMessage.Origin msg) conf r = Some r') ∧
    (ok = false ↔
       is_Some (DeserializeKey c (KeyExchangeMessage.KeyBytes msg)) ∧
       ((GetKey r (KeyExchangeMessage.Origin msg)).2 = false ∨
        Verify c msg (GetKey r (KeyExchangeMessage.Origin msg)).1 = false)) ∧
    (ok = false → r' = r).
Proof.
  intros Hwf. unfold updateMessage.
  destruct (DeserializeKey c _) as [key|] eqn:Hkey.
  2:{ exists r, true. split; [reflexivity|]. split; [exact Hwf|].
      split; [done|]. split; [|done]. split; [done|]. intros [[? ?] _]. discriminate. }
  destruct (GetKey r _) as [kpub present] eqn:HG. simpl.
  destruct present; simpl.
  2:{ exists r, false. split; [reflexivity|]. split; [exact Hwf|].
      split; [done|]. split; [|done]. split; [eauto|done]. }
  destruct (Verify c msg kpub) eqn:HV.
  2:{ exists r, false. split; [reflexivity|]. split; [exact Hwf|].
      split; [done|]. split; [|done]. split; [eauto|done]. }
  destruct (Add_total sched {| Owner := KeyExchangeMessage.Owner msg; KeyPub := key |}
              (KeyExchangeMessage.Origin msg) conf r Hwf) as [r' HA].
  rewrite HA. simpl. exists r', true. split; [reflexivity|].
  split; [eauto using Add_wf|]. split; [|split; [|done]].
  - intros Hne. exists key. split; [reflexivity|]. split; [reflexivity|].
    split; [reflexivity|].
    revert HA. unfold Add. simpl.
    destruct (contains r (KeyExchangeMessage.Origin msg)); simpl; [|now intros [= <-]].
    destruct (decide (KeyExchangeMessage.Owner msg = KeyExchangeMessage.Origin msg));
      [now intros [= <-]|].
    intros HA. split; [reflexivity|]. split; [assumption|]. exact HA.
  - split; [done|]. intros [_ [H|H]]; discriminate.
Qed.

Lemma updateMessage_guarded_witness :
  wf ringS1 ∧
  ∃ r' ok, updateMessage acceptAll inOrder (message "B" "C") F32.one ringS1 = Some (r', ok) ∧
    wf r' ∧
    (r' ≠ ringS1 →
       ∃ key, DeserializeKey acceptAll (KeyExchangeMessage.KeyBytes (message "B" "C"))
              = Some key ∧
              (GetKey ringS1 (KeyExchangeMessage.Origin (message "B" "C"))).2 = true ∧
              Verify acceptAll (message "B" "C")
                (GetKey ringS1 (KeyExchangeMessage.Origin (message "B" "C"))).1 = true ∧
              contains ringS1 (KeyExchangeMessage.Origin (message "B" "C")) = true ∧
              KeyExchangeMessage.Owner (message "B" "C")
              ≠ KeyExchangeMessage.Origin (message "B" "C") ∧
              Add inOrder {| Owner := KeyExchangeMessage.Owner (message "B" "C"); KeyPub := key |}
                  (KeyExchangeMessage.Origin (message "B" "C")) F32.one ringS1 = Some r') ∧
    (ok = false ↔
       is_Some (DeserializeKey acceptAll (KeyExchangeMessage.KeyBytes (message "B" "C"))) ∧
       ((GetKey ringS1 (KeyExchangeMessage.Origin (message "B" "C"))).2 = false ∨
        Verify acceptAll (message "B" "C")
          (GetKey ringS1 (KeyExchangeMessage.Origin (message "B" "C"))).1 = false)) ∧
    (ok = false → r' = ringS1).
Proof.
  assert (H : wf ringS1) by (apply (bool_decide_unpack _); vm_compute; exact I).
  split; [exact H|].
  exact (updateMessage_guarded acceptAll inOrder (message "B" "C") F32.one ringS1 H).
Defined.

(** X18. A round of the updater on a well-formed ring runs to its end. On a
    stopped ring it changes nothing. On a running ring it leaves the queue
    less its first message, forgets no name and keeps the source, the
    threshold and the flag. Either way the names that have a record are
    those that had one: the round rewrites records, it neither creates nor
    drops any. *)
Theorem tick_round c sched reptable r :
  wf r →
  ∃ r', tick c sched reptable r = Some r' ∧ wf r' ∧
    source r' = source r ∧ threshold r' = threshold r ∧ stopped r' = stopped r ∧
    (stopped r = true → r' = r) ∧
    (stopped r = false → pending r' = tail (pending r)) ∧
    (∀ n v, ids r !! n = Some v → ids r' !! n = Some v) ∧
    (∀ n, n ∈ GetPeerList r' ↔ n ∈ GetPeerList r) ∧
    tick c sched reptable (Stop r) = Some (Stop r).
Proof.
  intros Hwf. destruct (tick_total c sched reptable r Hwf) as [r' Hr'].
  exists r'. split; [exact Hr'|].
  pose proof (inv_tick (extends r) (extends_wf r) (extends_ext r) (extends_Add r)
                c sched reptable r r' (extends_refl r Hwf) Hr') as HP.
  destruct HP as [Hwf' Hmono]. split; [exact Hwf'|].
  assert (Hdom : ∀ n, n ∈ GetPeerList r' ↔ n ∈ GetPeerList r).
  { intros n. unfold GetPeerList. rewrite !elem_of_getPeerList. eauto using tick_dom. }
  revert Hr'. unfold tick. simpl. destruct (stopped r) eqn:Hst.
  { intros [= <-]. done. }
  destruct (updateTrust sched reptable r) as [r1|] eqn:H1; simpl; [|discriminate].
  destruct (updatePending c sched reptable r1) as [r2|] eqn:H2; simpl; [|discriminate].
  intros H3.
  apply updateConfidence_frame in H3 as ((S1 & S2 & S3 & S4) & _).
  pose proof (updatePending_pending _ _ _ _ _ H2) as Hq.
  unfold updatePending in H2.
  destruct (replayPending c sched reptable r1) as [st|] eqn:Hrp; simpl in H2; [|discriminate].
  injection H2 as <-. apply replayPending_shell in Hrp as (T1 & _ & T3 & T4).
  simpl in *.
  pose proof Hwf as (_ & _ & [root Hroot] & _).
  destruct (trust_loop_heap reptable r root (rangeMap sched (ids r)) Hwf Hroot)
    as (h & Hf & _).
  { intros n v. apply rangeMap_lookup. }
  unfold updateTrust in H1. rewrite Hf in H1. injection H1 as <-. simpl in *.
  split; [congruence|]. split; [congruence|]. split; [congruence|].
  split; [discriminate|]. split; [intros _; congruence|]. done.
Qed.

Lemma tick_round_witness :
  wf (AddUnverified (message "B" "C") ringS1) ∧
  ∃ r', tick acceptAll inOrder None (AddUnverified (message "B" "C") ringS1) = Some r' ∧
    wf r' ∧
    source r' = source (AddUnverified (message "B" "C") ringS1) ∧
    threshold r' = threshold (AddUnverified (message "B" "C") ringS1) ∧
    stopped r' = stopped (AddUnverified (message "B" "C") ringS1) ∧
    (stopped (AddUnverified (message "B" "C") ringS1) = true →
       r' = AddUnverified (message "B" "C") ringS1) ∧
    (stopped (AddUnverified (message "B" "C") ringS1) = false →
       pending r' = tail (pending (AddUnverified (message "B" "C") ringS1))) ∧
    (∀ n v, ids (AddUnverified (message "B" "C") ringS1) !! n = Some v →
            ids r' !! n = Some v) ∧
    (∀ n, n ∈ GetPeerList r' ↔ n ∈ GetPeerList (AddUnverified (message "B" "C") ringS1)) ∧
    tick acceptAll inOrder None (Stop (AddUnverified (message "B" "C") ringS1))
    = Some (Stop (AddUnverified (message "B" "C") ringS1)).
Proof.
  assert (H : wf (AddUnverified (message "B" "C") ringS1)).
  { apply (bool_decide_unpack _). vm_compute. exact I. }
  split; [exact H|].
  exact (tick_round acceptAll inOrder None _ H).
Defined.

(** X19. The names that have a record are fixed when the ring is built: in
    every later state [GetPeerList] lists the owner and the names of the
    bootstrap list and no other. A name learnt through [Add] gets a node and
    no record, so that [GetKey] never returns a key for it. *)
Theorem records_frozen c owner key trustedRecords thr r0 r :
  NewKeyRing owner key trustedRecords thr = Some r0 → grows c r0 r →
  ∀ n, (n ∈ GetPeerList r ↔ n = owner ∨ n ∈ names trustedRecords) ∧
       (n ≠ owner → n ∉ names trustedRecords → GetKey r n = (zeroKey, false)).
Proof.
  intros H0 Hg.
  assert (Hdom : ∀ n, is_Some (keyTable r !! n) ↔ is_Some (keyTable r0 !! n)).
  { induction Hg as [|sched rec s rep r r' _ IH HA|msg r _ IH
                    |r _ IH|sched reptable r r' _ IH Ht]; intros n.
    - reflexivity.
    - rewrite <- IH. eauto using Add_dom.
    - apply IH.
    - apply IH.
    - rewrite <- IH. eauto using tick_dom. }
  destruct (NewKeyRing_indexed owner key trustedRecords thr)
    as (r0' & Hr0' & _ & _ & _ & Htb & _).
  rewrite H0 in Hr0'. injection Hr0' as <-.
  intros n. split.
  - unfold GetPeerList. rewrite elem_of_getPeerList, Hdom. apply Htb.
  - intros Hn1 Hn2. unfold GetKey, KeyTable.get.
    destruct (keyTable r !! n) as [rec|] eqn:Hrec; [|reflexivity].
    exfalso. assert (Hs : is_Some (keyTable r !! n)) by eauto.
    apply Hdom, Htb in Hs as [|]; contradiction.
Qed.

Lemma records_frozen_witness :
  NewKeyRing "R" K_R [trusted "B" K_B f0_9] F32.half = Some ringS1 ∧
  grows acceptAll ringS1 ringS2 ∧
  ∀ n, (n ∈ GetPeerList ringS2 ↔ n = "R" ∨ n ∈ names [trusted "B" K_B f0_9]) ∧
       (n ≠ "R" → n ∉ names [trusted "B" K_B f0_9] → GetKey ringS2 n = (zeroKey, false)).
Proof.
  assert (H2 : NewKeyRing "R" K_R [trusted "B" K_B f0_9] F32.half = Some ringS1)
    by reflexivity.
  assert (H3 : grows acceptAll ringS1 ringS2).
  { apply (grows_Add acceptAll ringS1 inOrder {| Owner := "C"; KeyPub := K_C |} "B" F32.half
             ringS1); [constructor|reflexivity]. }
  split; [exact H2|]. split; [exact H3|].
  exact (records_frozen acceptAll "R" K_R [trusted "B" K_B f0_9] F32.half ringS1 ringS2 H2 H3).
Defined.

(** ** Agreement of the paths, and the tag of a key *)

Lemma endorsements_all g paths t :
  Forall (λ p, tag g p = Some t) paths → endorsements g paths t = length paths.
Proof.
  intros H. unfold endorsements. f_equal.
  induction H as [|p l Hp _ IH]; [reflexivity|].
  rewrite filter_cons_True by exact Hp. now rewrite IH.
Qed.

Lemma endorsements_pos g paths k :
  (0 < endorsements g paths k)%nat → ∃ p, p ∈ paths ∧ tag g p = Some k.
Proof.
  unfold endorsements. intros H.
  destruct (filter (λ p, tag g p = Some k) paths) as [|p l] eqn:Hf; [simpl in H; lia|].
  assert (Hin : p ∈ filter (λ p, tag g p = Some k) paths) by (rewrite Hf; left).
  apply list_elem_of_filter in Hin as [H1 H2]. eauto.
Qed.

Lemma filter_all {A : Type} (P : A → Prop) `{∀ x, Decision (P x)} (l : list A) :
  Forall P l → filter P l = l.
Proof.
  induction 1 as [|x l Hx _ IH]; [reflexivity|].
  rewrite filter_cons_True by exact Hx. now rewrite IH.
Qed.

Lemma selectBestPaths_agree sched g paths t :
  fair sched → paths ≠ [] → Forall (λ p, tag g p = Some t) paths →
  selectBestPaths sched g paths = Some (paths, Some (keyOfLast g paths)) ∧
  keyString (keyOfLast g paths) = t.
Proof.
  intros Hfair Hne Hall.
  assert (Hkey : keyString (keyOfLast g paths) = t).
  { unfold keyOfLast. destruct (list.last paths) as [p|] eqn:Hl.
    - apply last_Some_elem_of in Hl.
      rewrite list.Forall_forall in Hall. apply Hall in Hl.
      apply tag_Some in Hl as (key & Hk & <-). unfold keyOf. now rewrite Hk.
    - apply last_None in Hl. contradiction. }
  split; [|exact Hkey].
  destruct paths as [|p [|q paths]]; [contradiction| |].
  - apply Forall_inv in Hall. apply tag_Some in Hall as (key & Hk & _).
    unfold keyOfLast, keyOf. simpl. rewrite Hk.
    revert Hk. unfold selectBestPaths, lastKey.
    destruct (ends p) as [[s' t']|]; [|discriminate].
    destruct (simple.Edge g s' t') as [e|]; simpl; [|discriminate].
    now intros [= <-].
  - set (ps := p :: q :: paths) in *.
    assert (Hlk : Forall (λ p, is_Some (lastKey g p)) ps).
    { eapply list.Forall_impl; [exact Hall|]. intros x Hx. simpl in Hx.
      apply tag_Some in Hx as (key & -> & _). eauto. }
    destruct (selectBestPaths_chosen sched g ps Hfair) as (bkey & Hsel & Hmax);
      [simpl; lia|exact Hlk|].
    assert (Hb : bkey = t).
    { pose proof (Hmax t) as Ht. rewrite (endorsements_all _ _ _ Hall) in Ht.
      destruct (endorsements_pos g ps bkey) as (x & Hx & Htx); [simpl in Ht; lia|].
      rewrite list.Forall_forall in Hall. apply Hall in Hx. congruence. }
    subst bkey. rewrite Hsel. now rewrite (filter_all _ _ Hall).
Qed.

(** X20. Paths that all assert the same key are all kept: when every path
    handed to [selectBestPaths] ends with an edge whose key has the same
    tag, be there one path or many, the selection returns the very list it
    was given and the key of its last path, in every order of iteration. *)
Theorem selectBestPaths_unanimous sched g paths t :
  fair sched → paths ≠ [] → Forall (λ p, tag g p = Some t) paths →
  selectBestPaths sched g paths = Some (paths, Some (keyOfLast g paths)) ∧
  keyString (keyOfLast g paths) = t.
Proof. apply selectBestPaths_agree. Qed.

Lemma selectBestPaths_unanimous_witness :
  fair backwards ∧ pathsBoth ≠ [] ∧
  Forall (λ p, tag (graph ringBoth) p = Some (keyString K_C)) pathsBoth ∧
  selectBestPaths backwards (graph ringBoth) pathsBoth
  = Some (pathsBoth, Some (keyOfLast (graph ringBoth) pathsBoth)) ∧
  keyString (keyOfLast (graph ringBoth) pathsBoth) = keyString K_C.
Proof.
  assert (H1 : pathsBoth ≠ []) by discriminate.
  assert (H2 : Forall (λ p, tag (graph ringBoth) p = Some (keyString K_C)) pathsBoth).
  { apply (bool_decide_unpack _). vm_compute. exact I. }
  split; [exact fair_backwards|]. split; [exact H1|]. split; [exact H2|].
  exact (selectBestPaths_unanimous backwards (graph ringBoth) pathsBoth (keyString K_C)
           fair_backwards H1 H2).
Defined.

Lemma runeString_invalid e : codePoint e = false → runeString e = runeString 65533.
Proof.
  unfold codePoint, runeString. intros ->. reflexivity.
Qed.

(** X21. The tag under which [selectBestPaths] counts a key writes the
    exponent as [string(key.E)], and an exponent that is not a code point of
    Unicode is written as U+FFFD. Two keys with the same modulus and two
    such exponents get the same tag, and two paths that assert them are
    taken to agree: both are kept and the key returned is the one of the
    second path. *)
Theorem keys_conflated sched g p1 p2 k1 k2 :
  fair sched →
  lastKey g p1 = Some (Some k1) → lastKey g p2 = Some (Some k2) →
  N k1 = N k2 → codePoint (E k1) = false → codePoint (E k2) = false →
  keyString k1 = keyString k2 ∧
  selectBestPaths sched g [p1; p2] = Some ([p1; p2], Some k2).
Proof.
  intros Hfair H1 H2 HN He1 He2.
  assert (Hk : keyString k1 = keyString k2).
  { unfold keyString. now rewrite HN, (runeString_invalid _ He1), (runeString_invalid _ He2). }
  split; [exact Hk|].
  destruct (selectBestPaths_agree sched g [p1; p2] (keyString k2) Hfair) as [Hsel _];
    [discriminate| |].
  - constructor; [|constructor; [|constructor]]; apply tag_Some; eauto.
  - rewrite Hsel. unfold keyOfLast, keyOf. simpl. now rewrite H2.
Qed.

Lemma keys_conflated_witness :
  fair inOrder ∧
  lastKey (graph ringOdd) (default [] (pathsOdd !! 0%nat)) = Some (Some K_E1) ∧
  lastKey (graph ringOdd) (default [] (pathsOdd !! 1%nat)) = Some (Some K_E2) ∧
  N K_E1 = N K_E2 ∧ codePoint (E K_E1) = false ∧ codePoint (E K_E2) = false ∧
  keyString K_E1 = keyString K_E2 ∧
  selectBestPaths inOrder (graph ringOdd)
    [default [] (pathsOdd !! 0%nat); default [] (pathsOdd !! 1%nat)]
  = Some ([default [] (pathsOdd !! 0%nat); default [] (pathsOdd !! 1%nat)], Some K_E2).
Proof.
  assert (H1 : lastKey (graph ringOdd) (default [] (pathsOdd !! 0%nat)) = Some (Some K_E1))
    by (vm_compute; reflexivity).
  assert (H2 : lastKey (graph ringOdd) (default [] (pathsOdd !! 1%nat)) = Some (Some K_E2))
    by (vm_compute; reflexivity).
  assert (H3 : N K_E1 = N K_E2) by reflexivity.
  assert (H4 : codePoint (E K_E1) = false) by reflexivity.
  assert (H5 : codePoint (E K_E2) = false) by reflexivity.
  split; [exact fair_inOrder|]. split; [exact H1|]. split; [exact H2|].
  split; [exact H3|]. split; [exact H4|]. split; [exact H5|].
  exact (keys_conflated inOrder (graph ringOdd) _ _ K_E1 K_E2 fair_inOrder H1 H2 H3 H4 H5).
Defined.

(** ** When two keys get the same tag *)

Lemma list_ascii_of_string_app (a b : string) :
  list_ascii_of_string (a ++ b)
  = (list_ascii_of_string a ++ list_ascii_of_string b)%list.
Proof. induction a as [|c a IH]; simpl; [reflexivity|]. now rewrite IH. Qed.

Lemma list_ascii_of_string_inj (a b : string) :
  list_ascii_of_string a = list_ascii_of_string b → a = b.
Proof.
  intros H. rewrite <- (string_of_list_ascii_of_string a), H.
  apply string_of_list_ascii_of_string.
Qed.

Lemma byte_of_inj a b : 0 ≤ a < 256 → 0 ≤ b < 256 → byte_of a = byte_of b → a = b.
Proof.
  intros Ha Hb H. unfold byte_of in H.
  apply (f_equal N_of_ascii) in H.
  rewrite !N_ascii_embedding in H by (rewrite Z.mod_small by lia; lia).
  rewrite !Z.mod_small in H by lia. lia.
Qed.

Lemma byte_of_high z : 128 ≤ z < 256 → byte_of z ≠ "-"%char.
Proof.
  intros Hz H. change "-"%char with (byte_of 45) in H.
  apply byte_of_inj in H; lia.
Qed.

Lemma lor_small x :
  0 ≤ x < 64 →
  Z.lor 128 x = 128 + x ∧ (x < 32 → Z.lor 192 x = 192 + x) ∧
  (x < 16 → Z.lor 224 x = 224 + x) ∧ (x < 8 → Z.lor 240 x = 240 + x).
Proof.
  intros Hx.
  assert (Hb : forallb (λ i, let y := Z.of_nat i in
                (Z.lor 128 y =? 128 + y) &&
                (negb (y <? 32) || (Z.lor 192 y =? 192 + y)) &&
                (negb (y <? 16) || (Z.lor 224 y =? 224 + y)) &&
                (negb (y <? 8) || (Z.lor 240 y =? 240 + y))) (seq 0 64) = true)
    by (vm_compute; reflexivity).
  rewrite forallb_forall in Hb.
  assert (Hin : In (Z.to_nat x) (seq 0 64)) by (apply in_seq; lia).
  apply Hb in Hin. rewrite Z2Nat.id in Hin by lia. cbv zeta in Hin.
  apply andb_prop in Hin as [Hin H4]. apply andb_prop in Hin as [Hin H3].
  apply andb_prop in Hin as [H1 H2].
  split; [lia|].
  split; [|split]; intros Hlt.
  - apply orb_prop in H2 as [H2|H2]; lia.
  - apply orb_prop in H3 as [H3|H3]; lia.
  - apply orb_prop in H4 as [H4|H4]; lia.
Qed.

Lemma rune_codePoint e : codePoint (rune e) = true.
Proof. unfold rune. destruct (codePoint e) eqn:H; [exact H|reflexivity]. Qed.

Lemma runeString_rune e : runeString e = runeString (rune e).
Proof.
  unfold rune. destruct (codePoint e) eqn:H; [reflexivity|].
  unfold codePoint in H. unfold runeString. now rewrite H.
Qed.

(** The bytes of [string(r)] for a code point [r]. *)
Lemma runeString_bytes r :
  codePoint r = true →
  list_ascii_of_string (runeString r)
  = if r <? 128 then [byte_of r]
    else if r <? 2048 then [byte_of (192 + r / 64); byte_of (128 + r mod 64)]
    else if r <? 65536 then
      [byte_of (224 + r / 4096); byte_of (128 + (r / 64) mod 64); byte_of (128 + r mod 64)]
    else [byte_of (240 + r / 262144); byte_of (128 + (r / 4096) mod 64);
          byte_of (128 + (r / 64) mod 64); byte_of (128 + r mod 64)].
Proof.
  intros Hr. assert (Hrange : 0 ≤ r ≤ 1114111) by (unfold codePoint in Hr; lia).
  unfold runeString. unfold codePoint in Hr. rewrite Hr.
  rewrite !Z.shiftr_div_pow2 by lia.
  change 63 with (Z.ones 6). rewrite !Z.land_ones by lia.
  change (2 ^ 6) with 64. change (2 ^ 12) with 4096. change (2 ^ 18) with 262144.
  pose proof (Z.mod_pos_bound r 64 ltac:(lia)) as H0.
  pose proof (Z.mod_pos_bound (r / 64) 64 ltac:(lia)) as H1.
  pose proof (Z.mod_pos_bound (r / 4096) 64 ltac:(lia)) as H2.
  destruct (lor_small (r mod 64) H0) as (-> & _).
  destruct (lor_small ((r / 64) mod 64) H1) as (-> & _).
  destruct (lor_small ((r / 4096) mod 64) H2) as (-> & _).
  destruct (Z.ltb_spec r 128); [reflexivity|].
  destruct (Z.ltb_spec r 2048).
  { assert (Hq : 0 ≤ r / 64 < 32)
      by (split; [apply Z.div_pos; lia|apply Z.div_lt_upper_bound; lia]).
    assert (Hq' : 0 ≤ r / 64 < 64) by lia.
    destruct (lor_small (r / 64) Hq') as (_ & HL & _). rewrite HL by lia. reflexivity. }
  destruct (Z.ltb_spec r 65536).
  { assert (Hq : 0 ≤ r / 4096 < 16)
      by (split; [apply Z.div_pos; lia|apply Z.div_lt_upper_bound; lia]).
    assert (Hq' : 0 ≤ r / 4096 < 64) by lia.
    destruct (lor_small (r / 4096) Hq') as (_ & _ & HL & _). rewrite HL by lia. reflexivity. }
  assert (Hq : 0 ≤ r / 262144 < 8)
    by (split; [apply Z.div_pos; lia|apply Z.div_lt_upper_bound; lia]).
  assert (Hq' : 0 ≤ r / 262144 < 64) by lia.
  destruct (lor_small (r / 262144) Hq') as (_ & _ & _ & HL). rewrite HL by lia. reflexivity.
Qed.

Lemma runeString_encoded e : encoded (list_ascii_of_string (runeString e)).
Proof.
  rewrite runeString_rune. pose proof (rune_codePoint e) as Hc.
  set (r := rune e) in *. rewrite (runeString_bytes r Hc).
  assert (Hrange : 0 ≤ r ≤ 1114111) by (unfold codePoint in Hc; lia).
  pose proof (Z.mod_pos_bound r 64 ltac:(lia)) as H0.
  pose proof (Z.mod_pos_bound (r / 64) 64 ltac:(lia)) as H1.
  pose proof (Z.mod_pos_bound (r / 4096) 64 ltac:(lia)) as H2.
  destruct (Z.ltb_spec r 128); [left; eauto|].
  destruct (Z.ltb_spec r 2048).
  { assert (Hq : 0 ≤ r / 64 < 32)
      by (split; [apply Z.div_pos; lia|apply Z.div_lt_upper_bound; lia]).
    right; left. eexists _, _. split; [reflexivity|].
    split; apply byte_of_high; lia. }
  destruct (Z.ltb_spec r 65536).
  { assert (Hq : 0 ≤ r / 4096 < 16)
      by (split; [apply Z.div_pos; lia|apply Z.div_lt_upper_bound; lia]).
    right; right; left. eexists _, _, _. split; [reflexivity|].
    split; [|split]; apply byte_of_high; lia. }
  assert (Hq : 0 ≤ r / 262144 < 8)
    by (split; [apply Z.div_pos; lia|apply Z.div_lt_upper_bound; lia]).
  right; right; right. eexists _, _, _, _. split; [reflexivity|].
  split; [|split; [|split]]; apply byte_of_high; lia.
Qed.

Lemma runeString_inj a b :
  codePoint a = true → codePoint b = true → runeString a = runeString b → a = b.
Proof.
  intros Ha Hb H. apply (f_equal list_ascii_of_string) in H.
  rewrite (runeString_bytes a Ha), (runeString_bytes b Hb) in H.
  assert (Hra : 0 ≤ a ≤ 1114111) by (unfold codePoint in Ha; lia).
  assert (Hrb : 0 ≤ b ≤ 1114111) by (unfold codePoint in Hb; lia).
  pose proof (Z.mod_pos_bound a 64 ltac:(lia)) as A0.
  pose proof (Z.mod_pos_bound (a / 64) 64 ltac:(lia)) as A1.
  pose proof (Z.mod_pos_bound (a / 4096) 64 ltac:(lia)) as A2.
  pose proof (Z.mod_pos_bound b 64 ltac:(lia)) as B0.
  pose proof (Z.mod_pos_bound (b / 64) 64 ltac:(lia)) as B1.
  pose proof (Z.mod_pos_bound (b / 4096) 64 ltac:(lia)) as B2.
  assert (A3 : 0 ≤ a / 64 ∧ 0 ≤ a / 4096 ∧ 0 ≤ a / 262144)
    by (repeat split; apply Z.div_pos; lia).
  assert (B3 : 0 ≤ b / 64 ∧ 0 ≤ b / 4096 ∧ 0 ≤ b / 262144)
    by (repeat split; apply Z.div_pos; lia).
  pose proof (Z.div_mod a 64 ltac:(lia)) as DA0.
  pose proof (Z.div_mod b 64 ltac:(lia)) as DB0.
  pose proof (Z.div_mod (a / 64) 64 ltac:(lia)) as DA1.
  pose proof (Z.div_mod (b / 64) 64 ltac:(lia)) as DB1.
  pose proof (Z.div_mod (a / 4096) 64 ltac:(lia)) as DA2.
  pose proof (Z.div_mod (b / 4096) 64 ltac:(lia)) as DB2.
  rewrite Z.div_div in DA1, DB1, DA2, DB2 by lia.
  change (64 * 64) with 4096 in DA1, DB1. change (4096 * 64) with 262144 in DA2, DB2.
  destruct (Z.ltb_spec a 128), (Z.ltb_spec b 128);
    [|destruct (Z.ltb_spec b 2048); [|destruct (Z.ltb_spec b 65536)]; discriminate
     |destruct (Z.ltb_spec a 2048); [|destruct (Z.ltb_spec a 65536)]; discriminate|].
  { injection H as E0. apply byte_of_inj in E0; lia. }
  destruct (Z.ltb_spec a 2048), (Z.ltb_spec b 2048);
    [|destruct (Z.ltb_spec b 65536); discriminate
     |destruct (Z.ltb_spec a 65536); discriminate|].
  { assert (a / 64 < 32) by (apply Z.div_lt_upper_bound; lia).
    assert (b / 64 < 32) by (apply Z.div_lt_upper_bound; lia).
    injection H as E1 E0.
    apply byte_of_inj in E1; [|lia..]. apply byte_of_inj in E0; [|lia..]. lia. }
  destruct (Z.ltb_spec a 65536), (Z.ltb_spec b 65536); [|discriminate..|].
  { assert (a / 4096 < 16) by (apply Z.div_lt_upper_bound; lia).
    assert (b / 4096 < 16) by (apply Z.div_lt_upper_bound; lia).
    injection H as E2 E1 E0.
    apply byte_of_inj in E2; [|lia..]. apply byte_of_inj in E1; [|lia..].
    apply byte_of_inj in E0; [|lia..]. lia. }
  assert (a / 262144 < 8) by (apply Z.div_lt_upper_bound; lia).
  assert (b / 262144 < 8) by (apply Z.div_lt_upper_bound; lia).
  injection H as E3 E2 E1 E0.
  apply byte_of_inj in E3; [|lia..]. apply byte_of_inj in E2; [|lia..].
  apply byte_of_inj in E1; [|lia..]. apply byte_of_inj in E0; [|lia..]. lia.
Qed.

Lemma encoded_split (x1 x2 r1 r2 : list ascii) :
  encoded r1 → encoded r2 →
  (x1 ++ "-"%char :: r1 = x2 ++ "-"%char :: r2)%list → x1 = x2 ∧ r1 = r2.
Proof.
  intros H1 H2 H. apply (f_equal reverse) in H.
  rewrite !reverse_app in H.
  destruct H1 as [(a & ->)|[(a & b & -> & ? & ?)|[(a & b & c & -> & ? & ? & ?)
                 |(a & b & c & d & -> & ? & ? & ? & ?)]]];
  destruct H2 as [(a' & ->)|[(a' & b' & -> & ? & ?)|[(a' & b' & c' & -> & ? & ? & ?)
                 |(a' & b' & c' & d' & -> & ? & ? & ? & ?)]]];
  cbn in H; simplify_eq; try (split; [|reflexivity]); try congruence;
  match goal with Hr : reverse _ = reverse _ |- _ => exact (inj reverse _ _ Hr) end.
Qed.

Lemma to_int_normal z : Z.to_int z ≠ Decimal.Pos Decimal.Nil ∧ Z.to_int z ≠ Decimal.Neg Decimal.Nil.
Proof.
  rewrite <- (DecimalZ.of_to z) at 1 2. rewrite !DecimalZ.to_of.
  destruct (Z.to_int z) as [d|d]; simpl; unfold Decimal.unorm;
    destruct (Decimal.nzhead d); split; discriminate.
Qed.

Lemma bigString_inj a b : bigString a = bigString b → a = b.
Proof.
  destruct a as [a|], b as [b|]; simpl; intros H; [|exfalso..|reflexivity].
  - f_equal. apply DecimalZ.to_int_inj.
    destruct (to_int_normal a) as [A1 A2], (to_int_normal b) as [B1 B2].
    pose proof (NilZero.isi _ A1 A2) as Ha. rewrite H in Ha.
    rewrite (NilZero.isi _ B1 B2) in Ha. congruence.
  - destruct (to_int_normal a) as [A1 A2].
    pose proof (NilZero.isi _ A1 A2) as Ha. rewrite H in Ha. vm_compute in Ha. discriminate.
  - destruct (to_int_normal b) as [B1 B2].
    pose proof (NilZero.isi _ B1 B2) as Hb. rewrite <- H in Hb. vm_compute in Hb. discriminate.
Qed.

Lemma keyString_same k1 k2 :
  keyString k1 = keyString k2 ↔ N k1 = N k2 ∧ rune (E k1) = rune (E k2).
Proof.
  split.
  - intros H. unfold keyString in H.
    apply (f_equal list_ascii_of_string) in H.
    rewrite !list_ascii_of_string_app in H. simpl in H.
    apply encoded_split in H as [HB HR]; [|apply runeString_encoded..].
    apply list_ascii_of_string_inj in HB, HR.
    split; [now apply bigString_inj|].
    rewrite (runeString_rune (E k1)), (runeString_rune (E k2)) in HR.
    apply runeString_inj in HR; [exact HR|apply rune_codePoint..].
  - intros [HN HE]. unfold keyString.
    now rewrite HN, (runeString_rune (E k1)), (runeString_rune (E k2)), HE.
Qed.

(** X22. Two keys get the same tag exactly when they have the same modulus
    and their exponents are written alike, that is when the exponents are
    equal or neither is a code point other than U+FFFD. Keys whose
    exponents are code points, 65537 among them, are thus never taken for
    one another. *)
Theorem keyString_collides k1 k2 :
  (keyString k1 = keyString k2 ↔ N k1 = N k2 ∧ rune (E k1) = rune (E k2)) ∧
  (codePoint (E k1) = true → codePoint (E k2) = true →
   keyString k1 = keyString k2 → k1 = k2).
Proof.
  split; [apply keyString_same|].
  intros H1 H2 H. apply keyString_same in H as [HN HE].
  unfold rune in HE. rewrite H1, H2 in HE.
  destruct k1, k2. simpl in *. congruence.
Qed.

(** ** Trust near the root, and the updater without a table *)

Lemma hops_self g s : is_Some (simple.nodes g !! s) → path.hops g s s = Some O.
Proof.
  intros Hs. destruct (hops_complete g s s O Hs) as (j & Hj & Hle); [constructor|].
  assert (j = O) by lia. now subst j.
Qed.

Lemma hops_next g s t e :
  s ≠ t → simple.edges g !! (s, t) = Some e →
  is_Some (simple.nodes g !! s) → is_Some (simple.nodes g !! t) →
  path.hops g s t = Some 1%nat.
Proof.
  intros Hne He Hs Ht.
  destruct (hops_complete g s t 1 Hs) as (j & Hj & Hle).
  { eapply walk_snoc; [constructor|exact He|exact Hs|exact Ht]. }
  destruct j as [|j].
  - apply hops_shortest in Hj as [Hw _]. apply walk_zero in Hw. congruence.
  - assert (j = O) by lia. now subst j.
Qed.

(** X23. On a well-formed ring [phi] gives the source itself and every name
    the source has signed a key for the same value, [float32(min(1, rep))]:
    the distance 0 of the source is replaced by 1, the distance of its
    direct neighbours. *)
Theorem phi_near_root n rep r src v :
  wf r → ids r !! source r = Some src → ids r !! n = Some v →
  n = source r ∨ is_Some (simple.Edge (graph r) src v) →
  phi n rep r = Some (to_f32 (F64.min F64.one (to_f64 rep))).
Proof.
  intros Hwf Hsrc Hv Hnear.
  destruct (phi_known n rep r v Hwf Hv) as (s & Hs & ->).
  rewrite Hsrc in Hs. injection Hs as <-.
  pose proof (wf_known_node r _ src Hwf Hsrc) as Hns. unfold simple.Node in Hns.
  pose proof (wf_known_node r n v Hwf Hv) as Hnv. unfold simple.Node in Hnv.
  do 3 f_equal. unfold dist, path.WeightTo.
  destruct (decide (n = source r)) as [->|Hne].
  - rewrite Hsrc in Hv. injection Hv as <-.
    rewrite hops_self by eauto. reflexivity.
  - destruct Hnear as [|[e He]]; [contradiction|].
    rewrite (hops_next _ _ _ e); [reflexivity| |exact He|eauto..].
    intros Hid. apply Hne. exact (wf_ids_inj r _ _ _ _ Hwf Hv Hsrc (eq_sym Hid)).
Qed.

Lemma phi_near_root_witness :
  wf ringS2 ∧ ids ringS2 !! source ringS2 = Some (nodeOf ringS2 "R") ∧
  ids ringS2 !! "B" = Some (nodeOf ringS2 "B") ∧
  ("B" = source ringS2 ∨
   is_Some (simple.Edge (graph ringS2) (nodeOf ringS2 "R") (nodeOf ringS2 "B"))) ∧
  phi "B" f0_9 ringS2 = Some (to_f32 (F64.min F64.one (to_f64 f0_9))).
Proof.
  assert (H : wf ringS2) by (apply (bool_decide_unpack _); vm_compute; exact I).
  assert (H1 : ids ringS2 !! source ringS2 = Some (nodeOf ringS2 "R")) by reflexivity.
  assert (H2 : ids ringS2 !! "B" = Some (nodeOf ringS2 "B")) by reflexivity.
  assert (H3 : "B" = source ringS2 ∨
               is_Some (simple.Edge (graph ringS2) (nodeOf ringS2 "R") (nodeOf ringS2 "B"))).
  { right. vm_compute. eauto. }
  split; [exact H|]. split; [exact H1|]. split; [exact H2|]. split; [exact H3|].
  exact (phi_near_root "B" f0_9 ringS2 _ _ H H1 H2 H3).
Defined.

Lemma foldlM_ext {A B : Type} (f g : B → A → option B) (l : list A) (b : B) :
  (∀ b x, f b x = g b x) → foldlM f b l = foldlM g b l.
Proof.
  intros H. revert b. induction l as [|x l IH]; intros b; [reflexivity|].
  simpl. rewrite H. destruct (g b x); simpl; auto.
Qed.

Lemma reputation_no_entry table n :
  (∀ m, (table m).2 = false) → reputation (Some table) n = reputation None n.
Proof.
  intros H. rewrite !reputation_spec. now rewrite H.
Qed.

(** X24. A round of the updater started without a reputation table, as
    [Start] does, is the round started with a table that has no entry for
    anybody: either way every reputation is 0.5, so that the trust of a name
    is [float32(min(1/d, 1))] and the replay of a pending message passes 1.0
    to [Add]. *)
Theorem tick_without_table c sched table r :
  (∀ n, (table n).2 = false) →
  tick c sched (Some table) r = tick c sched None r ∧
  (∀ n, reputation (Some table) n = F32.half ∧ reputation None n = F32.half) ∧
  F32.mul (F32.of_Z 2) F32.half = F32.one.
Proof.
  intros Hno. split; [|split; [|reflexivity]].
  - unfold tick. destruct (stopped r); [reflexivity|].
    assert (H1 : ∀ r0, updateTrust sched (Some table) r0 = updateTrust sched None r0).
    { intros r0. unfold updateTrust. apply foldlM_ext. intros b x.
      unfold trustStep. now rewrite (reputation_no_entry table _ Hno). }
    assert (H2 : ∀ r0, updatePending c sched (Some table) r0
                       = updatePending c sched None r0).
    { intros r0. unfold updatePending, replayPending.
      rewrite (foldlM_ext (replayStep c sched (Some table)) (replayStep c sched None));
        [reflexivity|].
      intros b x. unfold replayStep. now rewrite (reputation_no_entry table _ Hno). }
    rewrite H1. destruct (updateTrust sched None r) as [r1|]; simpl; [|reflexivity].
    now rewrite H2.
  - intros n. rewrite (reputation_no_entry table n Hno). now rewrite reputation_spec.
Qed.

Lemma tick_without_table_witness :
  (∀ n, (noEntry n).2 = false) ∧
  tick acceptAll inOrder (Some noEntry) (AddUnverified (message "B" "C") ringS1)
  = tick acceptAll inOrder None (AddUnverified (message "B" "C") ringS1) ∧
  (∀ n, reputation (Some noEntry) n = F32.half ∧ reputation None n = F32.half) ∧
  F32.mul (F32.of_Z 2) F32.half = F32.one.
Proof.
  assert (H : ∀ n, (noEntry n).2 = false) by reflexivity.
  split; [exact H|].
  exact (tick_without_table acceptAll inOrder noEntry
           (AddUnverified (message "B" "C") ringS1) H).
Defined.
